(** * Kalman filter and RTS smoother of [state/kalman.py]

    A shallow embedding of [kalmanMethods.kf] and [kalmanMethods.rts], the
    forward Kalman recursion and the backward Rauch-Tung-Striebel smoother
    with its analytic gradient, for the scalar linear-Gaussian model of
    [models/lgss_4parameters.py].

    The numbers of the program are kept abstract behind the interface
    [Scalar]: the recursions are written once, with the operations of the
    source in the order of the source, and read at two instances, the real
    numbers (the data model of the specification, "ordered reals") and the
    binary64 numbers numpy computes with.  Rounding is outside this
    development: every statement that needs a fact of arithmetic asks for it
    through [ExactArith], which the real numbers satisfy. *)

From Stdlib Require Import ZArith Lia Reals Lra Psatz PrimFloat.
From stdpp Require Import base tactics option list numbers.

Local Open Scope Z_scope.

(** ** Python exceptions and the error monad *)

Inductive exn : Type :=
| IndexError          (* subscript out of range *)
| UnboundLocalError   (* local name read before any assignment *)
| ValueError.         (* negative dimension given to np.zeros *)

Inductive result (A : Type) : Type :=
| Ok (a : A)
| Raise (e : exn).
Arguments Ok {A} a.
Arguments Raise {A} e.

Definition bind {A B : Type} (c : result A) (k : A -> result B) : result B :=
  match c with
  | Ok a => k a
  | Raise e => Raise e
  end.

Notation "'let*' x ':=' c 'in' k" := (bind c (fun x => k))
  (at level 10, x name, c at level 100, k at level 200).

(** [for t in idx: st = body(st, t)], stopping at the first exception. *)
Fixpoint for_each {St : Type} (body : St -> Z -> result St)
    (idx : list Z) (st : St) : result St :=
  match idx with
  | [] => Ok st
  | t :: rest => let* st' := body st t in for_each body rest st'
  end.

(** [range(start, stop)] and [range(start, stop, -1)]. *)
Definition py_range (start stop : Z) : list Z := seqZ start (stop - start).

Definition py_range_down (start stop : Z) : list Z :=
  (fun k => start - k) <$> seqZ 0 (start - stop).

(** ** The numbers of the program *)

Class Scalar (F : Type) : Type := {
  f0    : F;                 (* 0.0, the fill of np.zeros *)
  fhalf : F;                 (* 0.5 *)
  f1    : F;                 (* 1.0, and the integer 1 promoted *)
  f2    : F;                 (* 2.0, and the integer 2 promoted *)
  f1em5 : F;                 (* 1e-5 *)
  fpi   : F;                 (* np.pi *)
  fadd  : F -> F -> F;
  fsub  : F -> F -> F;
  fmul  : F -> F -> F;
  fdiv  : F -> F -> F;
  fneg  : F -> F;
  fpow  : F -> Z -> F;       (* x ** n for an integer literal n *)
  fln   : F -> F             (* np.log *)
}.

Declare Scope scalar_scope.
Delimit Scope scalar_scope with S.
Infix "+" := fadd : scalar_scope.
Infix "-" := fsub : scalar_scope.
Infix "*" := fmul : scalar_scope.
Infix "/" := fdiv : scalar_scope.
Notation "- x" := (fneg x) : scalar_scope.
Infix "**" := fpow (at level 30, right associativity) : scalar_scope.

(** The facts of exact arithmetic the statements below rely on.  All of
    them hold of the real numbers. *)
Class ExactArith (F : Type) `{Scalar F} : Prop := {
  mul_1_l   : forall x : F, (f1 * x)%S = x;
  mul_1_r   : forall x : F, (x * f1)%S = x;
  mul_assoc : forall x y z : F, (x * y * z)%S = (x * (y * z))%S;
  pow_2     : forall x : F, (x ** 2)%S = (x * x)%S;
  add_0_l   : forall x : F, (f0 + x)%S = x
}.

(** ** numpy arrays of numbers *)

Section Arrays.
Context {F : Type} `{Scalar F}.

#[export] Instance scalar_inhabited : Inhabited F := populate f0.

(** [np.zeros(n)]; the shapes [(n,)] and [(n,1)] are both a row of [n]
    numbers here. *)
Definition np_zeros (n : Z) : result (list F) :=
  if n <? 0 then Raise ValueError else Ok (replicate (Z.to_nat n) f0).

(** [np.zeros((rows,cols))] for a literal, non-negative [rows]. *)
Definition np_zeros2 (rows : nat) (cols : Z) : result (list (list F)) :=
  let* row := np_zeros cols in Ok (replicate rows row).

(** Position of subscript [i] in an array of [len] entries: a negative
    subscript counts from the end, anything else out of range raises. *)
Definition np_index (len : nat) (i : Z) : result nat :=
  if (0 <=? i) && (i <? Z.of_nat len) then Ok (Z.to_nat i)
  else if (- Z.of_nat len <=? i) && (i <? 0)
       then Ok (Z.to_nat (Z.of_nat len + i))
       else Raise IndexError.

(** [a[i]] *)
Definition np_get {E : Type} `{Inhabited E} (a : list E) (i : Z) : result E :=
  let* n := np_index (length a) i in Ok (a !!! n).

(** [a[i] = v] *)
Definition np_set {E : Type} (a : list E) (i : Z) (v : E) : result (list E) :=
  let* n := np_index (length a) i in Ok (<[n := v]> a).

(** [g[i,j] = v] *)
Definition np_set2 (g : list (list F)) (i j : Z) (v : F)
    : result (list (list F)) :=
  let* row := np_get g i in
  let* row' := np_set row j v in
  np_set g i row'.

(** [np.sum(a)], accumulated from [0.0] in index order.  numpy starts
    from the first entry and adds rows of eight entries or more in blocks,
    pairwise: in binary64 its result can differ from this fold in the last
    bit.  In exact arithmetic every order of the additions gives the same
    number, and the statements about sums are made there. *)
Definition np_sum (a : list F) : F := foldl fadd f0 a.

(** [a[0:n]] *)
Definition py_slice0 {E : Type} (a : list E) (n : Z) : list E :=
  take (Z.to_nat (if n <? 0 then Z.of_nat (length a) + n else n)) a.

End Arrays.

(** ** The model object [sys]

    What [kf] and [rts] read of the state-space model: the parameter array,
    the observations, the inputs, the length [T] (a field of its own, not
    [len(y)]), the number of inferred parameters and the derivative of the
    log-prior. *)

Record system (F : Type) : Type := {
  par           : list F;
  y             : list F;
  u             : list F;
  T             : Z;
  nParInference : Z;
  dprior1       : Z -> F
}.
Arguments par {F} _.
Arguments y {F} _.
Arguments u {F} _.
Arguments T {F} _.
Arguments nParInference {F} _.
Arguments dprior1 {F} _ _.

(** ** The Kalman filter, [kalmanMethods.kf] *)

(** The arrays [kf] allocates and fills.  [S_] is the local [S] and [llt]
    the local [ll]; [S_] and [yhatp] stay local to [kf], the others are
    stored on [self]. *)
Record kf_arrays (F : Type) : Type := {
  S_    : list F;
  K     : list F;
  xhatp : list F;
  xhatf : list F;
  yhatp : list F;
  Pf    : list F;
  Pp    : list F;
  llt   : list F
}.
Arguments S_ {F} _.
Arguments K {F} _.
Arguments xhatp {F} _.
Arguments xhatf {F} _.
Arguments yhatp {F} _.
Arguments Pf {F} _.
Arguments Pp {F} _.
Arguments llt {F} _.

(** The attributes of [self] after [kf]; [R_] is [self.R]. *)
Record kf_self (F : Type) : Type := {
  xo : F;
  Po : F;
  m  : F;
  A  : F;
  C  : F;
  Q  : F;
  q  : F;
  R_ : F;
  r  : F;
  ll : F;
  kf_vars :> kf_arrays F
}.
Arguments xo {F} _.
Arguments Po {F} _.
Arguments m {F} _.
Arguments A {F} _.
Arguments C {F} _.
Arguments Q {F} _.
Arguments q {F} _.
Arguments R_ {F} _.
Arguments r {F} _.
Arguments ll {F} _.
Arguments kf_vars {F} _.

Section Filter.
Context {F : Type} `{Scalar F}.
Local Open Scope scalar_scope.

(** One turn of the main loop of [kf], at time [t]. *)
Definition kf_step (sys : system F) (m A C Q R : F)
    (v : kf_arrays F) (t : Z) : result (kf_arrays F) :=
  (* S[tt] = self.C * Pp[tt] * self.C + self.R *)
  let* Pp_t := np_get (Pp v) t in
  let* S' := np_set (S_ v) t (C * Pp_t * C + R) in
  (* K[tt] = Pp[tt] * self.C / S[tt] *)
  let* S_t := np_get S' t in
  let* K' := np_set (K v) t (Pp_t * C / S_t) in
  (* yhatp[tt] = self.C * xhatp[tt] *)
  let* xhatp_t := np_get (xhatp v) t in
  let* yhatp' := np_set (yhatp v) t (C * xhatp_t) in
  (* xhatf[tt] = xhatp[tt] + K[tt] * ( sys.y[tt] - yhatp[tt] ) *)
  let* K_t := np_get K' t in
  let* y_t := np_get (y sys) t in
  let* yhatp_t := np_get yhatp' t in
  let* xhatf' := np_set (xhatf v) t (xhatp_t + K_t * (y_t - yhatp_t)) in
  (* xhatp[tt+1] = self.A * xhatf[tt] + self.m * ( 1.0 - self.A ) + sys.u[tt] *)
  let* xhatf_t := np_get xhatf' t in
  let* u_t := np_get (u sys) t in
  let* xhatp' := np_set (xhatp v) (t + 1)%Z
      (A * xhatf_t + m * (f1 - A) + u_t) in
  (* Pf[tt] = Pp[tt] - K[tt] * S[tt] * K[tt] *)
  let* Pf' := np_set (Pf v) t (Pp_t - K_t * S_t * K_t) in
  (* Pp[tt+1] = self.A * Pf[tt] * self.A + self.Q *)
  let* Pf_t := np_get Pf' t in
  let* Pp' := np_set (Pp v) (t + 1)%Z (A * Pf_t * A + Q) in
  (* ll[tt] = -0.5 * np.log(2.0 * np.pi * S[tt])
              - 0.5 * ( sys.y[tt] - yhatp[tt] ) * ( sys.y[tt] - yhatp[tt] ) / S[tt] *)
  let* llt' := np_set (llt v) t
      (- fhalf * fln (f2 * fpi * S_t)
       - fhalf * (y_t - yhatp_t) * (y_t - yhatp_t) / S_t) in
  Ok {| S_ := S'; K := K'; xhatp := xhatp'; xhatf := xhatf';
        yhatp := yhatp'; Pf := Pf'; Pp := Pp'; llt := llt' |}.

Definition kf (sys : system F) : result (kf_self F) :=
  let xo := f0 in
  let Po := f1em5 in
  let* S := np_zeros (T sys) in
  let* K := np_zeros (T sys) in
  let* xhatp := np_zeros (T sys + 1)%Z in
  let* xhatf := np_zeros (T sys) in
  let* yhatp := np_zeros (T sys) in
  let* Pf := np_zeros (T sys) in
  let* Pp := np_zeros (T sys + 1)%Z in
  let* ll := np_zeros (T sys) in
  let* m := np_get (par sys) 0 in
  let* A := np_get (par sys) 1 in
  let C := f1 in
  let* par2 := np_get (par sys) 2 in
  let Q := par2 ** 2 in
  let* q := np_get (par sys) 2 in
  let* par3 := np_get (par sys) 3 in
  let R := par3 ** 2 in
  let* r := np_get (par sys) 3 in
  let* Pp := np_set Pp 0 Po in
  let* xhatp := np_set xhatp 0 xo in
  let* v := for_each (kf_step sys m A C Q R) (py_range 0 (T sys))
              {| S_ := S; K := K; xhatp := xhatp; xhatf := xhatf;
                 yhatp := yhatp; Pf := Pf; Pp := Pp; llt := ll |} in
  Ok {| xo := xo; Po := Po; m := m; A := A; C := C; Q := Q; q := q;
        R_ := R; r := r; ll := np_sum (llt v); kf_vars := v |}.

End Filter.

(** ** The RTS smoother, [kalmanMethods.rts] *)

(** The locals of [rts].  [gradient_] is the local 4-by-T matrix
    [gradient], empty until it is allocated after the lag-one loop;
    [gradient0] is bound only once the gradient loop has run a turn.  [Ps]
    and [xhats] are stored on [self] at the end. *)
Record rts_arrays (F : Type) : Type := {
  J         : list F;
  M         : list F;
  xhats     : list F;
  Ps        : list F;
  gradient_ : list (list F);
  gradient0 : option (list F)
}.
Arguments J {F} _.
Arguments M {F} _.
Arguments xhats {F} _.
Arguments Ps {F} _.
Arguments gradient_ {F} _.
Arguments gradient0 {F} _.

(** [self] after [rts]: what [kf] left there, the locals, and the two
    gradient attributes. *)
Record rts_self (F : Type) : Type := {
  rts_kf    :> kf_self F;
  rts_vars  :> rts_arrays F;
  gradient  : list F;
  gradient1 : list (list F)
}.
Arguments rts_kf {F} _.
Arguments rts_vars {F} _.
Arguments gradient {F} _.
Arguments gradient1 {F} _.

Section Smoother.
Context {F : Type} `{Scalar F}.
Local Open Scope scalar_scope.

(** The preliminary filter run, the allocation of the locals and the two
    boundary assignments: everything before the backward loop. *)
Definition rts_init (sys : system F) : result (kf_self F * rts_arrays F) :=
  let* self := kf sys in
  let* J := np_zeros (T sys) in
  let* M := np_zeros (T sys) in
  let* xhats := np_zeros (T sys) in
  let* Ps := np_zeros (T sys) in
  (* Ps[sys.T-1] = self.Pf[sys.T-1] *)
  let* Pf_last := np_get (Pf self) (T sys - 1)%Z in
  let* Ps := np_set Ps (T sys - 1)%Z Pf_last in
  (* xhats[sys.T-1] = self.xhatf[sys.T-1] *)
  let* xhatf_last := np_get (xhatf self) (T sys - 1)%Z in
  let* xhats := np_set xhats (T sys - 1)%Z xhatf_last in
  Ok (self, {| J := J; M := M; xhats := xhats; Ps := Ps;
               gradient_ := []; gradient0 := None |}).

(** One turn of the backward loop. *)
Definition rts_backward_step (self : kf_self F)
    (v : rts_arrays F) (t : Z) : result (rts_arrays F) :=
  (* J[tt] = self.Pf[tt] * self.A / self.Pp[tt+1] *)
  let* Pf_t := np_get (Pf self) t in
  let* Pp_t1 := np_get (Pp self) (t + 1)%Z in
  let* J' := np_set (J v) t (Pf_t * A self / Pp_t1) in
  (* xhats[tt] = self.xhatf[tt] + J[tt] * ( xhats[tt+1] - self.xhatp[tt+1] ) *)
  let* xhatf_t := np_get (xhatf self) t in
  let* J_t := np_get J' t in
  let* xhats_t1 := np_get (xhats v) (t + 1)%Z in
  let* xhatp_t1 := np_get (xhatp self) (t + 1)%Z in
  let* xhats' := np_set (xhats v) t (xhatf_t + J_t * (xhats_t1 - xhatp_t1)) in
  (* Ps[tt] = self.Pf[tt] + J[tt] * ( Ps[tt+1] - self.Pp[tt+1] ) * J[tt] *)
  let* Ps_t1 := np_get (Ps v) (t + 1)%Z in
  let* Ps' := np_set (Ps v) t (Pf_t + J_t * (Ps_t1 - Pp_t1) * J_t) in
  Ok {| J := J'; M := M v; xhats := xhats'; Ps := Ps';
        gradient_ := gradient_ v; gradient0 := gradient0 v |}.

(** [M[sys.T-1] = ( 1 - self.K[sys.T-1] ) * self.A * self.Pf[sys.T-1]] *)
Definition rts_lag_last (sys : system F) (self : kf_self F)
    (v : rts_arrays F) : result (rts_arrays F) :=
  let* K_last := np_get (K self) (T sys - 1)%Z in
  let* Pf_last := np_get (Pf self) (T sys - 1)%Z in
  let* M' := np_set (M v) (T sys - 1)%Z ((f1 - K_last) * A self * Pf_last) in
  Ok {| J := J v; M := M'; xhats := xhats v; Ps := Ps v;
        gradient_ := gradient_ v; gradient0 := gradient0 v |}.

(** One turn of the loop of the lag-one covariances. *)
Definition rts_lag_step (self : kf_self F)
    (v : rts_arrays F) (t : Z) : result (rts_arrays F) :=
  (* M[tt] = self.Pf[tt] * J[tt-1]
             + J[tt-1] * ( M[tt+1] - self.A * self.Pf[tt] ) * J[tt-1] *)
  let* Pf_t := np_get (Pf self) t in
  let* J_t0 := np_get (J v) (t - 1)%Z in
  let* M_t1 := np_get (M v) (t + 1)%Z in
  let* M' := np_set (M v) t
      (Pf_t * J_t0 + J_t0 * (M_t1 - A self * Pf_t) * J_t0) in
  Ok {| J := J v; M := M'; xhats := xhats v; Ps := Ps v;
        gradient_ := gradient_ v; gradient0 := gradient0 v |}.

(** One turn of the gradient loop. *)
Definition rts_gradient_step (sys : system F) (self : kf_self F)
    (v : rts_arrays F) (t : Z) : result (rts_arrays F) :=
  let* xhats_t := np_get (xhats v) t in
  let* xhats_t0 := np_get (xhats v) (t - 1)%Z in
  (* kappa = xhats[tt] * sys.y[tt] *)
  let* y_t := np_get (y sys) t in
  let kappa := xhats_t * y_t in
  (* eta = xhats[tt] * xhats[tt] + Ps[tt] *)
  let* Ps_t := np_get (Ps v) t in
  let eta := xhats_t * xhats_t + Ps_t in
  (* eta1 = xhats[tt-1] * xhats[tt-1] + Ps[tt-1] *)
  let* Ps_t0 := np_get (Ps v) (t - 1)%Z in
  let eta1 := xhats_t0 * xhats_t0 + Ps_t0 in
  (* psi = xhats[tt-1] * xhats[tt] + M[tt] *)
  let* M_t := np_get (M v) t in
  let psi := xhats_t0 * xhats_t + M_t in
  (* px = xhats[tt] - self.m - self.A * ( xhats[tt-1] - self.m ) + sys.u[tt] *)
  let* u_t := np_get (u sys) t in
  let px := xhats_t - m self - A self * (xhats_t0 - m self) + u_t in
  let Q1 := q self ** (-1) in
  let Q2 := q self ** (-2) in
  let Q3 := q self ** (-3) in
  let* g := np_set2 (gradient_ v) 0 t (Q2 * px * (f1 - A self)) in
  let* g := np_set2 g 1 t
      (Q2 * (psi - m self * xhats_t0 * (f1 - A self) - A self * eta1)
       - Q2 * m self * px) in
  let* g := np_set2 g 2 t
      (Q3 * (eta - f2 * A self * psi + A self ** 2 * eta1
             - f2 * (xhats_t - A self * xhats_t0) * m self * (f1 - A self)
             + m self ** 2 * (f1 - A self) ** 2)
       - Q1) in
  let* g := np_set2 g 3 t
      (r self ** (-3) * (y_t ** 2 - f2 * kappa + eta) - r self ** (-1)) in
  (* gradient0 = np.sum(gradient[0:sys.nParInference,:], axis=1) *)
  Ok {| J := J v; M := M v; xhats := xhats v; Ps := Ps v;
        gradient_ := g;
        gradient0 := Some (np_sum <$> py_slice0 g (nParInference sys)) |}.

(** One turn of the loop that adds the log-prior derivatives. *)
Definition rts_prior_step (sys : system F)
    (v : rts_arrays F) (nn : Z) : result (rts_arrays F) :=
  (* gradient0[nn] = sys.dprior1(nn) + gradient0[nn] *)
  let d := dprior1 sys nn in
  match gradient0 v with
  | None => Raise UnboundLocalError
  | Some g0 =>
      let* g0_nn := np_get g0 nn in
      let* g0' := np_set g0 nn (d + g0_nn) in
      Ok {| J := J v; M := M v; xhats := xhats v; Ps := Ps v;
            gradient_ := gradient_ v; gradient0 := Some g0' |}
  end.

(** The output attributes. *)
Definition rts_output (sys : system F) (self : kf_self F)
    (v : rts_arrays F) : result (rts_self F) :=
  (* self.gradient = gradient0[0:sys.nParInference] *)
  match gradient0 v with
  | None => Raise UnboundLocalError
  | Some g0 =>
      Ok {| rts_kf := self; rts_vars := v;
            gradient := py_slice0 g0 (nParInference sys);
            (* self.gradient1 = gradient[0:sys.nParInference,:] *)
            gradient1 := py_slice0 (gradient_ v) (nParInference sys) |}
  end.

(** The backward loop. *)
Definition rts_backward (sys : system F) (self : kf_self F)
    (v : rts_arrays F) : result (rts_arrays F) :=
  for_each (rts_backward_step self) (py_range_down (T sys - 2) 0) v.

(** The lag-one covariances. *)
Definition rts_lag (sys : system F) (self : kf_self F)
    (v : rts_arrays F) : result (rts_arrays F) :=
  let* v := rts_lag_last sys self v in
  for_each (rts_lag_step self) (py_range_down (T sys - 2) 0) v.

(** The gradient loop, after [gradient = np.zeros((4,sys.T))]. *)
Definition rts_gradient (sys : system F) (self : kf_self F)
    (v : rts_arrays F) : result (rts_arrays F) :=
  let* g := np_zeros2 4 (T sys) in
  for_each (rts_gradient_step sys self) (py_range 1 (T sys))
    {| J := J v; M := M v; xhats := xhats v; Ps := Ps v;
       gradient_ := g; gradient0 := gradient0 v |}.

(** The loop over the log-prior derivatives. *)
Definition rts_prior (sys : system F) (v : rts_arrays F)
    : result (rts_arrays F) :=
  for_each (rts_prior_step sys) (py_range 0 (nParInference sys)) v.

Definition rts (sys : system F) : result (rts_self F) :=
  let* sv := rts_init sys in
  let* v := rts_backward sys sv.1 sv.2 in
  let* v := rts_lag sys sv.1 v in
  let* v := rts_gradient sys sv.1 v in
  let* v := rts_prior sys v in
  rts_output sys sv.1 v.

End Smoother.

(** ** The model object, [models/lgss_4parameters.py] and
    [models/models_helpers.py]

    The methods of the class [ssm] that compute without drawing random
    numbers and without the distributions of [models_dists]: the parameter
    store, the hard prior and the gradient of the complete-data
    log-likelihood.  [self] is read through the record [system], with
    [nParInference] set to an integer; an [ssm] adds the attribute [nPar]
    that the parameter store reads of its argument [sys]. *)

Record ssm (F : Type) : Type := {
  ssm_sys :> system F;
  nPar    : Z
}.
Arguments ssm_sys {F} _.
Arguments nPar {F} _.

(** The comparisons of [priorUniform]. *)
Class Compare (F : Type) : Type := {
  fabs : F -> F;            (* np.abs *)
  flt  : F -> F -> bool;    (* x < y *)
  fgt  : F -> F -> bool     (* x > y *)
}.

Section Model.
Context {F : Type} `{Scalar F}.
Local Open Scope scalar_scope.

(** [template_storeParameters(model, newParm, sys)]; the result is the new
    [model.par], the one attribute it assigns. *)
Definition template_storeParameters (model : system F) (newParm : list F)
    (sys : ssm F) : result (list F) :=
  (* model.par = np.zeros(sys.nPar) *)
  let* mpar := np_zeros (nPar sys) in
  (* for kk in range(0,model.nParInference):
         model.par[kk] = np.array(newParm[kk], copy=True) *)
  let* mpar := for_each
      (fun mpar kk => let* x := np_get newParm kk in np_set mpar kk x)
      (py_range 0 (nParInference model)) mpar in
  (* for kk in range(model.nParInference,sys.nPar):
         model.par[kk] = sys.par[kk] *)
  for_each
    (fun mpar kk => let* x := np_get (par sys) kk in np_set mpar kk x)
    (py_range (nParInference model) (nPar sys)) mpar.

(** [template_returnParameters(model)] *)
Definition template_returnParameters (model : system F) : result (list F) :=
  (* out = np.zeros(model.nParInference) *)
  let* out := np_zeros (nParInference model) in
  (* for kk in range(0,model.nParInference): out[kk] = model.par[kk] *)
  for_each
    (fun out kk => let* x := np_get (par model) kk in np_set out kk x)
    (py_range 0 (nParInference model)) out.

(** [ssm.priorUniform(self)] *)
Definition priorUniform `{Compare F} (self : system F) : result F :=
  let out := f1 in
  (* if( np.abs( self.par[1] ) > 1.0 ): out = 0.0 *)
  let* par1 := np_get (par self) 1 in
  let out := if fgt (fabs par1) f1 then f0 else out in
  (* if( self.par[2] < 0.0 ): out = 0.0 *)
  let* par2 := np_get (par self) 2 in
  let out := if flt par2 f0 then f0 else out in
  (* if( self.par[3] < 0.0 ): out = 0.0 *)
  let* par3 := np_get (par self) 3 in
  let out := if flt par3 f0 then f0 else out in
  Ok out.

End Model.

(** *** [ssm.Dparm]

    The arguments [xtt] and [xt] are one-dimensional arrays, the particles
    at two successive times; [st] and [at] are not read. *)

Section ModelGradient.
Context {F : Type} `{Scalar F}.
Local Open Scope scalar_scope.

(** [a op b] for two one-dimensional arrays: entry by entry when the
    lengths agree, an array of one entry is stretched, anything else does
    not broadcast. *)
Definition np_broadcast (op : F -> F -> F) (a b : list F) : result (list F) :=
  if (length a =? length b)%nat then Ok (zip_with op a b)
  else if (length a =? 1)%nat then Ok (op (a !!! 0%nat) <$> b)
  else if (length b =? 1)%nat then Ok ((fun x => op x (b !!! 0%nat)) <$> a)
  else Raise ValueError.

(** [g[:,j] = v] for a matrix [g] of [cols] columns and an array [v]. *)
Definition np_set_column (cols : Z) (g : list (list F)) (j : Z)
    (v : list F) : result (list (list F)) :=
  let* n := np_index (Z.to_nat cols) j in
  if (length v =? length g)%nat
  then Ok (zip_with (fun row x => <[n := x]> row) g v)
  else if (length v =? 1)%nat
       then Ok ((fun row => <[n := v !!! 0%nat]> row) <$> g)
       else Raise ValueError.

(** [g[:,j] = x] for a number [x]. *)
Definition np_fill_column (cols : Z) (g : list (list F)) (j : Z)
    (x : F) : result (list (list F)) :=
  let* n := np_index (Z.to_nat cols) j in
  Ok ((fun row => <[n := x]> row) <$> g).

Definition Dparm (self : system F) (xtt xt : list F) (tt : Z)
    : result (list (list F)) :=
  (* nOut = len(xtt) *)
  let nOut := length xtt in
  (* gradient = np.zeros(( nOut, self.nParInference )) *)
  let* gradient := np_zeros2 nOut (nParInference self) in
  (* Q1 = self.par[2]**(-1); Q2 = self.par[2]**(-2); Q3 = self.par[2]**(-3) *)
  let* par2 := np_get (par self) 2 in
  let Q1 := par2 ** (-1) in
  let* par2 := np_get (par self) 2 in
  let Q2 := par2 ** (-2) in
  let* par2 := np_get (par self) 2 in
  let Q3 := par2 ** (-3) in
  (* R1 = self.par[3]**(-1); R3 = self.par[3]**(-3) *)
  let* par3 := np_get (par self) 3 in
  let R1 := par3 ** (-1) in
  let* par3 := np_get (par self) 3 in
  let R3 := par3 ** (-3) in
  (* px = xtt - self.par[0] - self.par[1] * ( xt - self.par[0] )
          - self.u[tt-1] *)
  let* par0 := np_get (par self) 0 in
  let left := (fun x => x - par0) <$> xtt in
  let* par1 := np_get (par self) 1 in
  let* par0 := np_get (par self) 0 in
  let right := (fun x => par1 * (x - par0)) <$> xt in
  let* px := np_broadcast fsub left right in
  let* u_t := np_get (u self) (tt - 1)%Z in
  let px := (fun x => x - u_t) <$> px in
  (* py = self.y[tt] - xt *)
  let* y_t := np_get (y self) tt in
  let py := (fun x => y_t - x) <$> xt in
  (* for v1 in range(0,self.nParInference): *)
  for_each
    (fun gradient v1 =>
       if v1 =? 0 then
         (* gradient[:,v1] = ( 1.0 - self.par[1] ) * Q2 * px *)
         let* par1 := np_get (par self) 1 in
         np_set_column (nParInference self) gradient v1
           ((fun p => (f1 - par1) * Q2 * p) <$> px)
       else if v1 =? 1 then
         (* gradient[:,v1] = ( xt - self.par[0] ) * Q2 * px *)
         let* par0 := np_get (par self) 0 in
         let* v := np_broadcast fmul ((fun x => (x - par0) * Q2) <$> xt) px in
         np_set_column (nParInference self) gradient v1 v
       else if v1 =? 2 then
         (* gradient[:,v1] = Q3 * px**2 - Q1 *)
         np_set_column (nParInference self) gradient v1
           ((fun p => Q3 * p ** 2 - Q1) <$> px)
       else if v1 =? 3 then
         (* gradient[:,v1] = R3 * py**2 - R1 *)
         np_set_column (nParInference self) gradient v1
           ((fun p => R3 * p ** 2 - R1) <$> py)
       else
         (* gradient[:,v1] = 0.0 *)
         np_fill_column (nParInference self) gradient v1 f0)
    (py_range 0 (nParInference self)) gradient.

End ModelGradient.

(** ** Two readings of the numbers *)

(** The real numbers: exact arithmetic.  Division is total in [R]
    ([x / 0] is [x * / 0]), so a division by zero is not an event of this
    reading; and nothing rounds, overflows or underflows, so the square of
    a number that is not zero is positive, which binary64 does not grant.
    A statement over [R] is a statement in exact arithmetic. *)
#[export] Instance real_scalar : Scalar R := {|
  f0    := 0%R;
  fhalf := (1 / 2)%R;
  f1    := 1%R;
  f2    := 2%R;
  f1em5 := (1 / 100000)%R;
  fpi   := PI;
  fadd  := Rplus;
  fsub  := Rminus;
  fmul  := Rmult;
  fdiv  := Rdiv;
  fneg  := Ropp;
  fpow  := powerRZ;
  fln   := ln
|}.

(** Integer powers of a binary64 number by repeated multiplication, a
    negative power as the reciprocal.  At zero this is what the C library
    gives: [0.0 ** (-n)] is infinite. *)
Definition float_pow (x : float) (n : Z) : float :=
  let p := Pos.iter (PrimFloat.mul x) 1%float in
  match n with
  | Z0 => 1%float
  | Zpos k => p k
  | Zneg k => PrimFloat.div 1%float (p k)
  end.

(** binary64, the numbers of numpy.  [np.log] has no counterpart among the
    primitive operations and stays a parameter. *)
Definition binary64 (log : float -> float) : Scalar float := {|
  f0    := 0%float;
  fhalf := 0.5%float;
  f1    := 1%float;
  f2    := 2%float;
  f1em5 := 0x1.4f8b588e368f1p-17%float;
  fpi   := 0x1.921fb54442d18p+1%float;
  fadd  := PrimFloat.add;
  fsub  := PrimFloat.sub;
  fmul  := PrimFloat.mul;
  fdiv  := PrimFloat.div;
  fneg  := PrimFloat.opp;
  fpow  := float_pow;
  fln   := log
|}.


(** The real numbers compute exactly. *)
#[export] Instance real_exact : ExactArith R.
Proof.
  split; intros; unfold fmul, fadd, fpow, f0, f1, real_scalar.
  - apply Rmult_1_l.
  - apply Rmult_1_r.
  - apply Rmult_assoc.
  - unfold powerRZ. change (Pos.to_nat 2) with 2%nat. ring.
  - apply Rplus_0_l.
Qed.

(** ** Model objects to run on *)

(** The scenario of the specification: [par = [0.0, 0.9, 0.5, 0.5]], five
    observations, no input, all four parameters inferred, a flat prior. *)
Definition scenario : system R := {|
  par := [0; 9 / 10; 1 / 2; 1 / 2]%R;
  y := [1 / 10; - (2 / 10); 3 / 10; 5 / 100; - (1 / 10)]%R;
  u := [0; 0; 0; 0; 0]%R;
  T := 5;
  nParInference := 4;
  dprior1 := fun _ => 0%R
|}.

(** The same scenario in binary64. *)
Definition scenario64 : system float := {|
  par := [0; 0x1.ccccccccccccdp-1; 0.5; 0.5]%float;
  y := [0x1.999999999999ap-4; -0x1.999999999999ap-3; 0x1.3333333333333p-2;
        0x1.999999999999ap-5; -0x1.999999999999ap-4]%float;
  u := [0; 0; 0; 0; 0]%float;
  T := 5;
  nParInference := 4;
  dprior1 := fun _ => 0%float
|}.

(** The shortest run the smoother goes through: two time steps. *)
Definition two_steps : system R := {|
  par := [0; 9 / 10; 1 / 2; 1 / 2]%R;
  y := [1 / 10; - (2 / 10)]%R;
  u := [0; 0]%R;
  T := 2;
  nParInference := 4;
  dprior1 := fun _ => 0%R
|}.

(** The scenario with [sigma_v = 0]. *)
Definition degenerate : system R := {|
  par := [0; 9 / 10; 0; 1 / 2]%R;
  y := [1 / 10; - (2 / 10); 3 / 10; 5 / 100; - (1 / 10)]%R;
  u := [0; 0; 0; 0; 0]%R;
  T := 5;
  nParInference := 4;
  dprior1 := fun _ => 0%R
|}.

Definition degenerate64 : system float := {|
  par := [0; 0x1.ccccccccccccdp-1; 0; 0.5]%float;
  y := [0x1.999999999999ap-4; -0x1.999999999999ap-3; 0x1.3333333333333p-2;
        0x1.999999999999ap-5; -0x1.999999999999ap-4]%float;
  u := [0; 0; 0; 0; 0]%float;
  T := 5;
  nParInference := 4;
  dprior1 := fun _ => 0%float
|}.

(** The scenario with no parameter to infer. *)
Definition nothing_inferred : system R := {|
  par := [0; 9 / 10; 1 / 2; 1 / 2]%R;
  y := [1 / 10; - (2 / 10); 3 / 10; 5 / 100; - (1 / 10)]%R;
  u := [0; 0; 0; 0; 0]%R;
  T := 5;
  nParInference := 0;
  dprior1 := fun _ => 0%R
|}.
(** ** The comparisons, and more model objects *)

(** The comparisons of the real numbers. *)
#[export] Instance real_compare : Compare R := {|
  fabs := Rabs;
  flt x y := if Rlt_dec x y then true else false;
  fgt x y := if Rgt_dec x y then true else false
|}.

(** The comparisons of binary64: a comparison with a NaN is false. *)
#[export] Instance float_compare : Compare float := {|
  fabs := PrimFloat.abs;
  flt := PrimFloat.ltb;
  fgt x y := PrimFloat.ltb y x
|}.

(** The scenario with one more parameter, observation and input than the
    filter and the smoother read. *)
Definition scenario_longer : system R := {|
  par := [0; 9 / 10; 1 / 2; 1 / 2; 7]%R;
  y := [1 / 10; - (2 / 10); 3 / 10; 5 / 100; - (1 / 10); 8]%R;
  u := [0; 0; 0; 0; 0; 9]%R;
  T := 5;
  nParInference := 4;
  dprior1 := fun _ => 0%R
|}.

(** Another mean, other observations, inputs that are not zero and three
    time steps, with the coefficient and the noise scales of the
    scenario. *)
Definition shifted : system R := {|
  par := [1; 9 / 10; 1 / 2; 1 / 2]%R;
  y := [2; 1; 3]%R;
  u := [1 / 10; 0; - (1 / 10)]%R;
  T := 3;
  nParInference := 4;
  dprior1 := fun _ => 0%R
|}.

(** The scenario with [sigma_v = sigma_e = 0]. *)
Definition noiseless : system R := {|
  par := [0; 9 / 10; 0; 0]%R;
  y := [1 / 10; - (2 / 10); 3 / 10; 5 / 100; - (1 / 10)]%R;
  u := [0; 0; 0; 0; 0]%R;
  T := 5;
  nParInference := 4;
  dprior1 := fun _ => 0%R
|}.

(** The scenario as the system that holds the fixed parameters. *)
Definition scenario_ssm : ssm R := {| ssm_sys := scenario; nPar := 4 |}.

(** The scenario with two parameters to infer, before and after the
    candidate [[0.2, 0.5]] is stored. *)
Definition two_inferred : system R := {|
  par := [0; 9 / 10; 1 / 2; 1 / 2]%R;
  y := [1 / 10; - (2 / 10); 3 / 10; 5 / 100; - (1 / 10)]%R;
  u := [0; 0; 0; 0; 0]%R;
  T := 5;
  nParInference := 2;
  dprior1 := fun _ => 0%R
|}.

Definition two_inferred_stored : system R := {|
  par := [1 / 5; 1 / 2; 1 / 2; 1 / 2]%R;
  y := [1 / 10; - (2 / 10); 3 / 10; 5 / 100; - (1 / 10)]%R;
  u := [0; 0; 0; 0; 0]%R;
  T := 5;
  nParInference := 2;
  dprior1 := fun _ => 0%R
|}.

(** The scenario with five parameters to infer, one more than there are. *)
Definition five_inferred : system R := {|
  par := [0; 9 / 10; 1 / 2; 1 / 2]%R;
  y := [1 / 10; - (2 / 10); 3 / 10; 5 / 100; - (1 / 10)]%R;
  u := [0; 0; 0; 0; 0]%R;
  T := 5;
  nParInference := 5;
  dprior1 := fun _ => 0%R
|}.

(** Noise scales too small for their squares: [par = [0, 0.9, 1e-200,
    1e-200]] in binary64, two time steps. *)
Definition underflow64 : system float := {|
  par := [0; 0x1.ccccccccccccdp-1; 0x1.87e92154ef7acp-665;
          0x1.87e92154ef7acp-665]%float;
  y := [0x1.999999999999ap-4; -0x1.999999999999ap-3]%float;
  u := [0; 0]%float;
  T := 2;
  nParInference := 4;
  dprior1 := fun _ => 0%float
|}.

(** [np.log] is not among the primitive operations of binary64.  This
    stand-in, which answers NaN, is for closed runs whose statement reads
    no logarithm. *)
Definition log_unread : float -> float := fun _ => nan.

(** ** Statements about runs *)

(** [c] returns, and what it returns satisfies [P]. *)
Definition returns {X : Type} (c : result X) (P : X -> Prop) : Prop :=
  exists x, c = Ok x /\ P x.

(** [c] raises [e]. *)
Definition raises {X : Type} (c : result X) (e : exn) : Prop := c = Raise e.

(** Entry [t] of an array that has one; [t] is a time index of the program. *)
Definition entry {F : Type} `{Scalar F} (a : list F) (t : Z) : F :=
  a !!! Z.to_nat t.

Notation "a .[ t ]" := (entry a t)
  (at level 1, left associativity, format "a .[ t ]").

(** The sum of [f t] over the times [t = lo .. lo+n-1], as the
    specification writes a sum over [t]: no time gives 0.0, and a further
    time adds its term. *)
Fixpoint sum_terms {F : Type} `{Scalar F} (f : Z -> F) (lo : Z) (n : nat)
    : F :=
  match n with
  | O => f0
  | Datatypes.S k => fadd (sum_terms f lo k) (f (lo + Z.of_nat k))
  end.

(** The sum of [f t] over [t = lo .. hi-1]. *)
Definition sum_over {F : Type} `{Scalar F} (f : Z -> F) (lo hi : Z) : F :=
  sum_terms f lo (Z.to_nat (hi - lo)).

Section FilterStatements.
Context {F : Type} `{Scalar F}.
Local Open Scope scalar_scope.

(** The arrays of the filter have the shapes they were allocated with. *)
Record kf_shapes (sys : system F) (v : kf_arrays F) : Prop := {
  shape_S     : length (S_ v) = Z.to_nat (T sys);
  shape_K     : length (K v) = Z.to_nat (T sys);
  shape_xhatp : length (xhatp v) = Datatypes.S (Z.to_nat (T sys));
  shape_xhatf : length (xhatf v) = Z.to_nat (T sys);
  shape_yhatp : length (yhatp v) = Z.to_nat (T sys);
  shape_Pf    : length (Pf v) = Z.to_nat (T sys);
  shape_Pp    : length (Pp v) = Datatypes.S (Z.to_nat (T sys));
  shape_llt   : length (llt v) = Z.to_nat (T sys)
}.

(** What turn [k] of the main loop has written, with the expressions of
    the source. *)
Record kf_written (sys : system F) (m A C Q R : F)
    (v : kf_arrays F) (k : nat) : Prop := {
  wr_S     : S_ v !!! k = C * Pp v !!! k * C + R;
  wr_K     : K v !!! k = Pp v !!! k * C / S_ v !!! k;
  wr_yhatp : yhatp v !!! k = C * xhatp v !!! k;
  wr_xhatf : xhatf v !!! k
             = xhatp v !!! k + K v !!! k * (y sys !!! k - yhatp v !!! k);
  wr_xhatp : xhatp v !!! Datatypes.S k
             = A * xhatf v !!! k + m * (f1 - A) + u sys !!! k;
  wr_Pf    : Pf v !!! k = Pp v !!! k - K v !!! k * S_ v !!! k * K v !!! k;
  wr_Pp    : Pp v !!! Datatypes.S k = A * Pf v !!! k * A + Q;
  wr_llt   : llt v !!! k
             = - fhalf * fln (f2 * fpi * S_ v !!! k)
               - fhalf * (y sys !!! k - yhatp v !!! k)
                 * (y sys !!! k - yhatp v !!! k) / S_ v !!! k
}.

(** The loop invariant of [kf] after [n] turns. *)
Record kf_inv (sys : system F) (m A C Q R : F)
    (n : nat) (v : kf_arrays F) : Prop := {
  inv_shapes : kf_shapes sys v;
  inv_Pp0    : Pp v !!! 0%nat = f1em5;
  inv_xhatp0 : xhatp v !!! 0%nat = f0;
  inv_turns  : forall k, (k < n)%nat -> kf_written sys m A C Q R v k
}.

(** The recursion of the filter at time [t], as the specification writes
    it. *)
Record kf_recursion (sys : system F) (o : kf_self F) (t : Z) : Prop := {
  rec_S     : (S_ o).[t] = (Pp o).[t] + R_ o;
  rec_K     : (K o).[t] = (Pp o).[t] / (S_ o).[t];
  rec_yhatp : (yhatp o).[t] = (xhatp o).[t];
  rec_xhatf : (xhatf o).[t]
              = (xhatp o).[t] + (K o).[t] * ((y sys).[t] - (yhatp o).[t]);
  rec_Pf    : (Pf o).[t] = (Pp o).[t] - (K o).[t] * (S_ o).[t] * (K o).[t];
  rec_xhatp : (xhatp o).[t + 1]
              = A o * (xhatf o).[t] + m o * (f1 - A o) + (u sys).[t];
  rec_Pp    : (Pp o).[t + 1] = A o * (Pf o).[t] * A o + Q o;
  rec_ll    : (llt o).[t]
              = - fhalf * fln (f2 * fpi * (S_ o).[t])
                - fhalf * ((y sys).[t] - (yhatp o).[t]) ** 2 / (S_ o).[t]
}.

(** The parameters as [kf] stores them on [self]. *)
Record kf_params (m0 A0 q0 r0 : F) (o : kf_self F) : Prop := {
  par_m : m o = m0;
  par_A : A o = A0;
  par_C : C o = f1;
  par_Q : Q o = q0 ** 2;
  par_q : q o = q0;
  par_R : R_ o = r0 ** 2;
  par_r : r o = r0;
  par_xo : xo o = f0;
  par_Po : Po o = f1em5
}.

(** The lengths of the filter's arrays against [T]. *)
Record length_consistent (sys : system F) (o : kf_self F) : Prop := {
  len_xhatp : Z.of_nat (length (xhatp o)) = (T sys + 1)%Z;
  len_Pp    : Z.of_nat (length (Pp o)) = (T sys + 1)%Z;
  len_xhatf : Z.of_nat (length (xhatf o)) = T sys;
  len_Pf    : Z.of_nat (length (Pf o)) = T sys;
  len_S     : Z.of_nat (length (S_ o)) = T sys;
  len_K     : Z.of_nat (length (K o)) = T sys;
  len_yhatp : Z.of_nat (length (yhatp o)) = T sys;
  len_llt   : Z.of_nat (length (llt o)) = T sys
}.

(** A model object the filter can run on: four parameters, a length that
    is not negative, and at least that many observations and inputs. *)
Record kf_ready (sys : system F) (m0 A0 q0 r0 : F) : Prop := {
  ready_par : par sys = [m0; A0; q0; r0];
  ready_T   : 0 <= T sys;
  ready_y   : T sys <= Z.of_nat (length (y sys));
  ready_u   : T sys <= Z.of_nat (length (u sys))
}.

End FilterStatements.


Section SmootherStatements.
Context {F : Type} `{Scalar F}.
Local Open Scope scalar_scope.

(** A model object the smoother runs through: one the filter can run on,
    with at least two time steps and at most four inferred parameters. *)
Record rts_ready (sys : system F) (m0 A0 q0 r0 : F) : Prop := {
  ready_kf   : kf_ready sys m0 A0 q0 r0;
  ready_T2   : 2 <= T sys;
  ready_nPar : nParInference sys <= 4
}.

(** What the backward loop writes at time [t]. *)
Record backward_written (self : kf_self F) (v : rts_arrays F) (t : Z)
    : Prop := {
  bw_J     : (J v).[t] = (Pf self).[t] * A self / (Pp self).[t + 1];
  bw_xhats : (xhats v).[t]
             = (xhatf self).[t]
               + (J v).[t] * ((xhats v).[t + 1] - (xhatp self).[t + 1]);
  bw_Ps    : (Ps v).[t]
             = (Pf self).[t]
               + (J v).[t] * ((Ps v).[t + 1] - (Pp self).[t + 1]) * (J v).[t]
}.

(** What the lag-one loop writes at time [t]. *)
Definition lag_written (self : kf_self F) (v : rts_arrays F) (t : Z) : Prop :=
  (M v).[t]
  = (Pf self).[t] * (J v).[t - 1]
    + (J v).[t - 1] * ((M v).[t + 1] - A self * (Pf self).[t]) * (J v).[t - 1].

(** The smoothed arrays once the backward loop and the lag-one loop are
    through: the boundary at [T-1], the recursions for [t = T-2 .. 1], and
    the entries at index 0, which no turn of the backward loop writes. *)
Record smoothed (sys : system F) (self : kf_self F) (v : rts_arrays F)
    : Prop := {
  sm_len_J      : length (J v) = Z.to_nat (T sys);
  sm_len_M      : length (M v) = Z.to_nat (T sys);
  sm_len_xhats  : length (xhats v) = Z.to_nat (T sys);
  sm_len_Ps     : length (Ps v) = Z.to_nat (T sys);
  sm_xhats_last : (xhats v).[T sys - 1] = (xhatf self).[T sys - 1];
  sm_Ps_last    : (Ps v).[T sys - 1] = (Pf self).[T sys - 1];
  sm_backward   : forall t, 1 <= t <= T sys - 2 -> backward_written self v t;
  sm_J_0        : (J v).[0] = f0;
  sm_xhats_0    : (xhats v).[0] = f0;
  sm_Ps_0       : (Ps v).[0] = f0;
  sm_M_last     : (M v).[T sys - 1]
                  = (f1 - (K self).[T sys - 1]) * A self * (Pf self).[T sys - 1];
  sm_lag        : forall t, 1 <= t <= T sys - 2 -> lag_written self v t
}.

(** The four entries the gradient loop writes in column [t], with the
    expressions of the source. *)
Definition column_written (sys : system F) (self : kf_self F)
    (v : rts_arrays F) (i : nat) (t : Z) : F :=
  let xhats_t := (xhats v).[t] in
  let xhats_t0 := (xhats v).[t - 1] in
  let y_t := (y sys).[t] in
  let kappa := xhats_t * y_t in
  let eta := xhats_t * xhats_t + (Ps v).[t] in
  let eta1 := xhats_t0 * xhats_t0 + (Ps v).[t - 1] in
  let psi := xhats_t0 * xhats_t + (M v).[t] in
  let px := xhats_t - m self - A self * (xhats_t0 - m self) + (u sys).[t] in
  let Q1 := q self ** (-1) in
  let Q2 := q self ** (-2) in
  let Q3 := q self ** (-3) in
  match i with
  | 0%nat => Q2 * px * (f1 - A self)
  | 1%nat => Q2 * (psi - m self * xhats_t0 * (f1 - A self) - A self * eta1)
             - Q2 * m self * px
  | 2%nat => Q3 * (eta - f2 * A self * psi + A self ** 2 * eta1
                   - f2 * (xhats_t - A self * xhats_t0) * m self * (f1 - A self)
                   + m self ** 2 * (f1 - A self) ** 2)
             - Q1
  | 3%nat => r self ** (-3) * (y_t ** 2 - f2 * kappa + eta) - r self ** (-1)
  | _ => f0
  end.

(** Row [i] of the local matrix [gradient] when the gradient loop is
    through: column 0 keeps its zero, column [t] holds what turn [t]
    wrote. *)
Definition row_written (sys : system F) (self : kf_self F)
    (v : rts_arrays F) (i : nat) : list F :=
  f0 :: (column_written sys self v i <$> py_range 1 (T sys)).

(** The sufficient statistics at time [t], as the specification writes
    them. *)
Definition kappa (sys : system F) (o : rts_self F) (t : Z) : F :=
  (xhats o).[t] * (y sys).[t].

Definition eta (o : rts_self F) (t : Z) : F :=
  (xhats o).[t] ** 2 + (Ps o).[t].

Definition eta1 (o : rts_self F) (t : Z) : F :=
  (xhats o).[t - 1] ** 2 + (Ps o).[t - 1].

Definition psi (o : rts_self F) (t : Z) : F :=
  (xhats o).[t - 1] * (xhats o).[t] + (M o).[t].

Definition px (sys : system F) (o : rts_self F) (t : Z) : F :=
  (xhats o).[t] - m o - A o * ((xhats o).[t - 1] - m o) + (u sys).[t].

(** The four partial scores at time [t], as the specification writes
    them. *)
Definition d_mu (sys : system F) (o : rts_self F) (t : Z) : F :=
  q o ** (-2) * px sys o t * (f1 - A o).

Definition d_phi (sys : system F) (o : rts_self F) (t : Z) : F :=
  q o ** (-2) * (psi o t - m o * (xhats o).[t - 1] * (f1 - A o) - A o * eta1 o t)
  - q o ** (-2) * m o * px sys o t.

Definition d_sigv (sys : system F) (o : rts_self F) (t : Z) : F :=
  q o ** (-3) * (eta o t - f2 * A o * psi o t + A o ** 2 * eta1 o t
                 - f2 * ((xhats o).[t] - A o * (xhats o).[t - 1]) * m o * (f1 - A o)
                 + m o ** 2 * (f1 - A o) ** 2)
  - q o ** (-1).

Definition d_sige (sys : system F) (o : rts_self F) (t : Z) : F :=
  r o ** (-3) * ((y sys).[t] ** 2 - f2 * kappa sys o t + eta o t) - r o ** (-1).

Definition score (sys : system F) (o : rts_self F) (i t : Z) : F :=
  match i with
  | 0 => d_mu sys o t
  | 1 => d_phi sys o t
  | 2 => d_sigv sys o t
  | 3 => d_sige sys o t
  | _ => f0
  end.

(** The gradient as the specification builds it: per-time scores for
    [t = 1 .. T-1], summed, cut to [nParInference] components, the prior
    derivative added; and the per-time matrix beside it. *)
Record gradient_built (sys : system F) (o : rts_self F) : Prop := {
  grad_len : Z.of_nat (length (gradient o)) = nParInference sys;
  grad_sum : forall i, 0 <= i < nParInference sys ->
             (gradient o).[i]
             = dprior1 sys i + sum_over (score sys o i) 1 (T sys);
  grad_raw : gradient1 o
             = (fun i => f0 :: (score sys o i <$> py_range 1 (T sys)))
               <$> py_range 0 (nParInference sys)
}.

(** The backward pass as the specification writes it. *)
Record backward_pass (sys : system F) (o : rts_self F) : Prop := {
  pass_xhats_last : (xhats o).[T sys - 1] = (xhatf o).[T sys - 1];
  pass_Ps_last    : (Ps o).[T sys - 1] = (Pf o).[T sys - 1];
  pass_J     : forall t, 1 <= t <= T sys - 2 ->
               (J o).[t] = (Pf o).[t] * A o / (Pp o).[t + 1];
  pass_xhats : forall t, 1 <= t <= T sys - 2 ->
               (xhats o).[t]
               = (xhatf o).[t] + (J o).[t] * ((xhats o).[t + 1] - (xhatp o).[t + 1]);
  pass_Ps    : forall t, 1 <= t <= T sys - 2 ->
               (Ps o).[t]
               = (Pf o).[t] + (J o).[t] * ((Ps o).[t + 1] - (Pp o).[t + 1]) * (J o).[t];
  pass_M_last : (M o).[T sys - 1]
                = (f1 - (K o).[T sys - 1]) * A o * (Pf o).[T sys - 1];
  pass_M     : forall t, 1 <= t <= T sys - 2 ->
               (M o).[t]
               = (Pf o).[t] * (J o).[t - 1]
                 + (J o).[t - 1] * ((M o).[t + 1] - A o * (Pf o).[t]) * (J o).[t - 1]
}.

(** Where a run of the smoother fails: before the backward loop is
    entered, or only once the backward loop has run through. *)
Definition fails_before_backward (sys : system F) (e : exn) : Prop :=
  raises (rts_init sys) e /\ raises (rts sys) e.

Definition fails_after_backward (sys : system F) (e : exn) : Prop :=
  returns (let* sv := rts_init sys in rts_backward sys sv.1 sv.2)
          (fun _ => True)
  /\ raises (rts sys) e.

End SmootherStatements.

(** ** Loop invariants *)

Section Invariants.
Context {F : Type} `{Scalar F}.

(** What a turn of the filter's loop leaves alone: every length, and the
    two entries at index 0. *)
Record kf_frame (v v' : kf_arrays F) : Prop := {
  fr_S     : length (S_ v') = length (S_ v);
  fr_K     : length (K v') = length (K v);
  fr_xhatp : length (xhatp v') = length (xhatp v);
  fr_xhatf : length (xhatf v') = length (xhatf v);
  fr_yhatp : length (yhatp v') = length (yhatp v);
  fr_Pf    : length (Pf v') = length (Pf v);
  fr_Pp    : length (Pp v') = length (Pp v);
  fr_llt   : length (llt v') = length (llt v);
  fr_Pp0    : Pp v' !!! 0%nat = Pp v !!! 0%nat;
  fr_xhatp0 : xhatp v' !!! 0%nat = xhatp v !!! 0%nat
}.

(** What [rts_init] leaves: the filter's result, zeroed locals with the
    boundary written. *)
Record rts_started (sys : system F) (m0 A0 q0 r0 : F)
    (sv : kf_self F * rts_arrays F) : Prop := {
  st_params : kf_params m0 A0 q0 r0 sv.1;
  st_kf     : kf_inv sys m0 A0 f1 (q0 ** 2)%S (r0 ** 2)%S (Z.to_nat (T sys)) sv.1;
  st_J      : J sv.2 = replicate (Z.to_nat (T sys)) f0;
  st_M      : M sv.2 = replicate (Z.to_nat (T sys)) f0;
  st_xhats  : xhats sv.2
              = <[Z.to_nat (T sys - 1) := (xhatf sv.1).[T sys - 1]]>
                  (replicate (Z.to_nat (T sys)) f0);
  st_Ps     : Ps sv.2
              = <[Z.to_nat (T sys - 1) := (Pf sv.1).[T sys - 1]]>
                  (replicate (Z.to_nat (T sys)) f0);
  st_g0     : gradient0 sv.2 = None
}.

(** The backward loop after [n] turns: times [T-2 .. T-1-n] are written,
    everything below still holds the zeros of the allocation. *)
Record backward_inv (sys : system F) (self : kf_self F) (v0 : rts_arrays F)
    (n : nat) (v : rts_arrays F) : Prop := {
  bi_len_J     : length (J v) = Z.to_nat (T sys);
  bi_len_xhats : length (xhats v) = Z.to_nat (T sys);
  bi_len_Ps    : length (Ps v) = Z.to_nat (T sys);
  bi_M         : M v = M v0;
  bi_g         : gradient_ v = gradient_ v0;
  bi_g0        : gradient0 v = gradient0 v0;
  bi_xhats_last : (xhats v).[T sys - 1] = (xhatf self).[T sys - 1];
  bi_Ps_last    : (Ps v).[T sys - 1] = (Pf self).[T sys - 1];
  bi_written   : forall t, T sys - 2 - Z.of_nat n < t <= T sys - 2 ->
                 backward_written self v t;
  bi_zero      : forall t, 0 <= t <= T sys - 2 - Z.of_nat n ->
                 (J v).[t] = f0 /\ (xhats v).[t] = f0 /\ (Ps v).[t] = f0
}.

(** The lag-one loop after [n] turns. *)
Record lag_inv (sys : system F) (self : kf_self F) (v1 : rts_arrays F)
    (n : nat) (v : rts_arrays F) : Prop := {
  li_J     : J v = J v1;
  li_xhats : xhats v = xhats v1;
  li_Ps    : Ps v = Ps v1;
  li_g     : gradient_ v = gradient_ v1;
  li_g0    : gradient0 v = gradient0 v1;
  li_len_M : length (M v) = Z.to_nat (T sys);
  li_last  : (M v).[T sys - 1]
             = ((f1 - (K self).[T sys - 1]) * A self * (Pf self).[T sys - 1])%S;
  li_written : forall t, T sys - 2 - Z.of_nat n < t <= T sys - 2 ->
               lag_written self v t
}.

(** Row [i] of the local matrix after [n] turns of the gradient loop. *)
Record row_inv (sys : system F) (self : kf_self F) (v : rts_arrays F)
    (n : nat) (i : nat) (row : list F) : Prop := {
  ri_len     : length row = Z.to_nat (T sys);
  ri_written : forall t, 1 <= t <= Z.of_nat n ->
               row.[t] = column_written sys self v i t;
  ri_zero    : forall t, t = 0 \/ Z.of_nat n < t < T sys -> row.[t] = f0
}.

(** The gradient loop after [n] turns. *)
Record gradient_inv (sys : system F) (self : kf_self F) (v : rts_arrays F)
    (n : nat) (v' : rts_arrays F) : Prop := {
  gi_J     : J v' = J v;
  gi_M     : M v' = M v;
  gi_xhats : xhats v' = xhats v;
  gi_Ps    : Ps v' = Ps v;
  gi_rows  : exists r0 r1 r2 r3,
             gradient_ v' = [r0; r1; r2; r3]
             /\ row_inv sys self v n 0 r0 /\ row_inv sys self v n 1 r1
             /\ row_inv sys self v n 2 r2 /\ row_inv sys self v n 3 r3;
  gi_g0    : gradient0 v'
             = match n with
               | O => gradient0 v
               | _ => Some (np_sum <$> py_slice0 (gradient_ v') (nParInference sys))
               end
}.

(** The locals once the gradient loop is through. *)
Record gradient_done (sys : system F) (self : kf_self F)
    (v v' : rts_arrays F) : Prop := {
  gd_J     : J v' = J v;
  gd_M     : M v' = M v;
  gd_xhats : xhats v' = xhats v;
  gd_Ps    : Ps v' = Ps v;
  gd_rows  : gradient_ v' = row_written sys self v <$> [0; 1; 2; 3]%nat;
  gd_g0    : gradient0 v'
             = Some (np_sum <$> py_slice0 (gradient_ v') (nParInference sys))
}.

(** The prior loop after [n] turns. *)
Record prior_inv (sys : system F) (v : rts_arrays F) (g0 : list F)
    (n : nat) (v' : rts_arrays F) : Prop := {
  pi_J     : J v' = J v;
  pi_M     : M v' = M v;
  pi_xhats : xhats v' = xhats v;
  pi_Ps    : Ps v' = Ps v;
  pi_rows  : gradient_ v' = gradient_ v;
  pi_g0    : exists g, gradient0 v' = Some g
             /\ length g = length g0
             /\ (forall i, (i < n)%nat ->
                  g !!! i = (dprior1 sys (Z.of_nat i) + g0 !!! i)%S)
             /\ (forall i, (n <= i)%nat -> g !!! i = g0 !!! i)
}.

(** What a run of the smoother leaves on [self] and in its locals. *)
Record rts_done (sys : system F) (m0 A0 q0 r0 : F) (o : rts_self F)
    : Prop := {
  done_params    : kf_params m0 A0 q0 r0 o;
  done_kf        : kf_inv sys m0 A0 f1 (q0 ** 2)%S (r0 ** 2)%S
                     (Z.to_nat (T sys)) o;
  done_smoothed  : smoothed sys o o;
  done_rows      : gradient_ o = row_written sys o o <$> [0; 1; 2; 3]%nat;
  done_gradient1 : gradient1 o = py_slice0 (gradient_ o) (nParInference sys);
  done_length    : 0 <= nParInference sys ->
                   length (gradient o) = Z.to_nat (nParInference sys);
  done_gradient  : forall i : nat, Z.of_nat i < nParInference sys ->
                   gradient o !!! i
                   = (dprior1 sys (Z.of_nat i)
                      + np_sum (row_written sys o o i))%S
}.

End Invariants.
(** ** Statements about what is read, and about the model's methods *)

Section MoreStatements.
Context {F : Type} `{Scalar F}.
Local Open Scope scalar_scope.

(** Two model objects that agree on what [kf] reads: the length, the
    first four parameters, the first [T] observations and inputs. *)
Record kf_same_input (sys sys' : system F) : Prop := {
  same_T   : T sys = T sys';
  same_par : take 4 (par sys) = take 4 (par sys');
  same_y   : take (Z.to_nat (T sys)) (y sys) = take (Z.to_nat (T sys)) (y sys');
  same_u   : take (Z.to_nat (T sys)) (u sys) = take (Z.to_nat (T sys)) (u sys')
}.

(** A model object cut to its first four parameters. *)
Definition four_parameters (sys : system F) : system F :=
  {| par := take 4 (par sys); y := y sys; u := u sys; T := T sys;
     nParInference := nParInference sys; dprior1 := dprior1 sys |}.

(** A turn of the loops of the parameter store, [dst[kk] = src[kk]]. *)
Definition copy_entry (src : list F) (dst : list F) (kk : Z)
    : result (list F) :=
  let* x := np_get src kk in np_set dst kk x.

(** After [k] turns from [lo], the entries [lo .. lo+k-1] of [dst] are
    those of [src] and the others are as they were. *)
Record copied (src dst0 : list F) (lo : Z) (k : nat) (dst : list F)
    : Prop := {
  cp_length : length dst = length dst0;
  cp_done   : forall i : nat, (lo <= Z.of_nat i < lo + Z.of_nat k)%Z ->
              dst !!! i = src !!! i;
  cp_rest   : forall i : nat, ~ (lo <= Z.of_nat i < lo + Z.of_nat k)%Z ->
              dst !!! i = dst0 !!! i
}.

(** Entry [i] of the row of [Dparm] for one pair of particles. *)
Definition Dparm_entry (m A q r u_t y_t xtt_k xt_k : F) (i : Z) : F :=
  let px := xtt_k - m - A * (xt_k - m) - u_t in
  let py := y_t - xt_k in
  match i with
  | 0 => (f1 - A) * q ** (-2) * px
  | 1 => (xt_k - m) * q ** (-2) * px
  | 2 => q ** (-3) * px ** 2 - q ** (-1)
  | 3 => r ** (-3) * py ** 2 - r ** (-1)
  | _ => f0
  end.

(** The matrix of [Dparm] after [k] turns of its loop: the columns below
    [k] are written, the others hold the zeros of the allocation. *)
Record Dparm_inv (m A q r u_t y_t : F) (xtt xt : list F) (cols : nat)
    (k : nat) (g : list (list F)) : Prop := {
  dp_rows : length g = length xtt;
  dp_cols : forall j, (j < length xtt)%nat -> length (g !!! j) = cols;
  dp_done : forall j i, (j < length xtt)%nat -> (i < k)%nat -> (i < cols)%nat ->
            (g !!! j) !!! i
            = Dparm_entry m A q r u_t y_t (xtt !!! j) (xt !!! j) (Z.of_nat i);
  dp_rest : forall j i, (j < length xtt)%nat -> (k <= i)%nat -> (i < cols)%nat ->
            (g !!! j) !!! i = f0
}.

End MoreStatements.

(** ** Runs of the error monad *)

Lemma returns_ok {X : Type} (x : X) (P : X -> Prop) : P x -> returns (Ok x) P.
Proof. intros HP. exists x. split; [reflexivity | exact HP]. Qed.

Lemma returns_bind {X Y : Type} (c : result X) (k : X -> result Y)
    (P : X -> Prop) (P' : Y -> Prop) :
  returns c P -> (forall x, P x -> returns (k x) P') ->
  returns (let* x := c in k x) P'.
Proof.
  intros (x & -> & HP) Hk. cbn. apply Hk, HP.
Qed.

Lemma returns_weaken {X : Type} (c : result X) (P P' : X -> Prop) :
  returns c P -> (forall x, P x -> P' x) -> returns c P'.
Proof. intros (x & -> & HP) Himp. exists x. split; [reflexivity | auto]. Qed.

(** The rule of the [for] loop: an invariant indexed by the number of
    turns taken. *)
Lemma for_each_returns {St : Type} (body : St -> Z -> result St)
    (Inv : nat -> St -> Prop) (idx : list Z) (st : St) :
  Inv 0%nat st ->
  (forall n t s, idx !! n = Some t -> Inv n s ->
                 returns (body s t) (Inv (Datatypes.S n))) ->
  returns (for_each body idx st) (Inv (length idx)).
Proof.
  revert Inv st. induction idx as [|t idx IH]; intros Inv st H0 Hstep.
  - apply returns_ok, H0.
  - cbn [for_each]. eapply returns_bind.
    + apply (Hstep 0%nat t st); [reflexivity | exact H0].
    + intros s Hs. cbn [length].
      apply (IH (fun n => Inv (Datatypes.S n))); [exact Hs|].
      intros n t' s' Hlk. apply (Hstep (Datatypes.S n)). exact Hlk.
Qed.

Lemma py_range_lookup (start stop : Z) (n : nat) (t : Z) :
  py_range start stop !! n = Some t ->
  t = start + Z.of_nat n /\ Z.of_nat n < stop - start.
Proof. unfold py_range. apply lookup_seqZ. Qed.

Lemma py_range_length (start stop : Z) :
  length (py_range start stop) = Z.to_nat (stop - start).
Proof. unfold py_range. apply length_seqZ. Qed.

Lemma py_range_down_lookup (start stop : Z) (n : nat) (t : Z) :
  py_range_down start stop !! n = Some t ->
  t = start - Z.of_nat n /\ Z.of_nat n < start - stop.
Proof.
  unfold py_range_down. rewrite list_lookup_fmap.
  destruct (seqZ 0 (start - stop) !! n) as [k|] eqn:Hk; [|discriminate].
  apply lookup_seqZ in Hk as [-> Hlt]. cbn. intros [= <-]. split; lia.
Qed.

Lemma py_range_down_length (start stop : Z) :
  length (py_range_down start stop) = Z.to_nat (start - stop).
Proof. unfold py_range_down. rewrite length_fmap. apply length_seqZ. Qed.

(** ** Subscripts in range *)

Section ArrayLemmas.
Context {F : Type} `{Scalar F}.

Lemma np_index_ok (len : nat) (i : Z) :
  0 <= i < Z.of_nat len -> np_index len i = Ok (Z.to_nat i).
Proof.
  intros Hi. unfold np_index.
  destruct (0 <=? i) eqn:H0; [|lia].
  destruct (i <? Z.of_nat len) eqn:H1; [reflexivity|lia].
Qed.

Lemma np_index_empty (i : Z) : np_index 0 i = Raise IndexError.
Proof.
  unfold np_index. change (Z.of_nat 0) with 0. change (- 0) with 0.
  destruct (Z.leb_spec 0 i), (Z.ltb_spec i 0); cbn; try reflexivity; lia.
Qed.

Lemma np_index_beyond (len : nat) (i : Z) :
  Z.of_nat len <= i -> np_index len i = Raise IndexError.
Proof.
  intros Hi. unfold np_index.
  destruct (i <? Z.of_nat len) eqn:H1; [lia|].
  destruct (i <? 0) eqn:H2; [lia|].
  rewrite !andb_false_r. reflexivity.
Qed.

Lemma np_get_ok {E : Type} `{Inhabited E} (a : list E) (i : Z) :
  0 <= i < Z.of_nat (length a) -> np_get a i = Ok (a !!! Z.to_nat i).
Proof. intros Hi. unfold np_get. rewrite np_index_ok by exact Hi. reflexivity. Qed.

Lemma np_set_ok {E : Type} (a : list E) (i : Z) (v : E) :
  0 <= i < Z.of_nat (length a) -> np_set a i v = Ok (<[Z.to_nat i := v]> a).
Proof. intros Hi. unfold np_set. rewrite np_index_ok by exact Hi. reflexivity. Qed.

Lemma np_zeros_ok (n : Z) :
  0 <= n -> np_zeros n = Ok (replicate (Z.to_nat n) f0).
Proof. intros Hn. unfold np_zeros. destruct (n <? 0) eqn:E; [lia|reflexivity]. Qed.

End ArrayLemmas.

(** ** Tactics for running the loops' bodies *)

Lemma to_nat_succ (n : nat) : Z.to_nat (Z.of_nat n + 1) = Datatypes.S n.
Proof. lia. Qed.

Ltac len :=
  rewrite ?length_insert, ?length_replicate;
  repeat match goal with
         | Hl : length ?a = _ |- context [length ?a] => rewrite Hl
         end;
  lia.

Ltac np_run :=
  repeat (first [ rewrite np_get_ok by len | rewrite np_set_ok by len ];
          cbn [bind];
          rewrite ?Nat2Z.id, ?to_nat_succ;
          rewrite ?list_lookup_total_insert_eq by len).

Ltac lookup_upd :=
  repeat first
    [ rewrite list_lookup_total_insert_eq by len
    | rewrite list_lookup_total_insert_ne by lia ].

Lemma for_range_returns {St : Type} (body : St -> Z -> result St)
    (Inv : nat -> St -> Prop) (start stop : Z) (st : St) :
  Inv 0%nat st ->
  (forall n s, Z.of_nat n < stop - start -> Inv n s ->
               returns (body s (start + Z.of_nat n)) (Inv (Datatypes.S n))) ->
  returns (for_each body (py_range start stop) st)
          (Inv (Z.to_nat (stop - start))).
Proof.
  intros H0 Hstep. rewrite <- py_range_length.
  apply for_each_returns; [exact H0|].
  intros n t s Hlk Hs. apply py_range_lookup in Hlk as [-> Hlt].
  apply Hstep; assumption.
Qed.

Lemma for_range_down_returns {St : Type} (body : St -> Z -> result St)
    (Inv : nat -> St -> Prop) (start stop : Z) (st : St) :
  Inv 0%nat st ->
  (forall n s, Z.of_nat n < start - stop -> Inv n s ->
               returns (body s (start - Z.of_nat n)) (Inv (Datatypes.S n))) ->
  returns (for_each body (py_range_down start stop) st)
          (Inv (Z.to_nat (start - stop))).
Proof.
  intros H0 Hstep. rewrite <- py_range_down_length.
  apply for_each_returns; [exact H0|].
  intros n t s Hlk Hs. apply py_range_down_lookup in Hlk as [-> Hlt].
  apply Hstep; assumption.
Qed.


(** ** The filter runs, and its loop invariant *)

Section FilterProofs.
Context {F : Type} `{Scalar F}.
Local Open Scope scalar_scope.

Lemma kf_step_inv (sys : system F) (m A C Q R : F) (n : nat) (v : kf_arrays F) :
  Z.of_nat n < T sys ->
  T sys <= Z.of_nat (length (y sys)) ->
  T sys <= Z.of_nat (length (u sys)) ->
  kf_inv sys m A C Q R n v ->
  returns (kf_step sys m A C Q R v (Z.of_nat n))
          (kf_inv sys m A C Q R (Datatypes.S n)).
Proof.
  intros Hn Hy Hu [[HS HK Hxp Hxf Hyp HPf HPp Hll] HPp0 Hxp0 Hturns].
  unfold kf_step. np_run.
  apply returns_ok. split; [split; cbn; len | cbn; lookup_upd; assumption .. |].
  intros k Hk. destruct (decide (k = n)) as [->|Hne].
  - split; cbn; lookup_upd; reflexivity.
  - assert (Hlt : (k < n)%nat) by lia.
    destruct (Hturns k Hlt). split; cbn; lookup_upd; assumption.
Qed.

Lemma kf_returns (sys : system F) (m0 A0 q0 r0 : F) :
  kf_ready sys m0 A0 q0 r0 ->
  returns (kf sys) (fun o =>
    kf_params m0 A0 q0 r0 o
    /\ kf_inv sys m0 A0 f1 (q0 ** 2) (r0 ** 2) (Z.to_nat (T sys)) o
    /\ ll o = np_sum (llt o)).
Proof.
  intros [Hpar HT Hy Hu]. unfold kf.
  rewrite !np_zeros_ok by lia. cbn [bind].
  rewrite Hpar.
  change (np_get [m0; A0; q0; r0] 0) with (Ok m0).
  change (np_get [m0; A0; q0; r0] 1) with (Ok A0).
  change (np_get [m0; A0; q0; r0] 2) with (Ok q0).
  change (np_get [m0; A0; q0; r0] 3) with (Ok r0).
  cbn [bind].
  rewrite !np_set_ok by len. cbn [bind].
  eapply returns_bind.
  - apply (for_range_returns _ (kf_inv sys m0 A0 f1 (q0 ** 2) (r0 ** 2))).
    + split; [split; cbn [S_ K xhatp xhatf yhatp Pf Pp llt]; len | | |].
      * cbn [Pp]. apply list_lookup_total_insert_eq. len.
      * cbn [xhatp]. apply list_lookup_total_insert_eq. len.
      * intros k Hk. lia.
    + intros n s Hlt Hinv. rewrite Z.add_0_l.
      apply kf_step_inv; [lia | assumption ..].
  - intros v Hinv. apply returns_ok. cbn.
    replace (Z.to_nat (T sys - 0)) with (Z.to_nat (T sys)) in Hinv by lia.
    split; [split; reflexivity | split; [exact Hinv | reflexivity]].
Qed.
End FilterProofs.

Lemma scenario_ready : kf_ready scenario 0%R (9 / 10)%R (1 / 2)%R (1 / 2)%R.
Proof. split; [reflexivity | cbn; lia ..]. Qed.

(** ** Runs that return: what can be read back from [Ok] *)

Lemma bind_Ok {X Y : Type} (c : result X) (k : X -> result Y) (y : Y) :
  (let* x := c in k x) = Ok y -> exists x, c = Ok x /\ k x = Ok y.
Proof. destruct c as [x|e]; cbn; [eauto | discriminate]. Qed.

Lemma for_each_Ok {St : Type} (body : St -> Z -> result St)
    (Inv : St -> Prop) (idx : list Z) (st st' : St) :
  for_each body idx st = Ok st' ->
  Inv st ->
  (forall t s s', elem_of t idx -> Inv s -> body s t = Ok s' -> Inv s') ->
  Inv st'.
Proof.
  revert st. induction idx as [|t idx IH]; intros st Hrun H0 Hstep.
  - cbn in Hrun. injection Hrun as <-. exact H0.
  - cbn [for_each] in Hrun. apply bind_Ok in Hrun as (s & Hs & Hrest).
    apply (IH s Hrest).
    + apply (Hstep t st s); [left | exact H0 | exact Hs].
    + intros t' s1 s2 Hin. apply Hstep. right. exact Hin.
Qed.

Ltac binds_Ok H :=
  repeat (let x := fresh "x" in let Hx := fresh "Hx" in
          apply bind_Ok in H as (x & Hx & H)).

Section Frames.
Context {F : Type} `{Scalar F}.

Lemma np_index_Ok (len : nat) (i : Z) (n : nat) :
  np_index len i = Ok n -> (n < len)%nat /\ (0 <= i -> n = Z.to_nat i).
Proof.
  unfold np_index.
  destruct (Z.leb_spec 0 i), (Z.ltb_spec i (Z.of_nat len)); cbn [andb].
  - intros [= <-]. split; [lia | reflexivity].
  - destruct (Z.leb_spec (- Z.of_nat len) i), (Z.ltb_spec i 0); cbn [andb];
      try discriminate; lia.
  - destruct (Z.leb_spec (- Z.of_nat len) i), (Z.ltb_spec i 0); cbn [andb];
      try discriminate; intros [= <-]; split; lia.
  - destruct (Z.leb_spec (- Z.of_nat len) i), (Z.ltb_spec i 0); cbn [andb];
      try discriminate; intros [= <-]; split; lia.
Qed.

Lemma np_set_Ok {E : Type} (a a' : list E) (i : Z) (x : E) :
  np_set a i x = Ok a' ->
  length a' = length a /\ (0 <= i -> a' = <[Z.to_nat i := x]> a).
Proof.
  unfold np_set. intros Hrun. apply bind_Ok in Hrun as (n & Hn & Hrun).
  injection Hrun as <-. apply np_index_Ok in Hn as [Hlt Hi].
  split; [apply length_insert|]. intros H0. rewrite (Hi H0). reflexivity.
Qed.

Lemma np_zeros_Ok (n : Z) (a : list F) :
  np_zeros n = Ok a -> 0 <= n /\ a = replicate (Z.to_nat n) f0.
Proof.
  unfold np_zeros. destruct (Z.ltb_spec n 0); [discriminate|].
  intros [= <-]. split; [assumption | reflexivity].
Qed.

Lemma kf_step_frame (sys : system F) (m A C Q R : F)
    (v0 v v' : kf_arrays F) (t : Z) :
  0 <= t ->
  kf_frame v0 v ->
  kf_step sys m A C Q R v t = Ok v' ->
  kf_frame v0 v'.
Proof.
  intros Ht [] Hrun. unfold kf_step in Hrun. binds_Ok Hrun.
  injection Hrun as <-.
  repeat match goal with
         | Hs : np_set _ _ _ = Ok _ |- _ =>
             apply np_set_Ok in Hs as [_ Hs];
             specialize (Hs ltac:(lia)); subst
         end.
  split; cbn [S_ K xhatp xhatf yhatp Pf Pp llt];
    rewrite ?length_insert; try assumption;
    rewrite list_lookup_total_insert_ne by lia; assumption.
Qed.

Lemma py_range_elem (start stop t : Z) :
  elem_of t (py_range start stop) -> start <= t < stop.
Proof.
  intros Hin. apply list_elem_of_lookup in Hin as [n Hn].
  apply py_range_lookup in Hn. lia.
Qed.

(** Whenever the filter returns, its arrays have the shapes they were
    allocated with, index 0 of the predicted arrays holds the initial
    values, and the total is the sum of the local [ll]. *)
Lemma kf_Ok (sys : system F) (o : kf_self F) :
  kf sys = Ok o ->
  0 <= T sys
  /\ kf_shapes sys o
  /\ Pp o !!! 0%nat = f1em5 /\ xhatp o !!! 0%nat = f0
  /\ ll o = np_sum (llt o).
Proof.
  intros Hrun. unfold kf in Hrun. binds_Ok Hrun. injection Hrun as <-.
  repeat match goal with
         | Hz : np_zeros _ = Ok _ |- _ => apply np_zeros_Ok in Hz as [? ->]
         | Hs : np_set _ 0 _ = Ok _ |- _ =>
             apply np_set_Ok in Hs as [_ Hs];
             specialize (Hs ltac:(lia)); subst
         end.
  match goal with
  | Hl : for_each _ _ ?v0 = Ok ?v |- _ =>
      assert (Hfr : kf_frame v0 v);
      [ apply (for_each_Ok _ (kf_frame v0) _ _ _ Hl);
        [ split; reflexivity
        | intros t s s' Hin Hs Hstep; apply py_range_elem in Hin;
          apply (kf_step_frame _ _ _ _ _ _ _ _ _ t ltac:(lia) Hs Hstep) ]
      | ]
  end.
  destruct Hfr as [e1 e2 e3 e4 e5 e6 e7 e8 e9 e10].
  cbn [S_ K xhatp xhatf yhatp Pf Pp llt] in *.
  rewrite ?length_insert, ?length_replicate in *.
  split; [assumption|].
  split; [split; cbn [kf_vars]; lia|].
  cbn [kf_vars ll]. rewrite e9, e10.
  change (Z.to_nat 0) with 0%nat.
  rewrite !list_lookup_total_insert_eq by (rewrite length_replicate; lia).
  auto.
Qed.

End Frames.

(** ** The smoother runs, phase by phase *)

Section SmootherProofs.
Context {F : Type} `{Scalar F}.

Lemma rts_init_returns (sys : system F) (m0 A0 q0 r0 : F) :
  kf_ready sys m0 A0 q0 r0 -> 1 <= T sys ->
  returns (rts_init sys) (rts_started sys m0 A0 q0 r0).
Proof.
  intros Hready HT. unfold rts_init.
  eapply returns_bind; [apply (kf_returns sys m0 A0 q0 r0 Hready)|].
  intros self (Hpar & Hinv & _).
  destruct (inv_shapes _ _ _ _ _ _ _ _ Hinv).
  rewrite !np_zeros_ok by lia. cbn [bind]. np_run.
  apply returns_ok. split; cbn [fst snd J M xhats Ps gradient0];
    try assumption; reflexivity.
Qed.

Lemma backward_step_inv (sys : system F) (self : kf_self F)
    (v0 v : rts_arrays F) (n : nat) :
  kf_shapes sys self ->
  Z.of_nat n < T sys - 2 ->
  backward_inv sys self v0 n v ->
  returns (rts_backward_step self v (T sys - 2 - Z.of_nat n))
          (backward_inv sys self v0 (Datatypes.S n)).
Proof.
  intros [] Hn [HJ Hxs HPs HM Hg Hg0 Hxl HPl Hw Hz].
  unfold rts_backward_step, entry in *. np_run.
  apply returns_ok.
  split; unfold entry; cbn [J M xhats Ps gradient_ gradient0];
    try assumption; try len.
  - lookup_upd. assumption.
  - lookup_upd. assumption.
  - intros t Ht. destruct (decide (t = T sys - 2 - Z.of_nat n)) as [->|Hne].
    + split; unfold entry; cbn [J M xhats Ps]; lookup_upd; reflexivity.
    + destruct (Hw t ltac:(lia)) as [w1 w2 w3]. unfold entry in *.
      split; unfold entry; cbn [J M xhats Ps]; lookup_upd; assumption.
  - intros t Ht. destruct (Hz t ltac:(lia)) as (z1 & z2 & z3).
    repeat split; lookup_upd; assumption.
Qed.

Lemma rts_backward_returns (sys : system F) (m0 A0 q0 r0 : F)
    (sv : kf_self F * rts_arrays F) :
  2 <= T sys ->
  rts_started sys m0 A0 q0 r0 sv ->
  returns (rts_backward sys sv.1 sv.2)
          (backward_inv sys sv.1 sv.2 (Z.to_nat (T sys - 2))).
Proof.
  intros HT [Hpar Hinv HJ HM Hxs HPs Hg0].
  destruct (inv_shapes _ _ _ _ _ _ _ _ Hinv) as [].
  unfold rts_backward.
  replace (T sys - 2) with (T sys - 2 - 0) at 2 by lia.
  apply (for_range_down_returns _ (backward_inv sys sv.1 sv.2)).
  - split; try reflexivity.
    + rewrite HJ. len.
    + rewrite Hxs. len.
    + rewrite HPs. len.
    + unfold entry. rewrite Hxs. lookup_upd. reflexivity.
    + unfold entry. rewrite HPs. lookup_upd. reflexivity.
    + intros t Ht. lia.
    + intros t Ht. unfold entry. rewrite HJ, Hxs, HPs. lookup_upd.
      rewrite !lookup_total_replicate_2 by lia. auto.
  - intros n s Hn Hs. apply backward_step_inv; [split; assumption | lia | exact Hs].
Qed.

Lemma lag_step_inv (sys : system F) (self : kf_self F)
    (v1 v : rts_arrays F) (n : nat) :
  kf_shapes sys self ->
  length (J v1) = Z.to_nat (T sys) ->
  Z.of_nat n < T sys - 2 ->
  lag_inv sys self v1 n v ->
  returns (rts_lag_step self v (T sys - 2 - Z.of_nat n))
          (lag_inv sys self v1 (Datatypes.S n)).
Proof.
  intros [] HJ1 Hn [HJ Hxs HPs Hg Hg0 HM Hl Hw].
  assert (HJlen : length (J v) = Z.to_nat (T sys)) by (rewrite HJ; exact HJ1).
  unfold rts_lag_step, lag_written, entry in *. np_run.
  apply returns_ok.
  split; unfold lag_written, entry; cbn [J M xhats Ps gradient_ gradient0];
    try assumption; try len.
  - lookup_upd. assumption.
  - intros t Ht. destruct (decide (t = T sys - 2 - Z.of_nat n)) as [->|Hne].
    + lookup_upd. reflexivity.
    + specialize (Hw t ltac:(lia)). lookup_upd. assumption.
Qed.

Lemma rts_lag_returns (sys : system F) (self : kf_self F) (v1 : rts_arrays F) :
  2 <= T sys ->
  kf_shapes sys self ->
  length (J v1) = Z.to_nat (T sys) ->
  length (M v1) = Z.to_nat (T sys) ->
  returns (rts_lag sys self v1)
          (lag_inv sys self v1 (Z.to_nat (T sys - 2))).
Proof.
  intros HT Hsh HJ HM. pose proof Hsh as [].
  unfold rts_lag, rts_lag_last. np_run.
  replace (T sys - 2) with (T sys - 2 - 0) at 2 by lia.
  apply (for_range_down_returns _ (lag_inv sys self v1)).
  - split; unfold entry; cbn [J M xhats Ps gradient_ gradient0];
      try reflexivity; try len.
    lookup_upd. reflexivity.
  - intros n s Hn Hs. apply lag_step_inv; [assumption | assumption | lia | exact Hs].
Qed.

Lemma rts_lag_smoothed (sys : system F) (m0 A0 q0 r0 : F)
    (sv : kf_self F * rts_arrays F) (v1 : rts_arrays F) :
  2 <= T sys ->
  rts_started sys m0 A0 q0 r0 sv ->
  backward_inv sys sv.1 sv.2 (Z.to_nat (T sys - 2)) v1 ->
  returns (rts_lag sys sv.1 v1)
          (fun v => smoothed sys sv.1 v /\ gradient0 v = None).
Proof.
  intros HT Hst [HJ Hxs HPs HM Hg Hg0 Hxl HPl Hw Hz].
  pose proof (inv_shapes _ _ _ _ _ _ _ _ (st_kf _ _ _ _ _ _ Hst)) as Hsh.
  assert (HMlen : length (M v1) = Z.to_nat (T sys)).
  { rewrite HM, (st_M _ _ _ _ _ _ Hst). len. }
  eapply returns_weaken; [apply (rts_lag_returns sys sv.1 v1 HT Hsh HJ HMlen)|].
  intros v [lJ lxs lPs lg lg0 lM ll lw].
  split; [|rewrite lg0, Hg0; apply (st_g0 _ _ _ _ _ _ Hst)].
  split; rewrite ?lJ, ?lxs, ?lPs; try assumption.
  - intros t Ht. destruct (Hw t ltac:(lia)) as [w1 w2 w3].
    split; rewrite ?lJ, ?lxs, ?lPs; assumption.
  - apply (Hz 0). lia.
  - apply (Hz 0). lia.
  - apply (Hz 0). lia.
  - intros t Ht. apply lw. lia.
Qed.

Lemma np_set2_row0 (r0 r1 r2 r3 : list F) (t : Z) (x : F) :
  0 <= t < Z.of_nat (length r0) ->
  np_set2 [r0; r1; r2; r3] 0 t x = Ok [<[Z.to_nat t := x]> r0; r1; r2; r3].
Proof.
  intros Ht. unfold np_set2. change (np_get [r0; r1; r2; r3] 0) with (Ok r0).
  cbn [bind]. rewrite np_set_ok by exact Ht. reflexivity.
Qed.

Lemma np_set2_row1 (r0 r1 r2 r3 : list F) (t : Z) (x : F) :
  0 <= t < Z.of_nat (length r1) ->
  np_set2 [r0; r1; r2; r3] 1 t x = Ok [r0; <[Z.to_nat t := x]> r1; r2; r3].
Proof.
  intros Ht. unfold np_set2. change (np_get [r0; r1; r2; r3] 1) with (Ok r1).
  cbn [bind]. rewrite np_set_ok by exact Ht. reflexivity.
Qed.

Lemma np_set2_row2 (r0 r1 r2 r3 : list F) (t : Z) (x : F) :
  0 <= t < Z.of_nat (length r2) ->
  np_set2 [r0; r1; r2; r3] 2 t x = Ok [r0; r1; <[Z.to_nat t := x]> r2; r3].
Proof.
  intros Ht. unfold np_set2. change (np_get [r0; r1; r2; r3] 2) with (Ok r2).
  cbn [bind]. rewrite np_set_ok by exact Ht. reflexivity.
Qed.

Lemma np_set2_row3 (r0 r1 r2 r3 : list F) (t : Z) (x : F) :
  0 <= t < Z.of_nat (length r3) ->
  np_set2 [r0; r1; r2; r3] 3 t x = Ok [r0; r1; r2; <[Z.to_nat t := x]> r3].
Proof.
  intros Ht. unfold np_set2. change (np_get [r0; r1; r2; r3] 3) with (Ok r3).
  cbn [bind]. rewrite np_set_ok by exact Ht. reflexivity.
Qed.

Lemma row_inv_step (sys : system F) (self : kf_self F) (v : rts_arrays F)
    (n i : nat) (row : list F) :
  Z.of_nat n < T sys - 1 ->
  row_inv sys self v n i row ->
  row_inv sys self v (Datatypes.S n) i
    (<[Z.to_nat (1 + Z.of_nat n) := column_written sys self v i (1 + Z.of_nat n)]> row).
Proof.
  intros Hn [Hlen Hw Hz]. split.
  - len.
  - intros t Ht. unfold entry in *.
    destruct (decide (t = 1 + Z.of_nat n)) as [->|Hne].
    + lookup_upd. reflexivity.
    + lookup_upd. apply Hw. lia.
  - intros t Ht. unfold entry in *. lookup_upd. apply Hz. lia.
Qed.

Lemma gradient_step_inv (sys : system F) (self : kf_self F)
    (v v' : rts_arrays F) (n : nat) :
  T sys <= Z.of_nat (length (y sys)) ->
  T sys <= Z.of_nat (length (u sys)) ->
  smoothed sys self v ->
  Z.of_nat n < T sys - 1 ->
  gradient_inv sys self v n v' ->
  returns (rts_gradient_step sys self v' (1 + Z.of_nat n))
          (gradient_inv sys self v (Datatypes.S n)).
Proof.
  intros Hy Hu Hsm Hn [HJ HM Hxs HPs (r0 & r1 & r2 & r3 & Hg & R0 & R1 & R2 & R3) Hg0].
  destruct Hsm as [lJ lM lxs lPs _ _ _ _ _ _ _ _].
  pose proof (ri_len _ _ _ _ _ _ R0). pose proof (ri_len _ _ _ _ _ _ R1).
  pose proof (ri_len _ _ _ _ _ _ R2). pose proof (ri_len _ _ _ _ _ _ R3).
  unfold rts_gradient_step. rewrite HM, Hxs, HPs, Hg. np_run.
  rewrite np_set2_row0 by len. cbn [bind].
  rewrite np_set2_row1 by len. cbn [bind].
  rewrite np_set2_row2 by len. cbn [bind].
  rewrite np_set2_row3 by len. cbn [bind].
  apply returns_ok.
  split; cbn [J M xhats Ps gradient_ gradient0]; try assumption; try reflexivity.
  do 4 eexists. split; [reflexivity|].
  refine (conj _ (conj _ (conj _ _)));
    apply row_inv_step; assumption || lia.
Qed.

Lemma row_written_length (sys : system F) (self : kf_self F)
    (v : rts_arrays F) (i : nat) :
  1 <= T sys -> length (row_written sys self v i) = Z.to_nat (T sys).
Proof.
  intros HT. unfold row_written. cbn [length].
  rewrite length_fmap, py_range_length. lia.
Qed.

Lemma row_written_entry (sys : system F) (self : kf_self F)
    (v : rts_arrays F) (i : nat) (t : Z) :
  1 <= t < T sys ->
  (row_written sys self v i).[t] = column_written sys self v i t.
Proof.
  intros Ht. unfold entry, row_written.
  rewrite lookup_total_cons_ne_0 by lia.
  rewrite list_lookup_total_alt, list_lookup_fmap.
  unfold py_range. rewrite lookup_seqZ_lt by lia. cbn. f_equal. lia.
Qed.

Lemma row_inv_final (sys : system F) (self : kf_self F) (v : rts_arrays F)
    (i : nat) (row : list F) :
  1 <= T sys ->
  row_inv sys self v (Z.to_nat (T sys - 1)) i row ->
  row = row_written sys self v i.
Proof.
  intros HT [Hlen Hw Hz].
  apply (list_eq_same_length _ _ (Z.to_nat (T sys)));
    [apply row_written_length; exact HT | exact Hlen |].
  intros k x x' Hk Hx Hx'.
  apply list_lookup_total_correct in Hx, Hx'. subst x x'.
  destruct k as [|k].
  - specialize (Hz 0 ltac:(left; reflexivity)). unfold entry in Hz.
    change (Z.to_nat 0) with 0%nat in Hz. rewrite Hz. reflexivity.
  - specialize (Hw (Z.of_nat (Datatypes.S k)) ltac:(lia)).
    unfold entry in Hw. rewrite Nat2Z.id in Hw. rewrite Hw.
    rewrite <- (row_written_entry sys self v i) by lia.
    unfold entry. rewrite Nat2Z.id. reflexivity.
Qed.

Lemma rts_gradient_returns (sys : system F) (self : kf_self F)
    (v : rts_arrays F) :
  2 <= T sys ->
  T sys <= Z.of_nat (length (y sys)) ->
  T sys <= Z.of_nat (length (u sys)) ->
  smoothed sys self v ->
  returns (rts_gradient sys self v) (gradient_done sys self v).
Proof.
  intros HT Hy Hu Hsm. unfold rts_gradient, np_zeros2.
  rewrite np_zeros_ok by lia. cbn [bind].
  eapply returns_weaken.
  - apply (for_range_returns _ (gradient_inv sys self v)).
    + split; cbn [J M xhats Ps gradient_ gradient0]; try reflexivity.
      do 4 eexists. split; [reflexivity|].
      assert (Hrow : forall i, row_inv sys self v 0 i
                                 (replicate (Z.to_nat (T sys)) f0)).
      { intros i. split; [len | intros t Ht; lia |].
        intros t Ht. unfold entry. apply lookup_total_replicate_2. lia. }
      auto.
    + intros n s Hn Hs. apply gradient_step_inv; assumption.
  - intros v' [HJ HM Hxs HPs (r0 & r1 & r2 & r3 & Hg & R0 & R1 & R2 & R3) Hg0].
    apply row_inv_final in R0, R1, R2, R3; try lia. subst r0 r1 r2 r3.
    split; try assumption.
    destruct (Z.to_nat (T sys - 1)) eqn:E; [lia|]. exact Hg0.
Qed.

Lemma prior_step_inv (sys : system F) (v v' : rts_arrays F) (g0 : list F)
    (n : nat) :
  (n < length g0)%nat ->
  prior_inv sys v g0 n v' ->
  returns (rts_prior_step sys v' (0 + Z.of_nat n))
          (prior_inv sys v g0 (Datatypes.S n)).
Proof.
  intros Hn [HJ HM Hxs HPs Hrows (g & Hg & Hlen & Hlt & Hge)].
  unfold rts_prior_step. rewrite Hg, Z.add_0_l. np_run.
  apply returns_ok.
  split; cbn [J M xhats Ps gradient_ gradient0]; try assumption.
  eexists. split; [reflexivity|]. split; [len|]. split.
  - intros i Hi. destruct (decide (i = n)) as [->|Hne].
    + lookup_upd. rewrite (Hge n) by lia. reflexivity.
    + lookup_upd. apply Hlt. lia.
  - intros i Hi. lookup_upd. apply Hge. lia.
Qed.

Lemma rts_prior_returns (sys : system F) (v : rts_arrays F) (g0 : list F) :
  gradient0 v = Some g0 ->
  nParInference sys <= Z.of_nat (length g0) ->
  returns (rts_prior sys v)
          (prior_inv sys v g0 (Z.to_nat (nParInference sys))).
Proof.
  intros Hg0 Hn. unfold rts_prior.
  replace (nParInference sys) with (nParInference sys - 0) at 2 by lia.
  apply (for_range_returns _ (prior_inv sys v g0)).
  - split; try reflexivity. exists g0. split; [exact Hg0|].
    split; [reflexivity|]. split; [intros i Hi; lia | reflexivity].
  - intros n s Hlt Hs. apply prior_step_inv; [lia | exact Hs].
Qed.

Lemma column_written_ext (sys : system F) (self : kf_self F)
    (v v' : rts_arrays F) (i : nat) (t : Z) :
  M v' = M v -> xhats v' = xhats v -> Ps v' = Ps v ->
  column_written sys self v' i t = column_written sys self v i t.
Proof.
  intros HM Hxs HPs. unfold column_written. rewrite HM, Hxs, HPs. reflexivity.
Qed.

Lemma row_written_ext (sys : system F) (self : kf_self F)
    (v v' : rts_arrays F) (i : nat) :
  M v' = M v -> xhats v' = xhats v -> Ps v' = Ps v ->
  row_written sys self v' i = row_written sys self v i.
Proof.
  intros HM Hxs HPs. unfold row_written. f_equal.
  apply list_fmap_ext. intros k t _.
  apply column_written_ext; assumption.
Qed.

Lemma smoothed_ext (sys : system F) (self : kf_self F) (v v' : rts_arrays F) :
  J v' = J v -> M v' = M v -> xhats v' = xhats v -> Ps v' = Ps v ->
  smoothed sys self v -> smoothed sys self v'.
Proof.
  intros HJ HM Hxs HPs [a1 a2 a3 a4 a5 a6 a7 a8 a9 a10 a11 a12].
  split; unfold lag_written in *; rewrite ?HJ, ?HM, ?Hxs, ?HPs; try assumption.
  intros t Ht. destruct (a7 t Ht) as [w1 w2 w3].
  split; rewrite ?HJ, ?HM, ?Hxs, ?HPs; assumption.
Qed.

Lemma rts_output_done (sys : system F) (m0 A0 q0 r0 : F)
    (sv : kf_self F * rts_arrays F) (v v1 v2 : rts_arrays F) :
  nParInference sys <= 4 ->
  rts_started sys m0 A0 q0 r0 sv ->
  smoothed sys sv.1 v ->
  gradient_done sys sv.1 v v1 ->
  (forall g0, gradient0 v1 = Some g0 ->
     prior_inv sys v1 g0 (Z.to_nat (nParInference sys)) v2) ->
  returns (rts_output sys sv.1 v2) (rts_done sys m0 A0 q0 r0).
Proof.
  intros Hn Hst Hsm [dJ dM dxs dPs drows dg0] Hprior.
  specialize (Hprior _ dg0).
  destruct Hprior as [pJ pM pxs pPs prows (g & Hg & Hlen & Hlt & Hge)].
  unfold rts_output. rewrite Hg. apply returns_ok.
  assert (EJ : J v2 = J v) by congruence.
  assert (EM : M v2 = M v) by congruence.
  assert (Exs : xhats v2 = xhats v) by congruence.
  assert (EPs : Ps v2 = Ps v) by congruence.
  assert (Erows : gradient_ v2 = row_written sys sv.1 v2 <$> [0; 1; 2; 3]%nat).
  { rewrite prows, drows. cbn [fmap list_fmap].
    rewrite !(row_written_ext sys sv.1 v v2) by assumption. reflexivity. }
  split; cbn [rts_kf rts_vars gradient gradient1].
  - apply (st_params _ _ _ _ _ _ Hst).
  - apply (st_kf _ _ _ _ _ _ Hst).
  - apply (smoothed_ext sys sv.1 v v2); assumption.
  - exact Erows.
  - reflexivity.
  - intros H0. unfold py_slice0.
    destruct (nParInference sys <? 0) eqn:E; [lia|].
    rewrite length_take, Hlen, length_fmap. unfold py_slice0. rewrite E.
    rewrite length_take, drows. cbn [fmap list_fmap length]. lia.
  - intros i Hi.
    assert (H0 : 0 <= nParInference sys) by lia.
    assert (Hi4 : (i < 4)%nat) by lia.
    unfold py_slice0. destruct (nParInference sys <? 0) eqn:E; [lia|].
    rewrite lookup_total_take_lt by lia. rewrite Hlt by lia.
    f_equal. unfold py_slice0. rewrite E.
    rewrite list_lookup_total_alt, list_lookup_fmap.
    rewrite lookup_take_lt by lia. rewrite drows.
    rewrite !(row_written_ext sys sv.1 v v2) by assumption.
    destruct i as [|[|[|[|i]]]]; try reflexivity. lia.
Qed.

Theorem rts_returns (sys : system F) (m0 A0 q0 r0 : F) :
  rts_ready sys m0 A0 q0 r0 ->
  returns (rts sys) (rts_done sys m0 A0 q0 r0).
Proof.
  intros [Hkf HT Hn]. pose proof Hkf as [_ _ Hy Hu]. unfold rts.
  eapply returns_bind; [apply (rts_init_returns sys m0 A0 q0 r0 Hkf); lia|].
  intros sv Hst.
  eapply returns_bind; [apply (rts_backward_returns _ _ _ _ _ _ HT Hst)|].
  intros v1 Hbw.
  eapply returns_bind; [apply (rts_lag_smoothed _ _ _ _ _ _ _ HT Hst Hbw)|].
  intros v [Hsm Hnone].
  eapply returns_bind; [apply (rts_gradient_returns sys sv.1 v HT Hy Hu Hsm)|].
  intros v' Hgd.
  pose proof (gd_g0 _ _ _ _ Hgd) as Hg0.
  eapply returns_bind.
  - apply (rts_prior_returns sys v' _ Hg0).
    rewrite length_fmap. unfold py_slice0.
    rewrite (gd_rows _ _ _ _ Hgd). cbn [fmap list_fmap length].
    destruct (nParInference sys <? 0) eqn:E; rewrite length_take;
      cbn [length]; lia.
  - intros v2 Hpr.
    apply (rts_output_done sys m0 A0 q0 r0 sv v v' v2); try assumption.
    intros g0 Hg0'. rewrite Hg0 in Hg0'. injection Hg0' as <-. exact Hpr.
Qed.

End SmootherProofs.

(** ** The claims about the filter *)

Section FilterClaims.
Context {F : Type} `{ExactArith F}.
Local Open Scope scalar_scope.

Lemma entry_nat (a : list F) (t : Z) : a.[t] = a !!! Z.to_nat t.
Proof. reflexivity. Qed.

Lemma entry_succ (a : list F) (t : Z) :
  0 <= t -> a.[t + 1] = a !!! Datatypes.S (Z.to_nat t).
Proof. intros Ht. unfold entry. f_equal. lia. Qed.

(** The loop invariant, read the way the specification writes the
    recursion: [C] is 1.0 and a square is a product. *)
Lemma recursion_of_inv (sys : system F) (m0 A0 q0 r0 : F) (o : kf_self F) :
  kf_params m0 A0 q0 r0 o ->
  kf_inv sys m0 A0 f1 (q0 ** 2) (r0 ** 2) (Z.to_nat (T sys)) o ->
  forall t, (0 <= t < T sys)%Z -> kf_recursion sys o t.
Proof.
  intros Hpar Hinv t Ht. destruct Hpar as [Hm HA HC HQ _ HR _ _ _].
  destruct (inv_turns _ _ _ _ _ _ _ _ Hinv (Z.to_nat t) ltac:(lia))
    as [wS wK wyp wxf wxp wPf wPp wll].
  rewrite mul_1_l, mul_1_r in wS. rewrite mul_1_r in wK.
  rewrite mul_1_l in wyp.
  split; rewrite ?entry_succ by lia; rewrite ?entry_nat;
    rewrite ?Hm, ?HA, ?HQ, ?HR; try assumption.
  rewrite pow_2, <- mul_assoc. exact wll.
Qed.

(** C1.  On a model object with parameters [m, A, q, r] and at least [T]
    observations and inputs, the filter returns, with [m = par[0]],
    [A = par[1]], [Q = par[2]**2], [R = par[3]**2] and the observation
    coefficient 1.0 on [self], and at every time [t = 0 .. T-1] its arrays
    satisfy the eight equations of the recursion: innovation variance,
    gain, predicted observation, filtered mean and variance, the next
    predicted mean and variance, and the log-likelihood term. *)
Theorem kf_recursion_exact (sys : system F) (m0 A0 q0 r0 : F) :
  kf_ready sys m0 A0 q0 r0 ->
  returns (kf sys) (fun o =>
    kf_params m0 A0 q0 r0 o
    /\ forall t, (0 <= t < T sys)%Z -> kf_recursion sys o t).
Proof.
  intros Hready.
  eapply returns_weaken; [apply (kf_returns sys m0 A0 q0 r0 Hready)|].
  intros o (Hpar & Hinv & _). split; [exact Hpar|].
  apply (recursion_of_inv sys m0 A0 q0 r0 o Hpar Hinv).
Qed.

End FilterClaims.


Lemma kf_recursion_exact_witness :
  returns (kf scenario) (fun o =>
    kf_params 0%R (9 / 10)%R (1 / 2)%R (1 / 2)%R o
    /\ forall t, 0 <= t < T scenario -> kf_recursion scenario o t).
Proof.
  apply (kf_recursion_exact scenario). exact scenario_ready.
Defined.

Section FilterReturned.
Context {F : Type} `{Scalar F}.

Lemma entries_of_array (a : list F) (n : Z) :
  Z.of_nat (length a) = n ->
  (fun t => a.[t]) <$> py_range 0 n = a.
Proof.
  intros Hlen.
  apply (list_eq_same_length _ _ (length a)); [reflexivity | |].
  - rewrite length_fmap, py_range_length. lia.
  - intros k x x' Hk Hx Hx'. rewrite list_lookup_fmap in Hx.
    unfold py_range in Hx. rewrite lookup_seqZ_lt in Hx by lia.
    cbn in Hx. injection Hx as <-. unfold entry.
    replace (Z.to_nat (0 + Z.of_nat k)) with k by lia.
    apply list_lookup_total_correct in Hx'. congruence.
Qed.

(** What [np_sum] computes: over the terms [f t] of the times
    [t = lo .. hi-1] it is their sum, and so it is over the entries of an
    array. *)
Lemma np_sum_seqZ (f : Z -> F) (lo : Z) (n : nat) :
  np_sum (f <$> seqZ lo (Z.of_nat n)) = sum_terms f lo n.
Proof.
  induction n as [|n IH]; [reflexivity|].
  replace (Z.of_nat (Datatypes.S n)) with (Z.of_nat n + 1) by lia.
  rewrite seqZ_app by lia. rewrite fmap_app.
  unfold np_sum in *. rewrite foldl_app, IH.
  rewrite seqZ_cons by lia. rewrite seqZ_nil by lia. reflexivity.
Qed.

(** The three terms of [t = 1 .. 3], written out. *)
Lemma sum_over_three (f : Z -> F) :
  sum_over f 1 4 = (f0 + f 1 + f 2 + f 3)%S.
Proof. reflexivity. Qed.

Lemma np_sum_range (f : Z -> F) (lo hi : Z) :
  np_sum (f <$> py_range lo hi) = sum_over f lo hi.
Proof.
  unfold sum_over, py_range.
  destruct (Z_le_gt_dec 0 (hi - lo)) as [Hle|Hgt].
  - rewrite <- (Z2Nat.id (hi - lo)) at 1 by exact Hle. apply np_sum_seqZ.
  - rewrite seqZ_nil by lia.
    replace (Z.to_nat (hi - lo)) with 0%nat by lia. reflexivity.
Qed.

Lemma np_sum_entries (a : list F) (n : Z) :
  Z.of_nat (length a) = n ->
  np_sum a = sum_over (fun t => a.[t]) 0 n.
Proof.
  intros Hlen. rewrite <- np_sum_range.
  rewrite entries_of_array by exact Hlen. reflexivity.
Qed.

(** C9.  Whenever the filter returns, on any input, [xhatp] and [Pp] have
    [T+1] entries and [xhatf], [Pf], [S], [K], [yhatp] and the per-time
    [ll] have [T]; [xhatp[0]] is the constant 0.0 and [Pp[0]] the constant
    1e-5, whatever the input. *)
Theorem kf_lengths_and_start (sys : system F) (o : kf_self F) :
  kf sys = Ok o ->
  length_consistent sys o /\ (xhatp o).[0] = f0 /\ (Pp o).[0] = f1em5.
Proof.
  intros Hrun. apply kf_Ok in Hrun as (HT & [] & HPp & Hxp & _).
  split; [split; lia|]. split; assumption.
Qed.

End FilterReturned.

Lemma kf_lengths_and_start_witness :
  returns (kf scenario)
    (fun o => length_consistent scenario o
              /\ (xhatp o).[0] = 0%R /\ (Pp o).[0] = (1 / 100000)%R).
Proof.
  destruct (kf_returns scenario _ _ _ _ scenario_ready) as (o & Ho & _).
  exists o. split; [exact Ho | exact (kf_lengths_and_start scenario o Ho)].
Defined.

(** ** The filter in exact arithmetic *)

Section RealFilter.
Local Open Scope R_scope.

Lemma filtered_variance (Pp R : R) :
  0 <= Pp -> 0 < R ->
  0 <= Pp - Pp / (Pp + R) * (Pp + R) * (Pp / (Pp + R)).
Proof.
  intros HPp HR.
  replace (Pp - Pp / (Pp + R) * (Pp + R) * (Pp / (Pp + R)))
    with (Pp * R / (Pp + R)) by (field; lra).
  apply Rmult_le_pos; [nra|]. apply Rlt_le, Rinv_0_lt_compat. lra.
Qed.

(** In exact arithmetic the order of the additions does not matter:
    [np_sum] of an array is [np_sum] of any rearrangement of it, and of an
    array cut in two it is the sum of the two parts, so adding in blocks
    gives the same total. *)
Lemma np_sum_from (l : list R) (a : R) : foldl Rplus a l = a + np_sum l.
Proof.
  unfold np_sum. cbn [fadd f0 real_scalar]. revert a.
  induction l as [|x l IH]; intros a; cbn [foldl]; [lra|].
  rewrite (IH (a + x)), (IH (0 + x)). lra.
Qed.

Lemma np_sum_app (l l' : list R) : np_sum (l ++ l') = np_sum l + np_sum l'.
Proof.
  unfold np_sum at 1. cbn [fadd f0 real_scalar].
  rewrite foldl_app. rewrite np_sum_from. unfold np_sum at 2.
  reflexivity.
Qed.

Lemma np_sum_permutation (l l' : list R) :
  Permutation l l' -> np_sum l = np_sum l'.
Proof.
  intros Hperm. induction Hperm as [|x l l' _ IH|x x' l|l l' l'' _ IH _ IH'].
  - reflexivity.
  - change (x :: l) with ([x] ++ l). change (x :: l') with ([x] ++ l').
    rewrite !np_sum_app, IH. reflexivity.
  - change (x' :: x :: l) with ([x'; x] ++ l).
    change (x :: x' :: l) with ([x; x'] ++ l).
    rewrite !np_sum_app. f_equal.
    unfold np_sum. cbn. lra.
  - congruence.
Qed.

(** C5.  In exact arithmetic, whenever the filter returns, on any input,
    the total log-likelihood it stores is the sum over [t = 0 .. T-1] of
    the per-time terms [ll_t] it stores beside it.  (In binary64 the total
    is that sum as [np.sum] rounds it, which is not part of this
    statement.) *)
Theorem kf_total_is_sum (sys : system R) (o : kf_self R) :
  kf sys = Ok o ->
  ll o = sum_over (fun t => (llt o).[t]) 0 (T sys).
Proof.
  intros Hrun. apply kf_Ok in Hrun as (HT & Hsh & _ & _ & Hll).
  rewrite Hll. apply np_sum_entries.
  rewrite (shape_llt _ _ Hsh). lia.
Qed.

(** C10, amended.  In exact real arithmetic, with [par[3]] not zero: the
    predicted variance starts positive and stays non-negative, the
    filtered variance is non-negative, and the innovation variance [S_t],
    the only divisor of the filter, is strictly positive at every time
    [t = 0 .. T-1].  In binary64 this fails where [par[3]**2] underflows to
    zero, as the run at [par[3] = 1e-200] below shows. *)
Theorem kf_divisions_defined (sys : system R) (m0 A0 q0 r0 : R) :
  kf_ready sys m0 A0 q0 r0 -> r0 <> 0 ->
  returns (kf sys) (fun o =>
    0 < (Pp o).[0]
    /\ forall t, (0 <= t < T sys)%Z ->
         0 <= (Pp o).[t] /\ 0 < (S_ o).[t] /\ 0 <= (Pf o).[t]
         /\ 0 <= (Pp o).[t + 1]).
Proof.
  intros Hready Hr.
  eapply returns_weaken; [apply (kf_returns sys m0 A0 q0 r0 Hready)|].
  intros o (Hpar & Hinv & _).
  pose proof (recursion_of_inv sys m0 A0 q0 r0 o Hpar Hinv) as Hrec.
  assert (HR : 0 < R_ o).
  { rewrite (par_R _ _ _ _ _ Hpar), pow_2. cbn. nra. }
  assert (HQ : 0 <= Q o).
  { rewrite (par_Q _ _ _ _ _ Hpar), pow_2. cbn. nra. }
  assert (H0 : 0 < (Pp o).[0]).
  { unfold entry. change (Z.to_nat 0) with 0%nat.
    rewrite (inv_Pp0 _ _ _ _ _ _ _ _ Hinv). cbn. lra. }
  assert (Hstep : forall t, (0 <= t < T sys)%Z -> 0 <= (Pp o).[t] ->
            0 < (S_ o).[t] /\ 0 <= (Pf o).[t] /\ 0 <= (Pp o).[t + 1]).
  { intros t Ht HPp. destruct (Hrec t Ht) as [eS eK _ _ ePf _ ePp _].
    cbn in eS, eK, ePf, ePp.
    assert (HS : 0 < (S_ o).[t]) by (rewrite eS; lra).
    assert (HPf : 0 <= (Pf o).[t]).
    { rewrite ePf, eK, eS. apply filtered_variance; assumption. }
    split; [exact HS|]. split; [exact HPf|]. rewrite ePp. nra. }
  assert (Hind : forall n : nat, (Z.of_nat n < T sys)%Z ->
            0 <= (Pp o).[Z.of_nat n]).
  { induction n as [|n IH]; intros Hn.
    - apply Rlt_le, H0.
    - replace (Z.of_nat (Datatypes.S n)) with (Z.of_nat n + 1)%Z by lia.
      apply (Hstep (Z.of_nat n)); [lia | apply IH; lia]. }
  split; [exact H0|]. intros t Ht.
  assert (HPp : 0 <= (Pp o).[t]).
  { replace t with (Z.of_nat (Z.to_nat t)) by lia. apply Hind. lia. }
  split; [exact HPp|]. apply Hstep; assumption.
Qed.
End RealFilter.

Lemma kf_total_is_sum_witness :
  returns (kf scenario)
    (fun o => ll o = sum_over (fun t => (llt o).[t]) 0 (T scenario)).
Proof.
  destruct (kf_returns scenario _ _ _ _ scenario_ready) as (o & Ho & _).
  exists o. split; [exact Ho | exact (kf_total_is_sum scenario o Ho)].
Defined.

Lemma kf_divisions_defined_witness :
  returns (kf scenario) (fun o =>
    (0 < (Pp o).[0])%R
    /\ forall t, 0 <= t < T scenario ->
         (0 <= (Pp o).[t] /\ 0 < (S_ o).[t] /\ 0 <= (Pf o).[t]
          /\ 0 <= (Pp o).[t + 1])%R).
Proof.
  apply (kf_divisions_defined scenario 0 (9 / 10) (1 / 2) (1 / 2))%R.
  - exact scenario_ready.
  - lra.
Defined.

(** [par[2]] and [par[3]] are 1e-200 in binary64: neither is zero, their
    squares are, and at the second turn the filter divides 0.0 by 0.0,
    whatever the logarithm answers. *)
Lemma underflow64_any_log (log : float -> float) :
  returns (kf (H := binary64 log) underflow64) (fun o =>
    PrimFloat.eqb (r o) 0%float = false
    /\ R_ o = 0%float
    /\ S_ o !! 1%nat = Some 0%float
    /\ PrimFloat.is_nan <$> K o !! 1%nat = Some true).
Proof.
  eexists. split; [vm_compute; reflexivity|].
  repeat split; vm_compute; reflexivity.
Qed.

(** C10, counterexample.  In binary64, [par = [0, 0.9, 1e-200, 1e-200]]
    has [par[3]] not zero, and the filter returns with [R = 0.0],
    [S_1 = 0.0] and the gain [K_1], the quotient of 0.0 by 0.0, a NaN. *)
Lemma underflow64_divides_zero_by_zero :
  returns (kf (H := binary64 log_unread) underflow64) (fun o =>
    PrimFloat.eqb (r o) 0%float = false
    /\ R_ o = 0%float
    /\ S_ o !! 1%nat = Some 0%float
    /\ PrimFloat.is_nan <$> K o !! 1%nat = Some true).
Proof. exact (underflow64_any_log log_unread). Qed.


(** ** The claims about the smoother *)

Lemma scenario_rts_ready :
  rts_ready scenario 0%R (9 / 10)%R (1 / 2)%R (1 / 2)%R.
Proof. split; [exact scenario_ready | cbn; lia ..]. Qed.

Lemma two_steps_ready :
  rts_ready two_steps 0%R (9 / 10)%R (1 / 2)%R (1 / 2)%R.
Proof. split; [split; [reflexivity | cbn; lia ..] | cbn; lia ..]. Qed.

Lemma degenerate_ready :
  rts_ready degenerate 0%R (9 / 10)%R 0%R (1 / 2)%R.
Proof. split; [split; [reflexivity | cbn; lia ..] | cbn; lia ..]. Qed.

Lemma nothing_inferred_ready :
  rts_ready nothing_inferred 0%R (9 / 10)%R (1 / 2)%R (1 / 2)%R.
Proof. split; [split; [reflexivity | cbn; lia ..] | cbn; lia ..]. Qed.

Section SmootherClaims.
Context {F : Type} `{Scalar F}.
Local Open Scope scalar_scope.

(** C3.  On every run with [T >= 2] the smoother returns, and its arrays
    satisfy the backward pass: the boundary [xhats[T-1] = xhatf[T-1]],
    [Ps[T-1] = Pf[T-1]]; for [t = T-2 .. 1] the gain [J_t], the smoothed
    mean and the smoothed variance; [M[T-1] = (1 - K[T-1]) * A * Pf[T-1]];
    and for [t = T-2 .. 1] the lag-one covariance [M_t], read off
    [J[t-1]]. *)
Theorem rts_backward_pass_exact (sys : system F) (m0 A0 q0 r0 : F) :
  rts_ready sys m0 A0 q0 r0 ->
  returns (rts sys) (fun o =>
    kf_params m0 A0 q0 r0 o /\ backward_pass sys o).
Proof.
  intros Hready.
  eapply returns_weaken; [apply (rts_returns sys m0 A0 q0 r0 Hready)|].
  intros o [Hpar _ Hsm _ _ _ _]. split; [exact Hpar|].
  destruct Hsm as [_ _ _ _ Hxl HPl Hbw _ _ _ HMl Hlag].
  split; try assumption.
  - intros t Ht. apply (bw_J _ _ _ (Hbw t Ht)).
  - intros t Ht. apply (bw_xhats _ _ _ (Hbw t Ht)).
  - intros t Ht. apply (bw_Ps _ _ _ (Hbw t Ht)).
Qed.

(** C4.  On every run with [T >= 3], when [M_1] is computed [J_0] holds
    the 0.0 of its allocation, not [Pf_0 * A / Pp_1]: the backward loop
    stops at [t = 1] and no turn of it writes [J[0]].  So [M_1] is computed
    from zeros. *)
Theorem rts_J_0_never_written (sys : system F) (m0 A0 q0 r0 : F) :
  rts_ready sys m0 A0 q0 r0 -> (3 <= T sys)%Z ->
  returns (rts sys) (fun o =>
    (J o).[0] = f0
    /\ (M o).[1]
       = (Pf o).[1] * f0 + f0 * ((M o).[2] - A o * (Pf o).[1]) * f0).
Proof.
  intros Hready HT.
  eapply returns_weaken; [apply (rts_returns sys m0 A0 q0 r0 Hready)|].
  intros o [_ _ Hsm _ _ _ _].
  split; [apply (sm_J_0 _ _ _ Hsm)|].
  pose proof (sm_lag _ _ _ Hsm 1 ltac:(lia)) as HM1.
  unfold lag_written in HM1. change (1 - 1)%Z with 0%Z in HM1.
  change (1 + 1)%Z with 2%Z in HM1.
  rewrite (sm_J_0 _ _ _ Hsm) in HM1. exact HM1.
Qed.

(** C6, amended.  On every run with [T >= 2], [T = 2] included, and at
    most four parameters to infer, on a model object with four parameters
    and at least [T] observations and inputs, the smoother returns;
    [xhats] and [Ps] come back as arrays of [T] numbers, and their entries
    at index 0, which the backward loop leaves unassigned, carry no mark:
    they hold the 0.0 of the allocation.  (With more than four parameters
    to infer the run raises IndexError, as C8 says.) *)
Theorem rts_index_0_left_zero (sys : system F) (m0 A0 q0 r0 : F) :
  rts_ready sys m0 A0 q0 r0 ->
  returns (rts sys) (fun o =>
    Z.of_nat (length (xhats o)) = T sys
    /\ Z.of_nat (length (Ps o)) = T sys
    /\ (xhats o).[0] = f0 /\ (Ps o).[0] = f0).
Proof.
  intros Hready. pose proof Hready as [_ HT _].
  eapply returns_weaken; [apply (rts_returns sys m0 A0 q0 r0 Hready)|].
  intros o [_ _ Hsm _ _ _ _].
  rewrite (sm_len_xhats _ _ _ Hsm), (sm_len_Ps _ _ _ Hsm).
  split; [lia|]. split; [lia|].
  split; [apply (sm_xhats_0 _ _ _ Hsm) | apply (sm_Ps_0 _ _ _ Hsm)].
Qed.

(** C7, amended.  With [sigma_v = 0] ([par[2]] is 0.0, so [q] and [Q]
    are zero) the smoother raises nothing: it returns, with a gradient of
    [nParInference] components computed through [q**(-1)], [q**(-2)] and
    [q**(-3)] like any other. *)
Theorem rts_degenerate_returns (sys : system F) (m0 A0 r0 : F) :
  rts_ready sys m0 A0 f0 r0 -> (1 <= nParInference sys)%Z ->
  returns (rts sys) (fun o =>
    q o = f0 /\ Q o = f0 ** 2
    /\ Z.of_nat (length (gradient o)) = nParInference sys).
Proof.
  intros Hready Hn.
  eapply returns_weaken; [apply (rts_returns sys m0 A0 f0 r0 Hready)|].
  intros o [Hpar _ _ _ _ Hlen _].
  split; [apply (par_q _ _ _ _ _ Hpar)|].
  split; [apply (par_Q _ _ _ _ _ Hpar)|].
  rewrite Hlen by lia. lia.
Qed.

End SmootherClaims.

(** C6, counterexample.  With two time steps the smoother returns, and
    index 0 of [xhats] and of [Ps] holds the number zero. *)
Lemma two_steps_index_0_holds_zero :
  returns (rts two_steps) (fun o =>
    (xhats o).[0] = 0%R /\ (Ps o).[0] = 0%R).
Proof.
  eapply returns_weaken; [apply (rts_returns two_steps _ _ _ _ two_steps_ready)|].
  intros o [_ _ Hsm _ _ _ _].
  split; [apply (sm_xhats_0 _ _ _ Hsm) | apply (sm_Ps_0 _ _ _ Hsm)].
Qed.

(** C7, counterexample.  The scenario with [sigma_v = 0] returns. *)
Lemma degenerate_returns :
  returns (rts degenerate) (fun o => q o = 0%R).
Proof.
  eapply returns_weaken; [apply (rts_returns degenerate _ _ _ _ degenerate_ready)|].
  intros o [Hpar _ _ _ _ _ _]. apply (par_q _ _ _ _ _ Hpar).
Qed.

(** C8, counterexample.  With [nParInference = 0], outside [1,4], the
    smoother runs through and returns an empty gradient. *)
Lemma nothing_inferred_returns :
  returns (rts nothing_inferred) (fun o => gradient o = []).
Proof.
  eapply returns_weaken;
    [apply (rts_returns nothing_inferred _ _ _ _ nothing_inferred_ready)|].
  intros o [_ _ _ _ _ Hlen _].
  specialize (Hlen ltac:(cbn; lia)). destruct (gradient o); [reflexivity|].
  cbn in Hlen. lia.
Qed.

Section GradientClaim.
Context {F : Type} `{ExactArith F}.
Local Open Scope scalar_scope.

Lemma np_sum_leading_zero (a : list F) : np_sum (f0 :: a) = np_sum a.
Proof. unfold np_sum. cbn [foldl]. rewrite add_0_l. reflexivity. Qed.

(** What the gradient loop writes in row [i], column [t], is the partial
    score of the specification: its squares are products. *)
Lemma column_written_score (sys : system F) (o : rts_self F) (i : nat) (t : Z) :
  (i < 4)%nat ->
  column_written sys o o i t = score sys o (Z.of_nat i) t.
Proof.
  intros Hi. destruct i as [|[|[|[|i]]]]; [| | | |lia];
    cbn [Z.of_nat Pos.of_succ_nat Pos.succ];
    unfold column_written, score, d_mu, d_phi, d_sigv, d_sige,
      px, psi, eta, eta1, kappa;
    rewrite ?pow_2; reflexivity.
Qed.

Lemma row_written_score (sys : system F) (o : rts_self F) (i : nat) :
  (i < 4)%nat ->
  row_written sys o o i
  = f0 :: (score sys o (Z.of_nat i) <$> py_range 1 (T sys)).
Proof.
  intros Hi. unfold row_written. f_equal.
  apply list_fmap_ext. intros k t _. apply column_written_score, Hi.
Qed.

(** C2.  On every run with [T >= 2] and [nParInference] in [1,4] the
    smoother returns; component [i] of the gradient is [dprior1(i)] plus
    the sum over [t = 1 .. T-1] of the partial score [i] at [t], built from
    the sufficient statistics [kappa], [eta], [eta1], [psi] and [px] of the
    smoothed arrays; the gradient has [nParInference] components, and the
    per-time matrix beside it has the same rows, a zero in column 0 and the
    score at [t] in column [t]. *)
Theorem rts_gradient_built (sys : system F) (m0 A0 q0 r0 : F) :
  rts_ready sys m0 A0 q0 r0 -> (1 <= nParInference sys)%Z ->
  returns (rts sys) (fun o =>
    kf_params m0 A0 q0 r0 o /\ gradient_built sys o).
Proof.
  intros Hready Hn. pose proof Hready as [_ _ Hn4].
  eapply returns_weaken; [apply (rts_returns sys m0 A0 q0 r0 Hready)|].
  intros o [Hpar _ _ Hrows Hg1 Hlen Hgrad]. split; [exact Hpar|]. split.
  - rewrite Hlen by lia. lia.
  - intros i Hi. unfold entry. rewrite Hgrad by lia.
    rewrite row_written_score by lia. rewrite np_sum_leading_zero.
    rewrite np_sum_range, Z2Nat.id by lia. reflexivity.
  - rewrite Hg1, Hrows. unfold py_slice0.
    cbn [fmap list_fmap length].
    rewrite !row_written_score by lia.
    assert (Hcases : nParInference sys = 1%Z \/ nParInference sys = 2%Z
                     \/ nParInference sys = 3%Z \/ nParInference sys = 4%Z)
      by lia.
    destruct Hcases as [-> | [-> | [-> | ->]]]; reflexivity.
Qed.

End GradientClaim.

Lemma rts_gradient_built_witness :
  returns (rts scenario) (fun o =>
    kf_params 0%R (9 / 10)%R (1 / 2)%R (1 / 2)%R o /\ gradient_built scenario o).
Proof.
  apply (rts_gradient_built scenario).
  - exact scenario_rts_ready.
  - cbn. lia.
Defined.

Section Preconditions.
Context {F : Type} `{Scalar F}.

Lemma raises_bind {X Y : Type} (c : result X) (k : X -> result Y) (e : exn) :
  raises c e -> raises (let* x := c in k x) e.
Proof. unfold raises. intros ->. reflexivity. Qed.

Lemma returns_then_raises {X Y : Type} (c : result X) (k : X -> result Y)
    (P : X -> Prop) (e : exn) :
  returns c P -> (forall x, P x -> raises (k x) e) ->
  raises (let* x := c in k x) e.
Proof. intros (x & -> & HP) Hk. cbn. apply Hk, HP. Qed.

Lemma for_each_app {St : Type} (body : St -> Z -> result St)
    (l1 l2 : list Z) (st : St) :
  for_each body (l1 ++ l2) st
  = let* s := for_each body l1 st in for_each body l2 s.
Proof.
  revert st. induction l1 as [|t l1 IH]; intros st; [reflexivity|].
  cbn [for_each app]. destruct (body st t) as [s|e]; cbn [bind];
    [apply IH | reflexivity].
Qed.

Lemma rts_init_negative (sys : system F) :
  T sys < 0 -> fails_before_backward sys ValueError.
Proof.
  intros HT.
  assert (Hinit : raises (rts_init sys) ValueError).
  { unfold raises, rts_init, kf, np_zeros.
    destruct (Z.ltb_spec (T sys) 0); [reflexivity | lia]. }
  split; [exact Hinit|]. unfold rts. apply raises_bind, Hinit.
Qed.

Lemma rts_init_empty (sys : system F) (m0 A0 q0 r0 : F) :
  par sys = [m0; A0; q0; r0] -> T sys = 0 ->
  fails_before_backward sys IndexError.
Proof.
  intros Hpar HT.
  assert (Hready : kf_ready sys m0 A0 q0 r0) by (split; [assumption | lia ..]).
  assert (Hinit : raises (rts_init sys) IndexError).
  { unfold rts_init.
    eapply returns_then_raises; [apply (kf_returns sys _ _ _ _ Hready)|].
    intros self (_ & Hinv & _).
    pose proof (inv_shapes _ _ _ _ _ _ _ _ Hinv) as Hsh.
    rewrite !np_zeros_ok by lia. cbn [bind].
    unfold raises, np_get. rewrite (shape_Pf _ _ Hsh), HT.
    rewrite np_index_empty. reflexivity. }
  split; [exact Hinit|]. unfold rts. apply raises_bind, Hinit.
Qed.

Lemma rts_prior_unbound (sys : system F) (self : kf_self F)
    (v : rts_arrays F) :
  gradient0 v = None ->
  raises (let* v' := rts_prior sys v in rts_output sys self v')
         UnboundLocalError.
Proof.
  intros Hnone. unfold raises, rts_prior, py_range.
  destruct (Z_lt_le_dec 0 (nParInference sys - 0)) as [Hpos|Hneg].
  - rewrite seqZ_cons by lia. cbn [for_each].
    unfold rts_prior_step at 1. rewrite Hnone. reflexivity.
  - rewrite seqZ_nil by lia. cbn [for_each bind].
    unfold rts_output. rewrite Hnone. reflexivity.
Qed.

Lemma rts_single_step (sys : system F) (m0 A0 q0 r0 : F) :
  kf_ready sys m0 A0 q0 r0 -> T sys = 1 ->
  fails_after_backward sys UnboundLocalError.
Proof.
  intros Hready HT.
  destruct (rts_init_returns sys m0 A0 q0 r0 Hready ltac:(lia))
    as ([self v] & Hinit & Hst).
  destruct Hst as [_ Hinv HJ HM Hxs HPs Hg0]. cbn [fst snd] in *.
  destruct (inv_shapes _ _ _ _ _ _ _ _ Hinv) as [].
  assert (Hbw : rts_backward sys self v = Ok v).
  { unfold rts_backward. rewrite HT. reflexivity. }
  split.
  - rewrite Hinit. cbn [bind fst snd]. rewrite Hbw. apply returns_ok. exact I.
  - unfold raises, rts. rewrite Hinit. cbn [bind fst snd]. rewrite Hbw.
    cbn [bind]. unfold rts_lag, rts_lag_last.
    assert (HMlen : length (M v) = Z.to_nat (T sys)) by (rewrite HM; len).
    np_run. rewrite HT. change (py_range_down (1 - 2) 0) with (@nil Z).
    cbn [for_each bind]. unfold rts_gradient, np_zeros2.
    rewrite np_zeros_ok by lia. cbn [bind]. rewrite HT.
    change (py_range 1 1) with (@nil Z). cbn [for_each bind].
    apply rts_prior_unbound. cbn [gradient0]. exact Hg0.
Qed.

(** The prior loop runs off the end of [gradient0] when more than four
    parameters are asked for. *)
Lemma rts_prior_beyond (sys : system F) (v : rts_arrays F) (g0 : list F) :
  gradient0 v = Some g0 -> length g0 = 4%nat -> 4 < nParInference sys ->
  raises (rts_prior sys v) IndexError.
Proof.
  intros Hg0 Hlen Hn. unfold raises, rts_prior, py_range.
  replace (nParInference sys - 0) with (4 + (nParInference sys - 4)) by lia.
  rewrite seqZ_app by lia. rewrite for_each_app.
  eapply returns_then_raises.
  - apply (for_range_returns _ (prior_inv sys v g0) 0 4).
    + split; try reflexivity. exists g0. split; [exact Hg0|].
      split; [reflexivity|]. split; [intros i Hi; lia | reflexivity].
    + intros n s Hlt Hs. apply prior_step_inv; [lia | exact Hs].
  - intros s [_ _ _ _ _ (g & Hg & Hglen & _)].
    rewrite seqZ_cons by lia. cbn [for_each].
    unfold rts_prior_step at 1. rewrite Hg.
    unfold np_get. rewrite np_index_beyond by lia. reflexivity.
Qed.

Lemma rts_too_many_parameters (sys : system F) (m0 A0 q0 r0 : F) :
  kf_ready sys m0 A0 q0 r0 -> 2 <= T sys -> 4 < nParInference sys ->
  fails_after_backward sys IndexError.
Proof.
  intros Hready HT Hn. pose proof Hready as [_ _ Hy Hu].
  destruct (rts_init_returns sys m0 A0 q0 r0 Hready ltac:(lia))
    as (sv & Hinit & Hst).
  destruct (rts_backward_returns _ _ _ _ _ _ HT Hst) as (v1 & Hbw & Hbi).
  split.
  - rewrite Hinit. cbn [bind]. rewrite Hbw. apply returns_ok. exact I.
  - unfold rts. rewrite Hinit. cbn [bind]. rewrite Hbw. cbn [bind].
    eapply returns_then_raises;
      [apply (rts_lag_smoothed _ _ _ _ _ _ _ HT Hst Hbi)|].
    intros v [Hsm _].
    eapply returns_then_raises;
      [apply (rts_gradient_returns sys sv.1 v HT Hy Hu Hsm)|].
    intros v' Hgd. apply raises_bind.
    apply (rts_prior_beyond sys v' _ (gd_g0 _ _ _ _ Hgd)); [|exact Hn].
    rewrite length_fmap. unfold py_slice0.
    rewrite (gd_rows _ _ _ _ Hgd). cbn [fmap list_fmap length].
    destruct (Z.ltb_spec (nParInference sys) 0); [lia|].
    rewrite length_take. cbn [length]. lia.
Qed.

End Preconditions.

Section PreconditionClaim.
Context {F : Type} `{Scalar F}.

(** C8, amended.  The smoother checks no precondition.  A negative [T]
    fails in the first allocation and [T = 0] at the boundary assignment,
    both before the backward loop; [T = 1] fails only after the backward
    loop, where [gradient0] is read unbound; more than four inferred
    parameters, with [T >= 2], fail only after the backward loop, in the
    prior loop; and no parameter to infer, or a negative number of them,
    with [T >= 2], does not fail. *)
Theorem rts_checks_no_precondition (sys : system F) (m0 A0 q0 r0 : F) :
  par sys = [m0; A0; q0; r0] ->
  T sys <= Z.of_nat (length (y sys)) ->
  T sys <= Z.of_nat (length (u sys)) ->
  (T sys < 0 -> fails_before_backward sys ValueError)
  /\ (T sys = 0 -> fails_before_backward sys IndexError)
  /\ (T sys = 1 -> fails_after_backward sys UnboundLocalError)
  /\ (2 <= T sys -> 4 < nParInference sys ->
      fails_after_backward sys IndexError)
  /\ (2 <= T sys -> nParInference sys <= 0 ->
      returns (rts sys) (fun _ => True)).
Proof.
  intros Hpar Hy Hu.
  split; [apply rts_init_negative|].
  split; [apply (rts_init_empty sys m0 A0 q0 r0 Hpar)|].
  split; [|split].
  - intros HT. apply (rts_single_step sys m0 A0 q0 r0); [|exact HT].
    split; [assumption | lia | assumption ..].
  - intros HT Hn. apply (rts_too_many_parameters sys m0 A0 q0 r0); try assumption.
    split; [assumption | lia | assumption ..].
  - intros HT Hn.
    eapply returns_weaken; [apply (rts_returns sys m0 A0 q0 r0)|auto].
    split; [split; [assumption | lia | assumption ..] | assumption | lia].
Qed.

End PreconditionClaim.

Lemma rts_checks_no_precondition_witness :
  (T nothing_inferred < 0 -> fails_before_backward nothing_inferred ValueError)
  /\ (T nothing_inferred = 0 -> fails_before_backward nothing_inferred IndexError)
  /\ (T nothing_inferred = 1 ->
      fails_after_backward nothing_inferred UnboundLocalError)
  /\ (2 <= T nothing_inferred -> 4 < nParInference nothing_inferred ->
      fails_after_backward nothing_inferred IndexError)
  /\ (2 <= T nothing_inferred -> nParInference nothing_inferred <= 0 ->
      returns (rts nothing_inferred) (fun _ => True)).
Proof.
  apply (rts_checks_no_precondition nothing_inferred
           0 (9 / 10) (1 / 2) (1 / 2))%R.
  - reflexivity.
  - cbn. lia.
  - cbn. lia.
Defined.

(** ** The smoother in exact arithmetic *)

Section RealSmoother.
Local Open Scope R_scope.

Lemma filtered_variance_pos (Pp R : R) :
  0 < Pp -> 0 < R ->
  0 < Pp - Pp / (Pp + R) * (Pp + R) * (Pp / (Pp + R)).
Proof.
  intros HPp HR.
  replace (Pp - Pp / (Pp + R) * (Pp + R) * (Pp / (Pp + R)))
    with (Pp * R / (Pp + R)) by (field; lra).
  apply Rmult_lt_0_compat; [nra|]. apply Rinv_0_lt_compat. lra.
Qed.

(** C4, at the scenario of the specification ([par = [0, 0.9, 0.5, 0.5]],
    [T = 5]), in exact arithmetic: the smoother returns with [J[0]] zero,
    while the value the backward recursion has for index 0,
    [Pf_0 * A / Pp_1], is positive. *)
Theorem scenario_J_0_is_zero :
  returns (rts scenario) (fun o =>
    (J o).[0] = 0 /\ 0 < (Pf o).[0] * A o / (Pp o).[1]).
Proof.
  eapply returns_weaken;
    [apply (rts_returns scenario _ _ _ _ scenario_rts_ready)|].
  intros o [Hpar Hinv Hsm _ _ _ _].
  split; [apply (sm_J_0 _ _ _ Hsm)|].
  destruct (recursion_of_inv scenario _ _ _ _ o Hpar Hinv 0%Z ltac:(cbn; lia))
    as [eS eK _ _ ePf _ ePp _].
  change (0 + 1)%Z with 1%Z in ePp.
  assert (H0 : (Pp o).[0] = 1 / 100000).
  { unfold entry. change (Z.to_nat 0) with 0%nat.
    apply (inv_Pp0 _ _ _ _ _ _ _ _ Hinv). }
  assert (HR : 0 < R_ o).
  { rewrite (par_R _ _ _ _ _ Hpar), pow_2. cbn. lra. }
  assert (HQ : 0 < Q o).
  { rewrite (par_Q _ _ _ _ _ Hpar), pow_2. cbn. lra. }
  assert (HA : A o = 9 / 10) by apply (par_A _ _ _ _ _ Hpar).
  cbn in eS, eK, ePf, ePp.
  assert (HPf : 0 < (Pf o).[0]).
  { rewrite ePf, eK, eS. apply filtered_variance_pos; [rewrite H0; lra | exact HR]. }
  assert (HPp : 0 < (Pp o).[1]) by (rewrite ePp, HA; nra).
  apply Rmult_lt_0_compat; [rewrite HA; nra|]. apply Rinv_0_lt_compat, HPp.
Qed.
End RealSmoother.

(** ** Runs in binary64 *)

(** The scenario in binary64: [J[0]] and with it [M[1]] are 0.0, where
    the backward recursion would give a [J_0] that is not zero. *)
Lemma scenario64_J_0 (log : float -> float) :
  returns (rts (H := binary64 log) scenario64) (fun o =>
    J o !! 0%nat = Some 0%float
    /\ M o !! 1%nat = Some 0%float
    /\ exists Pf_0 Pp_1,
         Pf o !! 0%nat = Some Pf_0 /\ Pp o !! 1%nat = Some Pp_1
         /\ PrimFloat.eqb (PrimFloat.div (PrimFloat.mul Pf_0 (A o)) Pp_1)
              0%float = false).
Proof.
  eexists. split; [vm_compute; reflexivity|].
  split; [vm_compute; reflexivity|]. split; [vm_compute; reflexivity|].
  do 2 eexists. split; [vm_compute; reflexivity|].
  split; vm_compute; reflexivity.
Qed.

(** [sigma_v = 0] in binary64: [q**(-2)] is infinite, and the first three
    components of the gradient come back as NaN. *)
Lemma degenerate64_gradient_nan (log : float -> float) :
  returns (rts (H := binary64 log) degenerate64) (fun o =>
    PrimFloat.is_nan <$> gradient o = [true; true; true; false]).
Proof.
  eexists. split; [vm_compute; reflexivity|]. vm_compute. reflexivity.
Qed.

(** ** The claims at the scenario of the specification *)

Lemma rts_backward_pass_exact_witness :
  returns (rts scenario) (fun o =>
    kf_params 0%R (9 / 10)%R (1 / 2)%R (1 / 2)%R o
    /\ backward_pass scenario o).
Proof.
  apply (rts_backward_pass_exact scenario). exact scenario_rts_ready.
Defined.

Lemma rts_J_0_never_written_witness :
  returns (rts scenario) (fun o =>
    (J o).[0] = f0
    /\ (M o).[1]
       = (Pf o).[1] * f0 + f0 * ((M o).[2] - A o * (Pf o).[1]) * f0)%S.
Proof.
  apply (rts_J_0_never_written scenario 0 (9 / 10) (1 / 2) (1 / 2))%R.
  - exact scenario_rts_ready.
  - cbn. lia.
Defined.

Lemma rts_index_0_left_zero_witness :
  returns (rts two_steps) (fun o =>
    Z.of_nat (length (xhats o)) = T two_steps
    /\ Z.of_nat (length (Ps o)) = T two_steps
    /\ (xhats o).[0] = f0 /\ (Ps o).[0] = f0).
Proof.
  apply (rts_index_0_left_zero two_steps 0 (9 / 10) (1 / 2) (1 / 2))%R.
  exact two_steps_ready.
Defined.

Lemma rts_degenerate_returns_witness :
  returns (rts degenerate) (fun o =>
    q o = f0 /\ Q o = (f0 ** 2)%S
    /\ Z.of_nat (length (gradient o)) = nParInference degenerate).
Proof.
  apply (rts_degenerate_returns degenerate 0 (9 / 10) (1 / 2))%R.
  - exact degenerate_ready.
  - cbn. lia.
Defined.

(** ** More of the filter in exact arithmetic *)

Section RealFilterMore.
Local Open Scope R_scope.

(** The signs of the variances in exact arithmetic, from the loop
    invariant. *)
Lemma real_variances (sys : system R) (m0 A0 q0 r0 : R) (o : kf_self R) :
  kf_params m0 A0 q0 r0 o ->
  kf_inv sys m0 A0 f1 (q0 ** 2)%S (r0 ** 2)%S (Z.to_nat (T sys)) o ->
  r0 <> 0 ->
  0 < R_ o /\ 0 <= Q o
  /\ forall t, (0 <= t < T sys)%Z ->
       0 <= (Pp o).[t] /\ 0 < (S_ o).[t] /\ 0 <= (Pf o).[t].
Proof.
  intros Hpar Hinv Hr.
  pose proof (recursion_of_inv sys m0 A0 q0 r0 o Hpar Hinv) as Hrec.
  assert (HR : 0 < R_ o).
  { rewrite (par_R _ _ _ _ _ Hpar), pow_2. cbn. nra. }
  assert (HQ : 0 <= Q o).
  { rewrite (par_Q _ _ _ _ _ Hpar), pow_2. cbn. nra. }
  assert (H0 : 0 < (Pp o).[0]).
  { unfold entry. change (Z.to_nat 0) with 0%nat.
    rewrite (inv_Pp0 _ _ _ _ _ _ _ _ Hinv). cbn. lra. }
  assert (Hstep : forall t, (0 <= t < T sys)%Z -> 0 <= (Pp o).[t] ->
            0 < (S_ o).[t] /\ 0 <= (Pf o).[t] /\ 0 <= (Pp o).[t + 1]).
  { intros t Ht HPp. destruct (Hrec t Ht) as [eS eK _ _ ePf _ ePp _].
    cbn in eS, eK, ePf, ePp.
    assert (HS : 0 < (S_ o).[t]) by (rewrite eS; lra).
    assert (HPf : 0 <= (Pf o).[t]).
    { rewrite ePf, eK, eS. apply filtered_variance; assumption. }
    split; [exact HS|]. split; [exact HPf|]. rewrite ePp. nra. }
  assert (Hind : forall n : nat, (Z.of_nat n < T sys)%Z ->
            0 <= (Pp o).[Z.of_nat n]).
  { induction n as [|n IH]; intros Hn.
    - apply Rlt_le, H0.
    - replace (Z.of_nat (Datatypes.S n)) with (Z.of_nat n + 1)%Z by lia.
      apply (Hstep (Z.of_nat n)); [lia | apply IH; lia]. }
  split; [exact HR|]. split; [exact HQ|]. intros t Ht.
  assert (HPp : 0 <= (Pp o).[t]).
  { replace t with (Z.of_nat (Z.to_nat t)) by lia. apply Hind. lia. }
  split; [exact HPp|]. destruct (Hstep t Ht HPp) as (? & ? & _). auto.
Qed.

(** X1.  In exact arithmetic with [par[3]] not zero, at every time the
    Kalman gain lies in [[0,1)], the filtered variance is the gain times [R], and
    filtering never raises the variance: [0 <= Pf_t <= Pp_t]. *)
Theorem kf_gain_shrinks_variance (sys : system R) (m0 A0 q0 r0 : R) :
  kf_ready sys m0 A0 q0 r0 -> r0 <> 0 ->
  returns (kf sys) (fun o =>
    forall t, (0 <= t < T sys)%Z ->
      0 <= (K o).[t] < 1
      /\ (Pf o).[t] = (K o).[t] * R_ o
      /\ 0 <= (Pf o).[t] <= (Pp o).[t]).
Proof.
  intros Hready Hr.
  eapply returns_weaken; [apply (kf_returns sys m0 A0 q0 r0 Hready)|].
  intros o (Hpar & Hinv & _).
  destruct (real_variances sys m0 A0 q0 r0 o Hpar Hinv Hr) as (HR & HQ & Hsign).
  intros t Ht. destruct (Hsign t Ht) as (HPp & HS & HPf).
  destruct (recursion_of_inv sys m0 A0 q0 r0 o Hpar Hinv t Ht)
    as [eS eK _ _ ePf _ _ _].
  cbn in eS, eK, ePf.
  assert (HK : (K o).[t] * (S_ o).[t] = (Pp o).[t]).
  { rewrite eK. field. lra. }
  assert (HK0 : 0 <= (K o).[t]).
  { rewrite eK. apply Rmult_le_pos; [exact HPp|].
    apply Rlt_le, Rinv_0_lt_compat, HS. }
  assert (HK1 : (K o).[t] < 1).
  { apply (Rmult_lt_reg_r ((S_ o).[t])); [exact HS|]. rewrite HK. lra. }
  assert (HPfK : (Pf o).[t] = (K o).[t] * R_ o).
  { rewrite ePf, HK. rewrite eS in HK. nra. }
  split; [split; assumption|]. split; [exact HPfK|].
  split; [exact HPf|]. rewrite ePf, HK. nra.
Qed.

(** X2.  In exact arithmetic with [par[3]] not zero, the innovation variance
    never falls below the observation noise [R], nor the next predicted
    variance below the process noise [Q]. *)
Theorem kf_noise_floors (sys : system R) (m0 A0 q0 r0 : R) :
  kf_ready sys m0 A0 q0 r0 -> r0 <> 0 ->
  returns (kf sys) (fun o =>
    forall t, (0 <= t < T sys)%Z ->
      R_ o <= (S_ o).[t] /\ Q o <= (Pp o).[t + 1]).
Proof.
  intros Hready Hr.
  eapply returns_weaken; [apply (kf_returns sys m0 A0 q0 r0 Hready)|].
  intros o (Hpar & Hinv & _).
  destruct (real_variances sys m0 A0 q0 r0 o Hpar Hinv Hr) as (HR & HQ & Hsign).
  intros t Ht. destruct (Hsign t Ht) as (HPp & HS & HPf).
  destruct (recursion_of_inv sys m0 A0 q0 r0 o Hpar Hinv t Ht)
    as [eS _ _ _ _ _ ePp _].
  cbn in eS, ePp. split; [rewrite eS; lra | rewrite ePp; nra].
Qed.

(** X3.  In exact arithmetic with [par[3]] not zero, the filtered mean lies
    between the predicted mean and the observation. *)
Theorem kf_filtered_mean_between (sys : system R) (m0 A0 q0 r0 : R) :
  kf_ready sys m0 A0 q0 r0 -> r0 <> 0 ->
  returns (kf sys) (fun o =>
    forall t, (0 <= t < T sys)%Z ->
      Rmin ((xhatp o).[t]) ((y sys).[t]) <= (xhatf o).[t]
      <= Rmax ((xhatp o).[t]) ((y sys).[t])).
Proof.
  intros Hready Hr.
  eapply returns_weaken; [apply (kf_returns sys m0 A0 q0 r0 Hready)|].
  intros o (Hpar & Hinv & _).
  destruct (real_variances sys m0 A0 q0 r0 o Hpar Hinv Hr) as (HR & HQ & Hsign).
  intros t Ht. destruct (Hsign t Ht) as (HPp & HS & HPf).
  destruct (recursion_of_inv sys m0 A0 q0 r0 o Hpar Hinv t Ht)
    as [eS eK eyp exf _ _ _ _].
  cbn in eS, eK, eyp, exf.
  assert (HK : (K o).[t] * (S_ o).[t] = (Pp o).[t]).
  { rewrite eK. field. lra. }
  assert (HK0 : 0 <= (K o).[t]).
  { rewrite eK. apply Rmult_le_pos; [exact HPp|].
    apply Rlt_le, Rinv_0_lt_compat, HS. }
  assert (HK1 : (K o).[t] < 1).
  { apply (Rmult_lt_reg_r ((S_ o).[t])); [exact HS|]. rewrite HK. lra. }
  rewrite exf, eyp.
  generalize dependent ((K o).[t]). intros k _ _ Hk0 Hk1.
  generalize ((xhatp o).[t]) ((y sys).[t]). intros a b.
  unfold Rmin, Rmax. destruct (Rle_dec a b); split; nra.
Qed.

(** A sum of terms that are at most [b]. *)
Lemma np_sum_le (l : list R) (a b : R) :
  Forall (fun x => x <= b) l ->
  foldl Rplus a l <= a + INR (length l) * b.
Proof.
  intros Hall. revert a. induction Hall as [|x l Hx Hall IH]; intros a.
  - cbn. lra.
  - cbn [foldl]. specialize (IH (a + x)).
    change (length (x :: l)) with (Datatypes.S (length l)).
    rewrite S_INR. lra.
Qed.

(** X4.  In exact arithmetic with [par[3]] not zero, no term of the
    log-likelihood exceeds the logarithm of the peak density of the
    observation noise, [-0.5 * ln(2 pi R)], and so the total is at most
    [T] times that. *)
Theorem kf_likelihood_bounded (sys : system R) (m0 A0 q0 r0 : R) :
  kf_ready sys m0 A0 q0 r0 -> r0 <> 0 ->
  returns (kf sys) (fun o =>
    (forall t, (0 <= t < T sys)%Z ->
       (llt o).[t] <= - (1 / 2) * ln (2 * PI * R_ o))
    /\ ll o <= IZR (T sys) * (- (1 / 2) * ln (2 * PI * R_ o))).
Proof.
  intros Hready Hr. pose proof Hready as [_ HT _ _].
  eapply returns_weaken; [apply (kf_returns sys m0 A0 q0 r0 Hready)|].
  intros o (Hpar & Hinv & Hll).
  destruct (real_variances sys m0 A0 q0 r0 o Hpar Hinv Hr) as (HR & HQ & Hsign).
  pose proof (recursion_of_inv sys m0 A0 q0 r0 o Hpar Hinv) as Hrec.
  assert (Hterm : forall t, (0 <= t < T sys)%Z ->
            (llt o).[t] <= - (1 / 2) * ln (2 * PI * R_ o)).
  { intros t Ht. destruct (Hsign t Ht) as (HPp & HS & _).
    destruct (Hrec t Ht) as [eS _ _ _ _ _ _ ell]. cbn in eS, ell.
    rewrite ell.
    assert (Hpi : 0 < PI) by apply PI_RGT_0.
    assert (Hln : ln (2 * PI * R_ o) <= ln (2 * PI * (S_ o).[t])).
    { destruct (Req_dec (R_ o) ((S_ o).[t])) as [<-|Hne]; [lra|].
      apply Rlt_le, ln_increasing; [nra|]. rewrite eS in *. nra. }
    assert (Hsq : 0 <= 1 / 2 * powerRZ ((y sys).[t] - (yhatp o).[t]) 2
                       / (S_ o).[t]).
    { apply Rmult_le_pos; [|apply Rlt_le, Rinv_0_lt_compat, HS].
      unfold powerRZ. change (Pos.to_nat 2) with 2%nat. cbn [pow].
      generalize ((y sys).[t] - (yhatp o).[t]). intros d.
      assert (0 <= d * d) by nra. lra. }
    unfold powerRZ in Hsq. lra. }
  split; [exact Hterm|]. rewrite Hll. unfold np_sum.
  pose proof (inv_shapes _ _ _ _ _ _ _ _ Hinv) as Hsh.
  pose proof (shape_llt _ _ Hsh) as Hlen.
  assert (Hall : Forall (fun x => x <= - (1 / 2) * ln (2 * PI * R_ o)) (llt o)).
  { apply Forall_lookup_2. intros i x Hx.
    pose proof (lookup_lt_Some _ _ _ Hx) as Hi.
    specialize (Hterm (Z.of_nat i) ltac:(lia)).
    unfold entry in Hterm. rewrite Nat2Z.id in Hterm.
    rewrite (list_lookup_total_correct _ _ _ Hx) in Hterm. exact Hterm. }
  pose proof (np_sum_le (llt o) 0 _ Hall) as Hsum.
  rewrite Hlen, INR_IZR_INZ, Z2Nat.id in Hsum by lia.
  cbn [fadd f0 real_scalar]. lra.
Qed.


(** The filtered variance is at most the predicted one. *)
Lemma filtered_le_predicted (Pp R : R) :
  0 <= Pp -> 0 < R ->
  Pp - Pp / (Pp + R) * (Pp + R) * (Pp / (Pp + R)) <= Pp.
Proof.
  intros HPp HR.
  replace (Pp - Pp / (Pp + R) * (Pp + R) * (Pp / (Pp + R)))
    with (Pp - Pp * Pp / (Pp + R)) by (field; lra).
  assert (0 <= Pp * Pp / (Pp + R)); [|lra].
  apply Rmult_le_pos; [nra|]. apply Rlt_le, Rinv_0_lt_compat. lra.
Qed.

(** One turn of the backward loop, on the variances. *)
Lemma smoothed_variance_step (A Q Pf Pp1 Ps1 : R) :
  0 <= Pf -> 0 < Q -> Pp1 = A * Pf * A + Q -> 0 <= Ps1 <= Pp1 ->
  0 <= Pf + Pf * A / Pp1 * (Ps1 - Pp1) * (Pf * A / Pp1) <= Pf.
Proof.
  intros HPf HQ HPp1 HPs1.
  assert (Hpos : 0 < Pp1) by (rewrite HPp1; nra).
  set (J := Pf * A / Pp1).
  assert (HJ : J * Pp1 = Pf * A) by (unfold J; field; lra).
  assert (HJA : 0 <= J * A <= 1).
  { assert (E : J * A * Pp1 = Pf * A * A) by (rewrite <- HJ; ring).
    split.
    - apply (Rmult_le_reg_r Pp1); [exact Hpos|]. rewrite E. nra.
    - apply (Rmult_le_reg_r Pp1); [exact Hpos|]. rewrite E. nra. }
  assert (HJ2 : 0 <= J * J) by nra.
  split.
  - assert (Hlow : Pf - J * Pf * A <= Pf + J * (Ps1 - Pp1) * J).
    { replace (J * Pf * A) with (J * (J * Pp1)) by (rewrite HJ; ring). nra. }
    assert (0 <= Pf - J * Pf * A) by nra. lra.
  - nra.
Qed.

(** X5.  In exact arithmetic with [par[2]] and [par[3]] not zero, smoothing
    never raises the variance: at every time [t = 1 .. T-1] the smoothed
    variance lies between zero and the filtered variance,
    [0 <= Ps_t <= Pf_t]. *)
Theorem rts_smoothing_shrinks_variance (sys : system R) (m0 A0 q0 r0 : R) :
  rts_ready sys m0 A0 q0 r0 -> q0 <> 0 -> r0 <> 0 ->
  returns (rts sys) (fun o =>
    forall t, (1 <= t <= T sys - 1)%Z ->
      0 <= (Ps o).[t] <= (Pf o).[t]).
Proof.
  intros Hready Hq Hr. pose proof Hready as [_ HT _].
  eapply returns_weaken; [apply (rts_returns sys m0 A0 q0 r0 Hready)|].
  intros o [Hpar Hinv Hsm _ _ _ _].
  pose proof (recursion_of_inv sys m0 A0 q0 r0 o Hpar Hinv) as Hrec.
  destruct (real_variances sys m0 A0 q0 r0 o Hpar Hinv Hr) as (HR & _ & Hsign).
  assert (HQ : 0 < Q o).
  { rewrite (par_Q _ _ _ _ _ Hpar), pow_2. cbn. nra. }
  assert (Hle : forall t, (0 <= t < T sys)%Z -> (Pf o).[t] <= (Pp o).[t]).
  { intros t Ht. destruct (Hsign t Ht) as (HPp & _ & _).
    destruct (Hrec t Ht) as [eS eK _ _ ePf _ _ _]. cbn in eS, eK, ePf.
    rewrite ePf, eK, eS. apply filtered_le_predicted; assumption. }
  assert (Hind : forall k : nat, (Z.of_nat k <= T sys - 2)%Z ->
            0 <= (Ps o).[T sys - 1 - Z.of_nat k]
              <= (Pf o).[T sys - 1 - Z.of_nat k]).
  { induction k as [|k IH]; intros Hk.
    - replace (T sys - 1 - Z.of_nat 0)%Z with (T sys - 1)%Z by lia.
      rewrite (sm_Ps_last _ _ _ Hsm).
      destruct (Hsign (T sys - 1)%Z ltac:(lia)) as (_ & _ & HPf). lra.
    - specialize (IH ltac:(lia)).
      set (t := (T sys - 1 - Z.of_nat (Datatypes.S k))%Z).
      replace (T sys - 1 - Z.of_nat k)%Z with (t + 1)%Z in IH
        by (unfold t; lia).
      assert (Ht : (1 <= t <= T sys - 2)%Z) by (unfold t; lia).
      destruct (sm_backward _ _ _ Hsm t Ht) as [eJ _ ePs].
      cbn in eJ, ePs.
      destruct (Hsign t ltac:(lia)) as (_ & _ & HPf).
      destruct (Hrec t ltac:(lia)) as [_ _ _ _ _ _ ePp _]. cbn in ePp.
      specialize (Hle (t + 1)%Z ltac:(lia)).
      rewrite ePs, eJ.
      apply (smoothed_variance_step (A o) (Q o)); try assumption. lra. }
  intros t Ht.
  replace t with (T sys - 1 - Z.of_nat (Z.to_nat (T sys - 1 - t)))%Z by lia.
  apply Hind. lia.
Qed.

End RealFilterMore.

Lemma kf_gain_shrinks_variance_witness :
  returns (kf scenario) (fun o =>
    forall t, 0 <= t < T scenario ->
      (0 <= (K o).[t] < 1
       /\ (Pf o).[t] = (K o).[t] * R_ o
       /\ 0 <= (Pf o).[t] <= (Pp o).[t])%R).
Proof.
  apply (kf_gain_shrinks_variance scenario 0 (9 / 10) (1 / 2) (1 / 2))%R.
  - exact scenario_ready.
  - lra.
Defined.

Lemma kf_noise_floors_witness :
  returns (kf scenario) (fun o =>
    forall t, 0 <= t < T scenario ->
      (R_ o <= (S_ o).[t] /\ Q o <= (Pp o).[t + 1])%R).
Proof.
  apply (kf_noise_floors scenario 0 (9 / 10) (1 / 2) (1 / 2))%R.
  - exact scenario_ready.
  - lra.
Defined.

Lemma kf_filtered_mean_between_witness :
  returns (kf scenario) (fun o =>
    forall t, 0 <= t < T scenario ->
      (Rmin ((xhatp o).[t]) ((y scenario).[t]) <= (xhatf o).[t]
       <= Rmax ((xhatp o).[t]) ((y scenario).[t]))%R).
Proof.
  apply (kf_filtered_mean_between scenario 0 (9 / 10) (1 / 2) (1 / 2))%R.
  - exact scenario_ready.
  - lra.
Defined.

Lemma kf_likelihood_bounded_witness :
  returns (kf scenario) (fun o =>
    (forall t, 0 <= t < T scenario ->
       ((llt o).[t] <= - (1 / 2) * ln (2 * PI * R_ o))%R)
    /\ (ll o <= IZR (T scenario) * (- (1 / 2) * ln (2 * PI * R_ o)))%R).
Proof.
  apply (kf_likelihood_bounded scenario 0 (9 / 10) (1 / 2) (1 / 2))%R.
  - exact scenario_ready.
  - lra.
Defined.

Lemma rts_smoothing_shrinks_variance_witness :
  returns (rts scenario) (fun o =>
    forall t, 1 <= t <= T scenario - 1 ->
      (0 <= (Ps o).[t] <= (Pf o).[t])%R).
Proof.
  apply (rts_smoothing_shrinks_variance scenario 0 (9 / 10) (1 / 2) (1 / 2))%R.
  - exact scenario_rts_ready.
  - lra.
  - lra.
Defined.

(** ** What the filter and the smoother read, and when they return *)

Section FilterEdges.
Context {F : Type} `{Scalar F}.

(** Two loops whose bodies agree on the indices run alike. *)
Lemma for_each_ext {St : Type} (body body' : St -> Z -> result St)
    (idx : list Z) (st : St) :
  (forall t s, elem_of t idx -> body s t = body' s t) ->
  for_each body idx st = for_each body' idx st.
Proof.
  revert st. induction idx as [|t idx IH]; intros st Hext; [reflexivity|].
  cbn [for_each]. rewrite (Hext t st) by left.
  destruct (body' st t) as [s|e]; cbn [bind]; [|reflexivity].
  apply IH. intros t' s' Hin. apply Hext. right. exact Hin.
Qed.

(** Two arrays with the same first [n] entries answer alike to every
    subscript from 0 up to [n]. *)
Lemma np_get_take (a b : list F) (n : nat) (t : Z) :
  take n a = take n b -> 0 <= t < Z.of_nat n ->
  np_get a t = np_get b t.
Proof.
  intros Htake Ht.
  assert (Hlen : Nat.min n (length a) = Nat.min n (length b)).
  { rewrite <- !length_take, Htake. reflexivity. }
  destruct (Z_lt_le_dec t (Z.of_nat (length a))) as [Hlt|Hge].
  - rewrite !np_get_ok by lia. f_equal.
    rewrite <- (lookup_total_take_lt a n) by lia.
    rewrite <- (lookup_total_take_lt b n) by lia.
    rewrite Htake. reflexivity.
  - unfold np_get. rewrite !np_index_beyond by lia. reflexivity.
Qed.

(** Agreement on what is read gives the same run. *)
Lemma kf_ext (sys sys' : system F) :
  kf_same_input sys sys' -> kf sys = kf sys'.
Proof.
  intros [HT Hpar Hy Hu]. unfold kf. rewrite <- HT.
  rewrite <- !(np_get_take (par sys) (par sys') 4 _ Hpar) by lia.
  repeat match goal with
         | |- bind ?c _ = bind ?c _ =>
             destruct c; cbn [bind]; [|reflexivity]
         end.
  match goal with
  | |- bind (for_each ?b ?idx ?v) _ = bind (for_each ?b' _ _) _ =>
      rewrite (for_each_ext b b' idx v); [reflexivity|]
  end.
  intros t s Hin. apply py_range_elem in Hin. unfold kf_step.
  rewrite (np_get_take (y sys) (y sys') _ t Hy) by lia.
  rewrite (np_get_take (u sys) (u sys') _ t Hu) by lia.
  reflexivity.
Qed.

(** The same for the smoother, which also reads [nParInference] and the
    derivatives of the log-prior below it. *)
Lemma rts_ext (sys sys' : system F) :
  kf_same_input sys sys' ->
  nParInference sys = nParInference sys' ->
  (forall i, 0 <= i < nParInference sys -> dprior1 sys i = dprior1 sys' i) ->
  rts sys = rts sys'.
Proof.
  intros Hsame Hn Hd. pose proof (kf_ext sys sys' Hsame) as Hkf.
  destruct Hsame as [HT Hpar Hy Hu].
  assert (Hgrad : forall self v,
            rts_gradient sys self v = rts_gradient sys' self v).
  { intros self v. unfold rts_gradient. rewrite <- HT.
    destruct (np_zeros2 4 (T sys)) as [g|e]; cbn [bind]; [|reflexivity].
    apply for_each_ext. intros t s Hin. apply py_range_elem in Hin.
    unfold rts_gradient_step. rewrite <- Hn.
    rewrite (np_get_take (y sys) (y sys') _ t Hy) by lia.
    rewrite (np_get_take (u sys) (u sys') _ t Hu) by lia.
    reflexivity. }
  assert (Hprior : forall v, rts_prior sys v = rts_prior sys' v).
  { intros v. unfold rts_prior. rewrite <- Hn. apply for_each_ext.
    intros t s Hin. apply py_range_elem in Hin.
    unfold rts_prior_step. rewrite Hd by lia. reflexivity. }
  unfold rts, rts_init. rewrite <- Hkf.
  unfold rts_backward, rts_lag, rts_lag_last, rts_output.
  rewrite <- HT, <- Hn.
  destruct (kf sys) as [self|e]; cbn [bind]; [|reflexivity].
  repeat match goal with
         | |- bind ?c _ = bind ?c _ =>
             destruct c; cbn [bind fst snd]; [|reflexivity]
         end.
  rewrite Hgrad.
  match goal with
  | |- bind ?c _ = bind ?c _ => destruct c; cbn [bind]; [|reflexivity]
  end.
  rewrite Hprior. reflexivity.
Qed.

(** A turn of the filter's loop keeps the shapes, where it finds an
    observation and an input. *)
Lemma kf_step_shapes (sys : system F) (m A C Q R : F) (v : kf_arrays F) (t : Z) :
  kf_shapes sys v -> 0 <= t < T sys ->
  t < Z.of_nat (length (y sys)) -> t < Z.of_nat (length (u sys)) ->
  returns (kf_step sys m A C Q R v t) (kf_shapes sys).
Proof.
  intros [HS HK Hxp Hxf Hyp HPf HPp Hll] Ht Hy Hu.
  unfold kf_step. np_run. apply returns_ok.
  split; cbn [S_ K xhatp xhatf yhatp Pf Pp llt]; len.
Qed.

(** A turn that finds no observation, or no input, raises. *)
Lemma kf_step_beyond_data (sys : system F) (m A C Q R : F)
    (v : kf_arrays F) (t : Z) :
  kf_shapes sys v -> 0 <= t < T sys ->
  Z.of_nat (length (y sys)) <= t \/ Z.of_nat (length (u sys)) <= t ->
  raises (kf_step sys m A C Q R v t) IndexError.
Proof.
  intros [HS HK Hxp Hxf Hyp HPf HPp Hll] Ht Hshort.
  unfold raises, kf_step. np_run.
  destruct (Z_lt_le_dec t (Z.of_nat (length (y sys)))) as [Hy|Hy].
  - np_run. unfold np_get at 1. rewrite np_index_beyond by lia. reflexivity.
  - unfold np_get at 1. rewrite np_index_beyond by lia. reflexivity.
Qed.

(** Cutting to four parameters changes nothing that is read. *)
Lemma four_parameters_same (sys : system F) :
  kf_same_input sys (four_parameters sys).
Proof.
  split; cbn [four_parameters T par y u]; try reflexivity.
  rewrite take_take. reflexivity.
Qed.

(** Enough parameters and data make the cut model object ready. *)
Lemma four_parameters_ready (sys : system F) :
  0 <= T sys -> (4 <= length (par sys))%nat ->
  T sys <= Z.of_nat (length (y sys)) -> T sys <= Z.of_nat (length (u sys)) ->
  exists m0 A0 q0 r0, kf_ready (four_parameters sys) m0 A0 q0 r0.
Proof.
  intros HT Hpar Hy Hu.
  destruct (par sys) as [|a [|b [|c [|d l]]]] eqn:E; cbn in Hpar; try lia.
  exists a, b, c, d. split; cbn [four_parameters T par y u]; try assumption.
  rewrite E. reflexivity.
Qed.

(** A negative [T] fails in the first allocation. *)
Lemma kf_negative_length (sys : system F) :
  T sys < 0 -> raises (kf sys) ValueError.
Proof.
  intros HT. unfold raises, kf, np_zeros.
  destruct (Z.ltb_spec (T sys) 0); [reflexivity | lia].
Qed.

(** Fewer than four parameters fail where the parameters are read. *)
Lemma kf_short_par (sys : system F) :
  0 <= T sys -> (length (par sys) < 4)%nat -> raises (kf sys) IndexError.
Proof.
  intros HT Hlen. unfold raises, kf.
  rewrite !np_zeros_ok by lia. cbn [bind].
  destruct (par sys) as [|a [|b [|c [|d l]]]]; try reflexivity.
  cbn in Hlen. lia.
Qed.

(** Fewer than [T] observations or inputs fail in the loop. *)
Lemma kf_short_data (sys : system F) :
  0 <= T sys -> (4 <= length (par sys))%nat ->
  Z.of_nat (length (y sys)) < T sys \/ Z.of_nat (length (u sys)) < T sys ->
  raises (kf sys) IndexError.
Proof.
  intros HT Hpar Hshort. unfold kf.
  rewrite !np_zeros_ok by lia. cbn [bind].
  rewrite !np_get_ok by lia. cbn [bind].
  rewrite !np_set_ok by len. cbn [bind].
  apply raises_bind.
  set (n := Z.min (Z.of_nat (length (y sys))) (Z.of_nat (length (u sys)))).
  unfold py_range.
  replace (T sys - 0) with (n + (T sys - n)) by lia.
  rewrite seqZ_app by lia. rewrite for_each_app.
  eapply returns_then_raises.
  - replace n with (n - 0) at 1 by lia.
    apply (for_range_returns _ (fun _ => kf_shapes sys) 0 n).
    + split; cbn [S_ K xhatp xhatf yhatp Pf Pp llt]; len.
    + intros k s Hk Hs. apply kf_step_shapes; [exact Hs | lia ..].
  - intros s Hs. rewrite seqZ_cons by lia. cbn [for_each].
    apply raises_bind. apply kf_step_beyond_data; [exact Hs | lia | lia].
Qed.

(** Enough parameters and data: the filter returns. *)
Lemma kf_enough (sys : system F) :
  0 <= T sys -> (4 <= length (par sys))%nat ->
  T sys <= Z.of_nat (length (y sys)) -> T sys <= Z.of_nat (length (u sys)) ->
  returns (kf sys) (fun _ => True).
Proof.
  intros HT Hpar Hy Hu.
  destruct (four_parameters_ready sys HT Hpar Hy Hu) as (m0 & A0 & q0 & r0 & Hr).
  rewrite (kf_ext _ _ (four_parameters_same sys)).
  eapply returns_weaken; [apply (kf_returns _ _ _ _ _ Hr) | auto].
Qed.

(** X6.  The filter and the smoother read the first four parameters and
    the first [T] observations and inputs, and nothing else of these
    arrays: two model objects with the same [T] that agree there give the
    same run of the filter, be it a result or an exception, and the same
    run of the smoother when they also agree on [nParInference] and on the
    derivatives of the log-prior below it. *)
Theorem kf_rts_read_prefixes (sys sys' : system F) :
  T sys = T sys' ->
  take 4 (par sys) = take 4 (par sys') ->
  take (Z.to_nat (T sys)) (y sys) = take (Z.to_nat (T sys)) (y sys') ->
  take (Z.to_nat (T sys)) (u sys) = take (Z.to_nat (T sys)) (u sys') ->
  kf sys = kf sys'
  /\ (nParInference sys = nParInference sys' ->
      (forall i, 0 <= i < nParInference sys ->
                 dprior1 sys i = dprior1 sys' i) ->
      rts sys = rts sys').
Proof.
  intros HT Hpar Hy Hu.
  assert (Hsame : kf_same_input sys sys') by (split; assumption).
  split; [apply kf_ext, Hsame | apply rts_ext, Hsame].
Qed.

(** X7.  The filter returns exactly when [T] is not negative and the
    model object has at least four parameters, [T] observations and [T]
    inputs. *)
Theorem kf_returns_iff (sys : system F) :
  (exists o, kf sys = Ok o)
  <-> 0 <= T sys /\ (4 <= length (par sys))%nat
      /\ T sys <= Z.of_nat (length (y sys))
      /\ T sys <= Z.of_nat (length (u sys)).
Proof.
  split.
  - intros [o Ho].
    destruct (Z_lt_le_dec (T sys) 0) as [HT|HT].
    { pose proof (kf_negative_length sys HT) as E. congruence. }
    destruct (le_lt_dec 4 (length (par sys))) as [Hpar|Hpar].
    2: { pose proof (kf_short_par sys HT Hpar) as E. congruence. }
    destruct (Z_lt_le_dec (Z.of_nat (length (y sys))) (T sys)) as [Hy|Hy].
    { pose proof (kf_short_data sys HT Hpar (or_introl Hy)) as E. congruence. }
    destruct (Z_lt_le_dec (Z.of_nat (length (u sys))) (T sys)) as [Hu|Hu].
    { pose proof (kf_short_data sys HT Hpar (or_intror Hu)) as E. congruence. }
    auto.
  - intros (HT & Hpar & Hy & Hu).
    destruct (kf_enough sys HT Hpar Hy Hu) as (o & Ho & _). eauto.
Qed.

(** X8.  The filter fails in two ways only: with ValueError exactly when
    [T] is negative, and with IndexError exactly when [T] is not negative
    and there are fewer than four parameters, or fewer than [T]
    observations or inputs; it never reads an unbound name. *)
Theorem kf_raises_iff (sys : system F) :
  (raises (kf sys) ValueError <-> T sys < 0)
  /\ (raises (kf sys) IndexError
      <-> 0 <= T sys
          /\ ((length (par sys) < 4)%nat
              \/ Z.of_nat (length (y sys)) < T sys
              \/ Z.of_nat (length (u sys)) < T sys))
  /\ ~ raises (kf sys) UnboundLocalError.
Proof.
  assert (Hcases : raises (kf sys) ValueError /\ T sys < 0
          \/ raises (kf sys) IndexError /\ 0 <= T sys
             /\ ((length (par sys) < 4)%nat
                 \/ Z.of_nat (length (y sys)) < T sys
                 \/ Z.of_nat (length (u sys)) < T sys)
          \/ (exists o, kf sys = Ok o) /\ 0 <= T sys
             /\ (4 <= length (par sys))%nat
             /\ T sys <= Z.of_nat (length (y sys))
             /\ T sys <= Z.of_nat (length (u sys))).
  { destruct (Z_lt_le_dec (T sys) 0) as [HT|HT].
    { left. split; [apply kf_negative_length|]; assumption. }
    right.
    destruct (le_lt_dec 4 (length (par sys))) as [Hpar|Hpar].
    2: { left. split; [apply kf_short_par; assumption|]. auto. }
    destruct (Z_lt_le_dec (Z.of_nat (length (y sys))) (T sys)) as [Hy|Hy].
    { left. split; [apply kf_short_data; auto|]. auto. }
    destruct (Z_lt_le_dec (Z.of_nat (length (u sys))) (T sys)) as [Hu|Hu].
    { left. split; [apply kf_short_data; auto|]. auto. }
    right. split; [|auto].
    destruct (kf_enough sys HT Hpar Hy Hu) as (o & Ho & _). eauto. }
  unfold raises in *.
  destruct Hcases as [[E ?]|[[E ?]|[[o E] ?]]]; rewrite E;
    (split; [split | split; [split | intros ?]]);
    intros; try discriminate; try reflexivity; try assumption; lia.
Qed.

(** X10.  The smoother returns exactly when there are at least two time
    steps, at least four parameters, [T] observations and [T] inputs, and
    at most four parameters to infer. *)
Theorem rts_returns_iff (sys : system F) :
  (exists o, rts sys = Ok o)
  <-> 2 <= T sys /\ (4 <= length (par sys))%nat
      /\ T sys <= Z.of_nat (length (y sys))
      /\ T sys <= Z.of_nat (length (u sys))
      /\ nParInference sys <= 4.
Proof.
  assert (Hext : rts sys = rts (four_parameters sys)).
  { apply rts_ext; [apply four_parameters_same | reflexivity | reflexivity]. }
  split.
  - intros [o Ho].
    assert (Hkf : exists s, kf sys = Ok s).
    { unfold rts, rts_init in Ho.
      destruct (kf sys) as [s|e]; [eauto | discriminate]. }
    destruct (Z_lt_le_dec (T sys) 0) as [HT|HT].
    { destruct Hkf as [s Hs]. pose proof (kf_negative_length sys HT) as E.
      congruence. }
    destruct (le_lt_dec 4 (length (par sys))) as [Hpar|Hpar].
    2: { destruct Hkf as [s Hs]. pose proof (kf_short_par sys HT Hpar) as E.
         congruence. }
    destruct (Z_lt_le_dec (Z.of_nat (length (y sys))) (T sys)) as [Hy|Hy].
    { destruct Hkf as [s Hs].
      pose proof (kf_short_data sys HT Hpar (or_introl Hy)) as E. congruence. }
    destruct (Z_lt_le_dec (Z.of_nat (length (u sys))) (T sys)) as [Hu|Hu].
    { destruct Hkf as [s Hs].
      pose proof (kf_short_data sys HT Hpar (or_intror Hu)) as E. congruence. }
    destruct (four_parameters_ready sys HT Hpar Hy Hu)
      as (m0 & A0 & q0 & r0 & Hr).
    rewrite Hext in Ho.
    assert (HT2 : 2 <= T sys).
    { destruct (Z_lt_le_dec (T sys) 2) as [Hlt|]; [|assumption].
      destruct (Z.eq_dec (T sys) 0) as [H0|H0].
      - destruct (rts_init_empty (four_parameters sys) m0 A0 q0 r0
                    (ready_par _ _ _ _ _ Hr) H0) as [_ E].
        unfold raises in E. congruence.
      - destruct (rts_single_step (four_parameters sys) m0 A0 q0 r0 Hr)
          as [_ E]; [cbn [four_parameters T]; lia|].
        unfold raises in E. congruence. }
    destruct (Z_lt_le_dec 4 (nParInference sys)) as [Hn|Hn].
    { destruct (rts_too_many_parameters (four_parameters sys) m0 A0 q0 r0 Hr)
        as [_ E]; [exact HT2 | exact Hn |].
      unfold raises in E. congruence. }
    auto.
  - intros (HT & Hpar & Hy & Hu & Hn).
    destruct (four_parameters_ready sys ltac:(lia) Hpar Hy Hu)
      as (m0 & A0 & q0 & r0 & Hr).
    rewrite Hext.
    destruct (rts_returns (four_parameters sys) m0 A0 q0 r0) as (o & Ho & _);
      [|eauto].
    split; [exact Hr | exact HT | exact Hn].
Qed.

End FilterEdges.

Lemma kf_rts_read_prefixes_witness :
  kf scenario = kf scenario_longer
  /\ (nParInference scenario = nParInference scenario_longer ->
      (forall i, 0 <= i < nParInference scenario ->
                 dprior1 scenario i = dprior1 scenario_longer i) ->
      rts scenario = rts scenario_longer).
Proof.
  apply (kf_rts_read_prefixes scenario scenario_longer); reflexivity.
Defined.

(** ** What the filter's estimates depend on *)

Section FilterDependence.
Context {F : Type} `{Scalar F}.

(** The variances of two runs with the same [A], [Q] and [R] agree turn
    by turn, whatever the means and the data. *)
Lemma kf_inv_variances (sys sys' : system F) (m m' A C Q R : F)
    (n n' : nat) (v v' : kf_arrays F) :
  kf_inv sys m A C Q R n v -> kf_inv sys' m' A C Q R n' v' ->
  forall k, (k < n)%nat -> (k < n')%nat ->
    Pp v !!! k = Pp v' !!! k /\ S_ v !!! k = S_ v' !!! k
    /\ K v !!! k = K v' !!! k /\ Pf v !!! k = Pf v' !!! k
    /\ Pp v !!! Datatypes.S k = Pp v' !!! Datatypes.S k.
Proof.
  intros Hinv Hinv'.
  assert (Hstep : forall k, (k < n)%nat -> (k < n')%nat ->
            Pp v !!! k = Pp v' !!! k ->
            S_ v !!! k = S_ v' !!! k /\ K v !!! k = K v' !!! k
            /\ Pf v !!! k = Pf v' !!! k
            /\ Pp v !!! Datatypes.S k = Pp v' !!! Datatypes.S k).
  { intros k Hk Hk' HPp.
    destruct (inv_turns _ _ _ _ _ _ _ _ Hinv k Hk) as [wS wK _ _ _ wPf wPp _].
    destruct (inv_turns _ _ _ _ _ _ _ _ Hinv' k Hk')
      as [wS' wK' _ _ _ wPf' wPp' _].
    assert (eS : S_ v !!! k = S_ v' !!! k) by congruence.
    assert (eK : K v !!! k = K v' !!! k) by congruence.
    assert (ePf : Pf v !!! k = Pf v' !!! k) by congruence.
    repeat split; congruence. }
  assert (HPp : forall k, (k < n)%nat -> (k < n')%nat ->
            Pp v !!! k = Pp v' !!! k).
  { induction k as [|k IH]; intros Hk Hk'.
    - rewrite (inv_Pp0 _ _ _ _ _ _ _ _ Hinv), (inv_Pp0 _ _ _ _ _ _ _ _ Hinv').
      reflexivity.
    - apply (Hstep k); [lia | lia | apply IH; lia]. }
  intros k Hk Hk'. split; [apply HPp; assumption|].
  apply Hstep; [assumption | assumption | apply HPp; assumption].
Qed.

(** The means of two runs with the same parameters agree as far as the
    observations and the inputs do. *)
Lemma kf_inv_means (sys sys' : system F) (m A C Q R : F)
    (n n' : nat) (v v' : kf_arrays F) (d : nat) :
  kf_inv sys m A C Q R n v -> kf_inv sys' m A C Q R n' v' ->
  take d (y sys) = take d (y sys') -> take d (u sys) = take d (u sys') ->
  forall k, (k < d)%nat -> (k < n)%nat -> (k < n')%nat ->
    xhatp v !!! k = xhatp v' !!! k /\ yhatp v !!! k = yhatp v' !!! k
    /\ xhatf v !!! k = xhatf v' !!! k /\ llt v !!! k = llt v' !!! k
    /\ xhatp v !!! Datatypes.S k = xhatp v' !!! Datatypes.S k.
Proof.
  intros Hinv Hinv' Hy Hu.
  assert (Hdata : forall k, (k < d)%nat ->
            y sys !!! k = y sys' !!! k /\ u sys !!! k = u sys' !!! k).
  { intros k Hk.
    rewrite <- (lookup_total_take_lt (y sys) d k Hk).
    rewrite <- (lookup_total_take_lt (u sys) d k Hk).
    rewrite Hy, Hu, !lookup_total_take_lt by exact Hk. auto. }
  assert (Hstep : forall k, (k < d)%nat -> (k < n)%nat -> (k < n')%nat ->
            xhatp v !!! k = xhatp v' !!! k ->
            yhatp v !!! k = yhatp v' !!! k
            /\ xhatf v !!! k = xhatf v' !!! k /\ llt v !!! k = llt v' !!! k
            /\ xhatp v !!! Datatypes.S k = xhatp v' !!! Datatypes.S k).
  { intros k Hd Hk Hk' Hxp.
    destruct (kf_inv_variances _ _ _ _ _ _ _ _ _ _ _ _ Hinv Hinv' k Hk Hk')
      as (_ & eS & eK & _ & _).
    destruct (Hdata k Hd) as [ey eu].
    destruct (inv_turns _ _ _ _ _ _ _ _ Hinv k Hk)
      as [_ _ wyp wxf wxp _ _ wll].
    destruct (inv_turns _ _ _ _ _ _ _ _ Hinv' k Hk')
      as [_ _ wyp' wxf' wxp' _ _ wll'].
    assert (eyp : yhatp v !!! k = yhatp v' !!! k) by congruence.
    assert (exf : xhatf v !!! k = xhatf v' !!! k) by congruence.
    repeat split; congruence. }
  assert (Hxp : forall k, (k <= d)%nat -> (k <= n)%nat -> (k <= n')%nat ->
            xhatp v !!! k = xhatp v' !!! k).
  { induction k as [|k IH]; intros Hd Hk Hk'.
    - rewrite (inv_xhatp0 _ _ _ _ _ _ _ _ Hinv),
        (inv_xhatp0 _ _ _ _ _ _ _ _ Hinv'). reflexivity.
    - apply (Hstep k); [lia | lia | lia | apply IH; lia]. }
  intros k Hd Hk Hk'. split; [apply Hxp; lia|].
  apply Hstep; [assumption .. | apply Hxp; lia].
Qed.

(** X11.  The variances of the filter do not depend on the data: two runs
    with the same [par[1]], [par[2]] and [par[3]] give the same predicted
    and filtered variances, innovation variances and gains at every common
    time, whatever the observations, the inputs and [par[0]]. *)
Theorem kf_variances_ignore_data (sys sys' : system F) (m0 m1 A0 q0 r0 : F) :
  kf_ready sys m0 A0 q0 r0 -> kf_ready sys' m1 A0 q0 r0 ->
  returns (kf sys) (fun o => returns (kf sys') (fun o' =>
    forall t, 0 <= t < T sys -> t < T sys' ->
      (Pp o).[t] = (Pp o').[t] /\ (S_ o).[t] = (S_ o').[t]
      /\ (K o).[t] = (K o').[t] /\ (Pf o).[t] = (Pf o').[t]
      /\ (Pp o).[t + 1] = (Pp o').[t + 1])).
Proof.
  intros Hready Hready'.
  eapply returns_weaken; [apply (kf_returns sys m0 A0 q0 r0 Hready)|].
  intros o (_ & Hinv & _).
  eapply returns_weaken; [apply (kf_returns sys' m1 A0 q0 r0 Hready')|].
  intros o' (_ & Hinv' & _) t Ht Ht'.
  unfold entry. replace (Z.to_nat (t + 1)) with (Datatypes.S (Z.to_nat t)) by lia.
  apply (kf_inv_variances _ _ _ _ _ _ _ _ _ _ _ _ Hinv Hinv'); lia.
Qed.

(** X12.  The filter is causal: two runs with the same parameters whose
    observations and inputs agree up to time [n] give the same predicted
    and filtered means, predicted observations and log-likelihood terms up
    to time [n], whatever comes later and however long either run is. *)
Theorem kf_is_causal (sys sys' : system F) (m0 A0 q0 r0 : F) (n : Z) :
  kf_ready sys m0 A0 q0 r0 -> kf_ready sys' m0 A0 q0 r0 ->
  n <= T sys -> n <= T sys' ->
  take (Z.to_nat n) (y sys) = take (Z.to_nat n) (y sys') ->
  take (Z.to_nat n) (u sys) = take (Z.to_nat n) (u sys') ->
  returns (kf sys) (fun o => returns (kf sys') (fun o' =>
    forall t, 0 <= t < n ->
      (xhatp o).[t] = (xhatp o').[t] /\ (yhatp o).[t] = (yhatp o').[t]
      /\ (xhatf o).[t] = (xhatf o').[t] /\ (llt o).[t] = (llt o').[t]
      /\ (xhatp o).[t + 1] = (xhatp o').[t + 1])).
Proof.
  intros Hready Hready' Hn Hn' Hy Hu.
  eapply returns_weaken; [apply (kf_returns sys m0 A0 q0 r0 Hready)|].
  intros o (_ & Hinv & _).
  eapply returns_weaken; [apply (kf_returns sys' m0 A0 q0 r0 Hready')|].
  intros o' (_ & Hinv' & _) t Ht.
  unfold entry. replace (Z.to_nat (t + 1)) with (Datatypes.S (Z.to_nat t)) by lia.
  apply (kf_inv_means _ _ _ _ _ _ _ _ _ _ _ _ Hinv Hinv' Hy Hu); lia.
Qed.

End FilterDependence.

Lemma shifted_ready : kf_ready shifted 1%R (9 / 10)%R (1 / 2)%R (1 / 2)%R.
Proof. split; [reflexivity | cbn; lia ..]. Qed.

Lemma two_steps_kf_ready :
  kf_ready two_steps 0%R (9 / 10)%R (1 / 2)%R (1 / 2)%R.
Proof. split; [reflexivity | cbn; lia ..]. Qed.

Lemma kf_variances_ignore_data_witness :
  returns (kf scenario) (fun o => returns (kf shifted) (fun o' =>
    forall t, 0 <= t < T scenario -> t < T shifted ->
      (Pp o).[t] = (Pp o').[t] /\ (S_ o).[t] = (S_ o').[t]
      /\ (K o).[t] = (K o').[t] /\ (Pf o).[t] = (Pf o').[t]
      /\ (Pp o).[t + 1] = (Pp o').[t + 1])).
Proof.
  apply (kf_variances_ignore_data scenario shifted
           0 1 (9 / 10) (1 / 2) (1 / 2))%R.
  - exact scenario_ready.
  - exact shifted_ready.
Defined.

Lemma kf_is_causal_witness :
  returns (kf scenario) (fun o => returns (kf two_steps) (fun o' =>
    forall t, 0 <= t < 2 ->
      (xhatp o).[t] = (xhatp o').[t] /\ (yhatp o).[t] = (yhatp o').[t]
      /\ (xhatf o).[t] = (xhatf o').[t] /\ (llt o).[t] = (llt o').[t]
      /\ (xhatp o).[t + 1] = (xhatp o').[t + 1])).
Proof.
  apply (kf_is_causal scenario two_steps 0 (9 / 10) (1 / 2) (1 / 2) 2)%R.
  - exact scenario_ready.
  - exact two_steps_kf_ready.
  - cbn. lia.
  - cbn. lia.
  - reflexivity.
  - reflexivity.
Defined.

(** ** The parameter store *)

Section ParameterStore.
Context {F : Type} `{Scalar F}.

(** The loop [for kk in range(lo,hi): dst[kk] = src[kk]] runs through
    where both arrays reach. *)
Lemma copy_loop (src dst0 : list F) (lo hi : Z) :
  0 <= lo -> hi <= Z.of_nat (length src) -> hi <= Z.of_nat (length dst0) ->
  returns (for_each (copy_entry src) (py_range lo hi) dst0)
          (copied src dst0 lo (Z.to_nat (hi - lo))).
Proof.
  intros Hlo Hsrc Hdst.
  apply (for_range_returns _ (copied src dst0 lo)).
  - split; [reflexivity | intros i Hi; lia | reflexivity].
  - intros n s Hn [Hlen Hdone Hrest]. unfold copy_entry.
    rewrite np_get_ok by lia. cbn [bind].
    rewrite np_set_ok by lia. apply returns_ok.
    split.
    + rewrite length_insert. exact Hlen.
    + intros i Hi.
      destruct (decide (i = Z.to_nat (lo + Z.of_nat n))) as [->|Hne].
      * rewrite list_lookup_total_insert_eq by lia. reflexivity.
      * rewrite list_lookup_total_insert_ne by lia. apply Hdone. lia.
    + intros i Hi. rewrite list_lookup_total_insert_ne by lia.
      apply Hrest. lia.
Qed.

(** The loop stops at the first subscript beyond either array. *)
Lemma copy_loop_beyond (src dst0 : list F) (lo hi : Z) :
  0 <= lo < hi ->
  Z.of_nat (length src) < hi \/ Z.of_nat (length dst0) < hi ->
  raises (for_each (copy_entry src) (py_range lo hi) dst0) IndexError.
Proof.
  intros Hlo Hshort.
  set (n := Z.min (Z.of_nat (length src)) (Z.of_nat (length dst0))).
  destruct (Z_lt_le_dec lo n) as [Hlt|Hge].
  - unfold py_range.
    replace (hi - lo) with ((n - lo) + (hi - n)) by lia.
    rewrite seqZ_app by lia. rewrite for_each_app.
    eapply returns_then_raises; [apply (copy_loop src dst0 lo n); lia|].
    intros s [Hlen _ _]. replace (lo + (n - lo)) with n by lia.
    rewrite seqZ_cons by lia. cbn [for_each]. apply raises_bind.
    unfold raises, copy_entry.
    destruct (Z_lt_le_dec n (Z.of_nat (length src))) as [Hs|Hs].
    + rewrite np_get_ok by lia. cbn [bind]. unfold np_set.
      rewrite np_index_beyond by lia. reflexivity.
    + unfold np_get. rewrite np_index_beyond by lia. reflexivity.
  - unfold py_range. rewrite seqZ_cons by lia. cbn [for_each].
    apply raises_bind. unfold raises, copy_entry.
    destruct (Z_lt_le_dec lo (Z.of_nat (length src))) as [Hs|Hs].
    + rewrite np_get_ok by lia. cbn [bind]. unfold np_set.
      rewrite np_index_beyond by lia. reflexivity.
    + unfold np_get. rewrite np_index_beyond by lia. reflexivity.
Qed.

(** [template_returnParameters] gives the first [nParInference]
    parameters. *)
Lemma template_returnParameters_take (model : system F) :
  0 <= nParInference model <= Z.of_nat (length (par model)) ->
  template_returnParameters model
  = Ok (take (Z.to_nat (nParInference model)) (par model)).
Proof.
  intros Hn. unfold template_returnParameters.
  rewrite np_zeros_ok by lia. cbn [bind].
  destruct (copy_loop (par model)
              (replicate (Z.to_nat (nParInference model)) f0)
              0 (nParInference model)) as (out & Hrun & [Hlen Hdone _]);
    [lia | lia | rewrite length_replicate; lia |].
  unfold copy_entry in Hrun. rewrite Hrun. f_equal.
  rewrite length_replicate in Hlen.
  apply (list_eq_same_length _ _ (Z.to_nat (nParInference model))).
  - rewrite length_take. lia.
  - exact Hlen.
  - intros i x x' Hi Hx Hx'.
    apply list_lookup_total_correct in Hx.
    rewrite lookup_take_lt in Hx' by lia.
    apply list_lookup_total_correct in Hx'.
    rewrite <- Hx, <- Hx'. apply Hdone. lia.
Qed.

(** [template_storeParameters] in closed form. *)
Lemma template_storeParameters_closed (model : system F)
    (newParm : list F) (sys : ssm F) :
  0 <= nParInference model <= nPar sys ->
  nParInference model <= Z.of_nat (length newParm) ->
  nPar sys <= Z.of_nat (length (par sys)) ->
  template_storeParameters model newParm sys
  = Ok (take (Z.to_nat (nParInference model)) newParm
        ++ drop (Z.to_nat (nParInference model))
             (take (Z.to_nat (nPar sys)) (par sys))).
Proof.
  intros Hn Hnew Hsys. unfold template_storeParameters.
  rewrite np_zeros_ok by lia. cbn [bind].
  destruct (copy_loop newParm (replicate (Z.to_nat (nPar sys)) f0)
              0 (nParInference model)) as (p1 & Hrun1 & [Hlen1 Hdone1 _]);
    [lia | lia | rewrite length_replicate; lia |].
  unfold copy_entry in Hrun1. rewrite Hrun1. cbn [bind].
  rewrite length_replicate in Hlen1.
  destruct (copy_loop (par sys) p1 (nParInference model) (nPar sys))
    as (p2 & Hrun2 & [Hlen2 Hdone2 Hrest2]); [lia | lia | lia |].
  unfold copy_entry in Hrun2. rewrite Hrun2. f_equal.
  apply (list_eq_same_length _ _ (Z.to_nat (nPar sys))).
  - rewrite length_app, length_take, length_drop, length_take. lia.
  - lia.
  - intros i x x' Hi Hx Hx'.
    apply list_lookup_total_correct in Hx. rewrite <- Hx.
    destruct (Z_lt_le_dec (Z.of_nat i) (nParInference model)) as [Hlt|Hge].
    + rewrite lookup_app_l in Hx' by (rewrite length_take; lia).
      rewrite lookup_take_lt in Hx' by lia.
      apply list_lookup_total_correct in Hx'. rewrite <- Hx'.
      rewrite Hrest2 by lia. apply Hdone1. lia.
    + rewrite lookup_app_r in Hx' by (rewrite length_take; lia).
      rewrite length_take in Hx'. rewrite lookup_drop in Hx'.
      rewrite lookup_take_lt in Hx' by lia.
      apply list_lookup_total_correct in Hx'. rewrite <- Hx'.
      rewrite Hdone2 by lia. f_equal. lia.
Qed.

(** X13.  With [0 <= nParInference <= nPar], at least [nParInference]
    candidate values and at least [nPar] system parameters, the parameter
    store returns; the new [model.par] has [nPar] entries, the first
    [nParInference] of them are those of [newParm] and the others are the
    fixed parameters of [sys] at the same places. *)
Theorem storeParameters_splices (model : system F) (newParm : list F)
    (sys : ssm F) :
  0 <= nParInference model <= nPar sys ->
  nParInference model <= Z.of_nat (length newParm) ->
  nPar sys <= Z.of_nat (length (par sys)) ->
  returns (template_storeParameters model newParm sys) (fun p =>
    Z.of_nat (length p) = nPar sys
    /\ (forall k, 0 <= k < nParInference model -> p.[k] = newParm.[k])
    /\ (forall k, nParInference model <= k < nPar sys ->
                  p.[k] = (par sys).[k])).
Proof.
  intros Hn Hnew Hsys.
  rewrite (template_storeParameters_closed model newParm sys Hn Hnew Hsys).
  apply returns_ok. split; [|split].
  - rewrite length_app, length_take, length_drop, length_take. lia.
  - intros k Hk. unfold entry.
    rewrite lookup_total_app_l by (rewrite length_take; lia).
    apply lookup_total_take_lt. lia.
  - intros k Hk. unfold entry.
    rewrite lookup_total_app_r by (rewrite length_take; lia).
    rewrite length_take, lookup_total_drop, lookup_total_take_lt by lia.
    f_equal. lia.
Qed.

(** X14.  Reading back what was stored: on the model with the stored
    parameters, [template_returnParameters] gives the first
    [nParInference] entries of [newParm]. *)
Theorem returnParameters_after_store (model model' : system F)
    (newParm : list F) (sys : ssm F) :
  0 <= nParInference model <= nPar sys ->
  nParInference model <= Z.of_nat (length newParm) ->
  nPar sys <= Z.of_nat (length (par sys)) ->
  nParInference model' = nParInference model ->
  template_storeParameters model newParm sys = Ok (par model') ->
  template_returnParameters model'
  = Ok (take (Z.to_nat (nParInference model)) newParm).
Proof.
  intros Hn Hnew Hsys Hn' Hstore.
  rewrite (template_storeParameters_closed model newParm sys Hn Hnew Hsys)
    in Hstore.
  injection Hstore as Hpar.
  rewrite template_returnParameters_take.
  - rewrite Hn', <- Hpar. rewrite take_app_length'; [reflexivity|].
    rewrite length_take. lia.
  - rewrite Hn', <- Hpar.
    rewrite length_app, length_take, length_drop, length_take. lia.
Qed.

(** X15.  Storing what was read: when the model's parameters beyond
    [nParInference] are those of [sys], storing the result of
    [template_returnParameters] leaves [model.par] as it was. *)
Theorem store_after_returnParameters (model : system F) (sys : ssm F)
    (current : list F) :
  0 <= nParInference model <= nPar sys ->
  Z.of_nat (length (par model)) = nPar sys ->
  Z.of_nat (length (par sys)) = nPar sys ->
  drop (Z.to_nat (nParInference model)) (par sys)
  = drop (Z.to_nat (nParInference model)) (par model) ->
  template_returnParameters model = Ok current ->
  template_storeParameters model current sys = Ok (par model).
Proof.
  intros Hn Hlen Hsys Hfixed Hret.
  rewrite template_returnParameters_take in Hret by lia.
  injection Hret as <-.
  rewrite template_storeParameters_closed;
    [| lia | rewrite length_take; lia | lia].
  f_equal. rewrite take_take.
  replace (Z.to_nat (nParInference model) `min` Z.to_nat (nParInference model))%nat
    with (Z.to_nat (nParInference model)) by lia.
  rewrite (take_ge (par sys)) by lia. rewrite Hfixed.
  apply take_drop.
Qed.

(** X16.  More parameters to infer than the system has: the parameter
    store raises IndexError, whatever the candidate values, and does not
    cut the request down. *)
Theorem storeParameters_too_many (model : system F) (newParm : list F)
    (sys : ssm F) :
  0 <= nPar sys < nParInference model ->
  raises (template_storeParameters model newParm sys) IndexError.
Proof.
  intros Hn. unfold template_storeParameters.
  rewrite np_zeros_ok by lia. cbn [bind]. apply raises_bind.
  apply (copy_loop_beyond newParm); [lia|].
  right. rewrite length_replicate. lia.
Qed.

(** X17.  The filter after the parameter store: on the model with the
    stored parameters and the data of before, the filter runs as on the
    parameter array made of the first [nParInference] candidate values
    followed by the fixed parameters of [sys]. *)
Theorem kf_after_storeParameters (model model' : system F)
    (newParm : list F) (sys : ssm F) :
  0 <= nParInference model <= nPar sys -> 4 <= nPar sys ->
  nParInference model <= Z.of_nat (length newParm) ->
  nPar sys <= Z.of_nat (length (par sys)) ->
  template_storeParameters model newParm sys = Ok (par model') ->
  T model' = T model -> y model' = y model -> u model' = u model ->
  kf model'
  = kf {| par := take (Z.to_nat (nParInference model)) newParm
                 ++ drop (Z.to_nat (nParInference model)) (par sys);
          y := y model; u := u model; T := T model;
          nParInference := nParInference model;
          dprior1 := dprior1 model |}.
Proof.
  intros Hn H4 Hnew Hsys Hstore HT Hy Hu.
  rewrite (template_storeParameters_closed model newParm sys Hn Hnew Hsys)
    in Hstore.
  injection Hstore as Hpar.
  apply kf_ext. split; cbn [T par y u].
  - exact HT.
  - rewrite <- Hpar.
    set (n := Z.to_nat (nParInference model)).
    set (N := Z.to_nat (nPar sys)).
    rewrite !take_app. f_equal.
    rewrite length_take.
    replace (n `min` length newParm)%nat with n by lia.
    replace N with (n + (N - n))%nat by lia.
    rewrite <- take_drop_commute, take_take. f_equal. lia.
  - rewrite HT, Hy. reflexivity.
  - rewrite HT, Hu. reflexivity.
Qed.

End ParameterStore.

(** ** The hard prior *)

Section RealPrior.
Local Open Scope R_scope.

(** X18.  The hard prior in exact arithmetic: it is 1.0 exactly when
    [|par[1]| <= 1], [par[2] >= 0] and [par[3] >= 0], and 0.0 otherwise;
    the bounds themselves pass. *)
Theorem priorUniform_accepts_iff (self : system R) (m0 A0 q0 r0 : R) :
  par self = [m0; A0; q0; r0] ->
  returns (priorUniform self) (fun out =>
    (out = 1 /\ Rabs A0 <= 1 /\ 0 <= q0 /\ 0 <= r0)
    \/ (out = 0 /\ ~ (Rabs A0 <= 1 /\ 0 <= q0 /\ 0 <= r0))).
Proof.
  intros Hpar. unfold priorUniform. rewrite Hpar.
  change (np_get [m0; A0; q0; r0] 1) with (Ok A0).
  change (np_get [m0; A0; q0; r0] 2) with (Ok q0).
  change (np_get [m0; A0; q0; r0] 3) with (Ok r0).
  cbn [bind]. apply returns_ok.
  cbn [fgt flt fabs real_compare f0 f1 real_scalar].
  destruct (Rgt_dec (Rabs A0) 1), (Rlt_dec q0 0), (Rlt_dec r0 0);
    first [ left; repeat split; lra | right; split; [reflexivity | lra] ].
Qed.

(** X19.  No noise at all, [par[2] = par[3] = 0] with [|par[1]| <= 1],
    passes the hard prior, and the filter then divides zero by zero at its
    second turn: in exact arithmetic the predicted variance and the
    innovation variance at time 1 are both zero, and the gain is their
    quotient. *)
Theorem priorUniform_admits_zero_noise (sys : system R) (m0 A0 : R) :
  kf_ready sys m0 A0 0 0 -> (2 <= T sys)%Z -> Rabs A0 <= 1 ->
  returns (priorUniform sys) (fun out => out = 1)
  /\ returns (kf sys) (fun o =>
       (Pp o).[1] = 0 /\ (S_ o).[1] = 0
       /\ (K o).[1] = (Pp o).[1] / (S_ o).[1]).
Proof.
  intros Hready HT HA. split.
  - unfold priorUniform. rewrite (ready_par _ _ _ _ _ Hready).
    change (np_get [m0; A0; 0; 0] 1) with (Ok A0).
    change (np_get [m0; A0; 0; 0] 2) with (Ok 0).
    change (np_get [m0; A0; 0; 0] 3) with (Ok 0).
    cbn [bind]. apply returns_ok.
    cbn [fgt flt fabs real_compare f0 f1 real_scalar].
    destruct (Rgt_dec (Rabs A0) 1); [lra|].
    destruct (Rlt_dec 0 0); [lra|]. reflexivity.
  - eapply returns_weaken; [apply (kf_returns sys m0 A0 0 0 Hready)|].
    intros o (Hpar & Hinv & _).
    pose proof (recursion_of_inv sys m0 A0 0 0 o Hpar Hinv) as Hrec.
    assert (HR : R_ o = 0).
    { rewrite (par_R _ _ _ _ _ Hpar), pow_2. cbn. ring. }
    assert (HQ : Q o = 0).
    { rewrite (par_Q _ _ _ _ _ Hpar), pow_2. cbn. ring. }
    assert (H0 : (Pp o).[0] = 1 / 100000).
    { unfold entry. change (Z.to_nat 0) with 0%nat.
      apply (inv_Pp0 _ _ _ _ _ _ _ _ Hinv). }
    destruct (Hrec 0%Z ltac:(lia)) as [eS0 eK0 _ _ ePf0 _ ePp1 _].
    destruct (Hrec 1%Z ltac:(lia)) as [eS1 eK1 _ _ _ _ _ _].
    change (0 + 1)%Z with 1%Z in ePp1. cbn in eS0, eK0, ePf0, ePp1, eS1, eK1.
    assert (HS0 : (S_ o).[0] = 1 / 100000) by (rewrite eS0, H0, HR; lra).
    assert (HK0 : (K o).[0] = 1) by (rewrite eK0, HS0, H0; field).
    assert (HPf0 : (Pf o).[0] = 0) by (rewrite ePf0, HK0, HS0, H0; lra).
    assert (HPp1 : (Pp o).[1] = 0) by (rewrite ePp1, HPf0, HQ; ring).
    split; [exact HPp1|]. split; [rewrite eS1, HPp1, HR; ring | exact eK1].
Qed.

End RealPrior.

(** In binary64 a NaN passes every test of the hard prior. *)
Lemma priorUniform64_nan (log : float -> float) (self : system float)
    (m0 : float) :
  par self = [m0; nan; nan; nan]%float ->
  @priorUniform float (binary64 log) float_compare self = Ok 1%float.
Proof.
  intros Hpar. unfold priorUniform. rewrite Hpar. vm_compute. reflexivity.
Qed.

(** ** The gradient of the complete-data log-likelihood *)

Section ModelGradientProofs.
Context {F : Type} `{Scalar F}.
Local Open Scope scalar_scope.

(** Writing column [k] takes the invariant one turn on. *)
Lemma np_set_column_inv (m A q r u_t y_t : F) (xtt xt : list F)
    (cols k : nat) (g : list (list F)) (v : list F) :
  (k < cols)%nat -> length v = length xtt ->
  (forall j, (j < length xtt)%nat ->
     v !!! j = Dparm_entry m A q r u_t y_t (xtt !!! j) (xt !!! j) (Z.of_nat k)) ->
  Dparm_inv m A q r u_t y_t xtt xt cols k g ->
  returns (np_set_column (Z.of_nat cols) g (Z.of_nat k) v)
          (Dparm_inv m A q r u_t y_t xtt xt cols (Datatypes.S k)).
Proof.
  intros Hk Hv Hentry [Hrows Hcols Hdone Hrest]. unfold np_set_column.
  rewrite Nat2Z.id, np_index_ok by lia. cbn [bind]. rewrite Nat2Z.id.
  rewrite Hv, Hrows, Nat.eqb_refl. apply returns_ok.
  assert (Hrow : forall j, (j < length xtt)%nat ->
            zip_with (fun row x => <[k := x]> row) g v !!! j
            = <[k := v !!! j]> (g !!! j)).
  { intros j Hj. apply list_lookup_total_correct.
    rewrite lookup_zip_with.
    rewrite (list_lookup_lookup_total_lt g j) by lia.
    rewrite (list_lookup_lookup_total_lt v j) by lia. reflexivity. }
  split.
  - rewrite length_zip_with. lia.
  - intros j Hj. rewrite Hrow by exact Hj. rewrite length_insert.
    apply Hcols, Hj.
  - intros j i Hj Hi Hc. rewrite Hrow by exact Hj.
    destruct (decide (i = k)) as [->|Hne].
    + rewrite list_lookup_total_insert_eq by (rewrite Hcols; lia).
      apply Hentry, Hj.
    + rewrite list_lookup_total_insert_ne by lia. apply Hdone; lia.
  - intros j i Hj Hi Hc. rewrite Hrow by exact Hj.
    rewrite list_lookup_total_insert_ne by lia. apply Hrest; lia.
Qed.

(** Filling a column beyond the fourth with zero does the same. *)
Lemma np_fill_column_inv (m A q r u_t y_t : F) (xtt xt : list F)
    (cols k : nat) (g : list (list F)) :
  (k < cols)%nat -> (4 <= k)%nat ->
  Dparm_inv m A q r u_t y_t xtt xt cols k g ->
  returns (np_fill_column (Z.of_nat cols) g (Z.of_nat k) f0)
          (Dparm_inv m A q r u_t y_t xtt xt cols (Datatypes.S k)).
Proof.
  intros Hk H4 [Hrows Hcols Hdone Hrest]. unfold np_fill_column.
  rewrite Nat2Z.id, np_index_ok by lia. cbn [bind]. rewrite Nat2Z.id.
  apply returns_ok.
  assert (Hrow : forall j, (j < length xtt)%nat ->
            ((fun row => <[k := f0]> row) <$> g) !!! j = <[k := f0]> (g !!! j)).
  { intros j Hj. apply list_lookup_total_correct.
    rewrite list_lookup_fmap.
    rewrite (list_lookup_lookup_total_lt g j) by lia. reflexivity. }
  split.
  - rewrite length_fmap. exact Hrows.
  - intros j Hj. rewrite Hrow by exact Hj. rewrite length_insert.
    apply Hcols, Hj.
  - intros j i Hj Hi Hc. rewrite Hrow by exact Hj.
    destruct (decide (i = k)) as [->|Hne].
    + rewrite list_lookup_total_insert_eq by (rewrite Hcols; lia).
      unfold Dparm_entry.
      destruct k as [|[|[|[|k]]]]; try lia. 
      replace (Z.of_nat (Datatypes.S (Datatypes.S (Datatypes.S (Datatypes.S k)))))
        with (Z.pos (Pos.of_succ_nat (3 + k))) by lia.
      destruct (Pos.of_succ_nat (3 + k)) as [[[]|[]|]|[[]|[]|]|] eqn:E;
        try reflexivity; lia.
    + rewrite list_lookup_total_insert_ne by lia. apply Hdone; lia.
  - intros j i Hj Hi Hc. rewrite Hrow by exact Hj.
    rewrite list_lookup_total_insert_ne by lia. apply Hrest; lia.
Qed.

(** Arrays of the same length combine entry by entry. *)
Lemma np_broadcast_same (op : F -> F -> F) (a b : list F) :
  length a = length b -> np_broadcast op a b = Ok (zip_with op a b).
Proof. intros Hlen. unfold np_broadcast. rewrite Hlen, Nat.eqb_refl. reflexivity. Qed.

(** Entries of a mapped and of a zipped array. *)
Lemma lookup_total_fmap_lt (f : F -> F) (a : list F) (j : nat) :
  (j < length a)%nat -> (f <$> a) !!! j = f (a !!! j).
Proof.
  intros Hj. apply list_lookup_total_correct. rewrite list_lookup_fmap.
  rewrite (list_lookup_lookup_total_lt a j) by lia. reflexivity.
Qed.

Lemma lookup_total_zip_with_lt (op : F -> F -> F) (a b : list F) (j : nat) :
  (j < length a)%nat -> (j < length b)%nat ->
  zip_with op a b !!! j = op (a !!! j) (b !!! j).
Proof.
  intros Ha Hb. apply list_lookup_total_correct. rewrite lookup_zip_with.
  rewrite (list_lookup_lookup_total_lt a j) by lia.
  rewrite (list_lookup_lookup_total_lt b j) by lia. reflexivity.
Qed.

(** The loop of [Dparm] runs through when [xtt] and [xt] are as long. *)
Lemma Dparm_loop (self : system F) (m0 A0 q0 r0 u_t y_t : F)
    (xtt xt : list F) (tt : Z) :
  par self = [m0; A0; q0; r0] ->
  0 <= nParInference self ->
  length xt = length xtt ->
  np_get (u self) (tt - 1)%Z = Ok u_t ->
  np_get (y self) tt = Ok y_t ->
  returns (Dparm self xtt xt tt)
    (Dparm_inv m0 A0 q0 r0 u_t y_t xtt xt
       (Z.to_nat (nParInference self)) (Z.to_nat (nParInference self))).
Proof.
  intros Hpar Hn Hlen Hu Hy. unfold Dparm, np_zeros2.
  rewrite np_zeros_ok by lia. cbn [bind]. rewrite Hpar.
  change (np_get [m0; A0; q0; r0] 0) with (Ok m0).
  change (np_get [m0; A0; q0; r0] 1) with (Ok A0).
  change (np_get [m0; A0; q0; r0] 2) with (Ok q0).
  change (np_get [m0; A0; q0; r0] 3) with (Ok r0).
  cbn [bind]. rewrite np_broadcast_same by (rewrite !length_fmap; lia).
  cbn [bind]. rewrite Hu, Hy. cbn [bind].
  set (cols := Z.to_nat (nParInference self)).
  replace (nParInference self) with (Z.of_nat cols) by lia.
  set (px := (fun x => x - u_t) <$> _).
  set (py := (fun x => y_t - x) <$> xt).
  assert (Hpx : forall j, (j < length xtt)%nat ->
            px !!! j = xtt !!! j - m0 - A0 * (xt !!! j - m0) - u_t).
  { intros j Hj. unfold px.
    rewrite lookup_total_fmap_lt by (rewrite length_zip_with, !length_fmap; lia).
    rewrite lookup_total_zip_with_lt by (rewrite length_fmap; lia).
    rewrite !lookup_total_fmap_lt by lia. reflexivity. }
  assert (Hpxlen : length px = length xtt).
  { unfold px. rewrite length_fmap, length_zip_with, !length_fmap. lia. }
  eapply returns_weaken.
  - apply (for_range_returns _
             (Dparm_inv m0 A0 q0 r0 u_t y_t xtt xt cols) 0 (Z.of_nat cols)).
    + split.
      * apply length_replicate.
      * intros j Hj. rewrite lookup_total_replicate_2 by lia.
        apply length_replicate.
      * intros j i Hj Hi. lia.
      * intros j i Hj _ Hi. rewrite lookup_total_replicate_2 by lia.
        apply lookup_total_replicate_2. lia.
    + intros k g Hk Hinv. rewrite Z.add_0_l.
      destruct k as [|[|[|[|k]]]].
      * change (Z.of_nat 0 =? 0) with true. cbn [bind].
        apply np_set_column_inv;
          [lia | rewrite length_fmap; exact Hpxlen | | exact Hinv].
        intros j Hj. rewrite lookup_total_fmap_lt by lia.
        rewrite Hpx by exact Hj. reflexivity.
      * change (Z.of_nat 1 =? 0) with false.
        change (Z.of_nat 1 =? 1) with true. cbn [bind].
        rewrite np_broadcast_same by (rewrite length_fmap; lia). cbn [bind].
        apply np_set_column_inv;
          [lia | rewrite length_zip_with, length_fmap; lia | | exact Hinv].
        intros j Hj.
        rewrite lookup_total_zip_with_lt by (rewrite ?length_fmap; lia).
        rewrite lookup_total_fmap_lt by lia.
        rewrite Hpx by exact Hj. reflexivity.
      * change (Z.of_nat 2 =? 0) with false.
        change (Z.of_nat 2 =? 1) with false.
        change (Z.of_nat 2 =? 2) with true.
        apply np_set_column_inv;
          [lia | rewrite length_fmap; exact Hpxlen | | exact Hinv].
        intros j Hj. rewrite lookup_total_fmap_lt by lia.
        rewrite Hpx by exact Hj. reflexivity.
      * change (Z.of_nat 3 =? 0) with false.
        change (Z.of_nat 3 =? 1) with false.
        change (Z.of_nat 3 =? 2) with false.
        change (Z.of_nat 3 =? 3) with true.
        apply np_set_column_inv;
          [lia | unfold py; rewrite !length_fmap; lia | | exact Hinv].
        intros j Hj. unfold py.
        rewrite lookup_total_fmap_lt by (rewrite length_fmap; lia).
        rewrite lookup_total_fmap_lt by lia. reflexivity.
      * set (k4 := Datatypes.S (Datatypes.S (Datatypes.S (Datatypes.S k)))) in *.
        destruct (Z.eqb_spec (Z.of_nat k4) 0); [lia|].
        destruct (Z.eqb_spec (Z.of_nat k4) 1); [lia|].
        destruct (Z.eqb_spec (Z.of_nat k4) 2); [lia|].
        destruct (Z.eqb_spec (Z.of_nat k4) 3); [lia|].
        apply np_fill_column_inv; [lia | unfold k4; lia | exact Hinv].
  - replace (Z.to_nat (Z.of_nat cols - 0)) with cols by lia. auto.
Qed.

(** Unequal numbers of particles, neither of them one, do not broadcast. *)
Lemma Dparm_mismatch (self : system F) (xtt xt : list F) (tt : Z) :
  (4 <= length (par self))%nat -> 0 <= nParInference self ->
  length xtt <> length xt -> length xtt <> 1%nat -> length xt <> 1%nat ->
  raises (Dparm self xtt xt tt) ValueError.
Proof.
  intros Hpar Hn Hne H1 H2. unfold raises, Dparm, np_zeros2.
  rewrite np_zeros_ok by lia. cbn [bind].
  rewrite !np_get_ok by lia. cbn [bind].
  unfold np_broadcast. rewrite !length_fmap.
  destruct (Nat.eqb_spec (length xtt) (length xt)); [lia|].
  destruct (Nat.eqb_spec (length xtt) 1); [lia|].
  destruct (Nat.eqb_spec (length xt) 1); [lia|]. reflexivity.
Qed.

(** A subscript in range, negative or not, reads the entry at its
    remainder by the length. *)
Lemma np_get_wrap (a : list F) (i : Z) :
  - Z.of_nat (length a) <= i < Z.of_nat (length a) ->
  np_get a i = Ok (a.[i mod Z.of_nat (length a)]).
Proof.
  intros Hi. unfold np_get, np_index, entry.
  destruct (Z.leb_spec 0 i) as [H0|H0].
  - destruct (Z.ltb_spec i (Z.of_nat (length a))); [|lia]. cbn [andb bind].
    rewrite Z.mod_small by lia. reflexivity.
  - cbn [andb].
    destruct (Z.leb_spec (- Z.of_nat (length a)) i); [|lia].
    destruct (Z.ltb_spec i 0); [|lia]. cbn [andb bind].
    rewrite <- (Z.mod_add i 1 (Z.of_nat (length a))) by lia.
    rewrite Z.mod_small by lia. do 2 f_equal. lia.
Qed.

(** X20.  [Dparm] in closed form, for as many particles at either time and
    subscripts [tt-1] of [u] and [tt] of [y] in range: the matrix has one
    row for each particle and [nParInference] columns; in row [j], the
    columns 0 to 3 hold the four partial derivatives at the pair
    [(xtt[j], xt[j])] and every further column holds zero.  The input
    subtracted is [u[tt-1]], which at [tt = 0] is the last input of the
    array, not one before the first. *)
Theorem Dparm_rows (self : system F) (m0 A0 q0 r0 : F)
    (xtt xt : list F) (tt : Z) :
  par self = [m0; A0; q0; r0] ->
  0 <= nParInference self ->
  length xt = length xtt ->
  - Z.of_nat (length (u self)) <= tt - 1 < Z.of_nat (length (u self)) ->
  - Z.of_nat (length (y self)) <= tt < Z.of_nat (length (y self)) ->
  returns (Dparm self xtt xt tt) (fun g =>
    length g = length xtt
    /\ forall j, (j < length xtt)%nat ->
         Z.of_nat (length (g !!! j)) = nParInference self
         /\ forall i, 0 <= i < nParInference self ->
              (g !!! j).[i]
              = Dparm_entry m0 A0 q0 r0
                  ((u self).[(tt - 1) mod Z.of_nat (length (u self))])
                  ((y self).[tt mod Z.of_nat (length (y self))])
                  (xtt !!! j) (xt !!! j) i).
Proof.
  intros Hpar Hn Hlen Hu Hy.
  eapply returns_weaken;
    [apply (Dparm_loop self m0 A0 q0 r0 _ _ xtt xt tt Hpar Hn Hlen
              (np_get_wrap _ _ Hu) (np_get_wrap _ _ Hy))|].
  intros g [Hrows Hcols Hdone _]. split; [exact Hrows|].
  intros j Hj. split; [rewrite Hcols by exact Hj; lia|].
  intros i Hi. unfold entry at 1.
  rewrite Hdone by lia. f_equal. lia.
Qed.

End ModelGradientProofs.


Section RealGradients.
Local Open Scope R_scope.

(** X21.  The two gradients agree.  In exact arithmetic, with all four
    parameters inferred and inputs that are zero, column [t] of the
    smoother's per-time matrix is the gradient [Dparm] of the complete-data
    log-likelihood at the smoothed means plus a term in the smoothed
    second moments: nothing for [mu], [q**(-2) * (M_t - A*Ps_{t-1})] for
    [phi], [q**(-3) * (Ps_t - 2*A*M_t + A*A*Ps_{t-1})] for [sigma_v], with
    [xtt = xhats_t] and [xt = xhats_{t-1}], and [r**(-3) * Ps_t] for
    [sigma_e], with [xt = xhats_t]. *)
Theorem rts_score_is_Dparm_plus_moments (sys : system R) (m0 A0 q0 r0 : R) :
  rts_ready sys m0 A0 q0 r0 -> nParInference sys = 4%Z ->
  (forall t, (0 <= t < T sys)%Z -> (u sys).[t] = 0) ->
  returns (rts sys) (fun o =>
    forall t, (1 <= t < T sys)%Z ->
      returns (Dparm sys [(xhats o).[t]] [(xhats o).[t - 1]] t) (fun g =>
        (gradient_ o !!! 0%nat).[t] = (g !!! 0%nat).[0]
        /\ (gradient_ o !!! 1%nat).[t]
           = (g !!! 0%nat).[1]
             + powerRZ q0 (-2) * ((M o).[t] - A0 * (Ps o).[t - 1])
        /\ (gradient_ o !!! 2%nat).[t]
           = (g !!! 0%nat).[2]
             + powerRZ q0 (-3)
               * ((Ps o).[t] - 2 * A0 * (M o).[t] + A0 * A0 * (Ps o).[t - 1]))
      /\ returns (Dparm sys [(xhats o).[t]] [(xhats o).[t]] t) (fun g =>
           (gradient_ o !!! 3%nat).[t]
           = (g !!! 0%nat).[3] + powerRZ r0 (-3) * (Ps o).[t])).
Proof.
  intros Hready Hn Hu. pose proof Hready as [[Hpar HT Hy Hulen] HT2 _].
  eapply returns_weaken; [apply (rts_returns sys m0 A0 q0 r0 Hready)|].
  intros o [Hp _ _ Hrows _ _ _] t Ht.
  destruct Hp as [Hm HA _ _ Hq _ Hr _ _].
  assert (Hget_u : np_get (u sys) (t - 1)%Z = Ok 0).
  { rewrite np_get_ok by lia. f_equal. apply (Hu (t - 1)%Z). lia. }
  assert (Hget_y : np_get (y sys) t = Ok ((y sys).[t])).
  { rewrite np_get_ok by lia. reflexivity. }
  assert (Hcol : forall i : nat, (i < 4)%nat ->
            (gradient_ o !!! i).[t] = column_written sys o o i t).
  { intros i Hi. rewrite Hrows.
    destruct i as [|[|[|[|i]]]]; [| | | |lia];
      cbn [fmap list_fmap lookup_total list_lookup_total];
      apply row_written_entry; lia. }
  split.
  - eapply returns_weaken;
      [apply (Dparm_loop sys m0 A0 q0 r0 0 ((y sys).[t])
                [(xhats o).[t]] [(xhats o).[t - 1]] t);
       [assumption | lia | reflexivity | assumption | assumption]|].
    rewrite Hn. intros g [_ _ Hdone _].
    pose proof (Hdone 0%nat 0%nat ltac:(cbn; lia) ltac:(lia) ltac:(lia)) as E0.
    pose proof (Hdone 0%nat 1%nat ltac:(cbn; lia) ltac:(lia) ltac:(lia)) as E1.
    pose proof (Hdone 0%nat 2%nat ltac:(cbn; lia) ltac:(lia) ltac:(lia)) as E2.
    change (Z.of_nat 0) with 0%Z in E0. change (Z.of_nat 1) with 1%Z in E1.
    change (Z.of_nat 2) with 2%Z in E2.
    change ((g !!! 0%nat).[0]) with ((g !!! 0%nat) !!! 0%nat).
    change ((g !!! 0%nat).[1]) with ((g !!! 0%nat) !!! 1%nat).
    change ((g !!! 0%nat).[2]) with ((g !!! 0%nat) !!! 2%nat).
    rewrite E0, E1, E2, !Hcol by lia.
    unfold column_written, Dparm_entry. cbv beta iota zeta.
    rewrite Hm, HA, Hq, (Hu t) by lia.
    cbn [lookup_total list_lookup_total Z.of_nat Pos.of_succ_nat Pos.succ
         fadd fsub fmul fdiv fneg fpow f0 f1 f2 real_scalar].
    generalize (powerRZ q0 (-1)) (powerRZ q0 (-2)) (powerRZ q0 (-3)).
    intros Q1 Q2 Q3. unfold powerRZ. change (Pos.to_nat 2) with 2%nat.
    cbn [pow].
    generalize ((xhats o).[t]) ((xhats o).[t - 1]) ((Ps o).[t])
      ((Ps o).[t - 1]) ((M o).[t]).
    intros x1 x0 P1 P0 M1. repeat split; ring.
  - eapply returns_weaken;
      [apply (Dparm_loop sys m0 A0 q0 r0 0 ((y sys).[t])
                [(xhats o).[t]] [(xhats o).[t]] t);
       [assumption | lia | reflexivity | assumption | assumption]|].
    rewrite Hn. intros g [_ _ Hdone _].
    pose proof (Hdone 0%nat 3%nat ltac:(cbn; lia) ltac:(lia) ltac:(lia)) as E3.
    change (Z.of_nat 3) with 3%Z in E3.
    change ((g !!! 0%nat).[3]) with ((g !!! 0%nat) !!! 3%nat).
    rewrite E3, !Hcol by lia.
    unfold column_written, Dparm_entry. cbv beta iota zeta. rewrite Hr.
    cbn [lookup_total list_lookup_total Z.of_nat Pos.of_succ_nat Pos.succ
         fadd fsub fmul fdiv fneg fpow f0 f1 f2 real_scalar].
    generalize (powerRZ r0 (-1)) (powerRZ r0 (-3)).
    intros R1 R3. unfold powerRZ. change (Pos.to_nat 2) with 2%nat.
    cbn [pow].
    generalize ((xhats o).[t]) ((Ps o).[t]) ((y sys).[t]).
    intros x1 P1 y1. ring.
Qed.

End RealGradients.

(** ** The model's methods at the scenario *)

Lemma two_inferred_store :
  template_storeParameters two_inferred [1 / 5; 1 / 2]%R scenario_ssm
  = Ok (par two_inferred_stored).
Proof. reflexivity. Qed.

Lemma two_inferred_return :
  template_returnParameters two_inferred = Ok [0; 9 / 10]%R.
Proof. reflexivity. Qed.

Lemma storeParameters_splices_witness :
  returns (template_storeParameters two_inferred [1 / 5; 1 / 2]%R scenario_ssm)
    (fun p =>
      Z.of_nat (length p) = nPar scenario_ssm
      /\ (forall k, 0 <= k < nParInference two_inferred ->
                    p.[k] = ([1 / 5; 1 / 2]%R).[k])
      /\ (forall k, nParInference two_inferred <= k < nPar scenario_ssm ->
                    p.[k] = (par scenario_ssm).[k])).
Proof.
  apply (storeParameters_splices two_inferred [1 / 5; 1 / 2]%R scenario_ssm);
    cbn; lia.
Defined.

Lemma returnParameters_after_store_witness :
  template_returnParameters two_inferred_stored
  = Ok (take (Z.to_nat (nParInference two_inferred)) [1 / 5; 1 / 2]%R).
Proof.
  apply (returnParameters_after_store two_inferred two_inferred_stored
           [1 / 5; 1 / 2]%R scenario_ssm).
  - cbn. lia.
  - cbn. lia.
  - cbn. lia.
  - reflexivity.
  - exact two_inferred_store.
Defined.

Lemma store_after_returnParameters_witness :
  template_storeParameters two_inferred [0; 9 / 10]%R scenario_ssm
  = Ok (par two_inferred).
Proof.
  apply (store_after_returnParameters two_inferred scenario_ssm
           [0; 9 / 10]%R).
  - cbn. lia.
  - reflexivity.
  - reflexivity.
  - reflexivity.
  - exact two_inferred_return.
Defined.

Lemma storeParameters_too_many_witness :
  raises (template_storeParameters five_inferred [1 / 5; 1 / 2]%R scenario_ssm)
         IndexError.
Proof.
  apply (storeParameters_too_many five_inferred [1 / 5; 1 / 2]%R scenario_ssm).
  cbn. lia.
Defined.

Lemma kf_after_storeParameters_witness :
  kf two_inferred_stored
  = kf {| par := take (Z.to_nat (nParInference two_inferred)) [1 / 5; 1 / 2]%R
                 ++ drop (Z.to_nat (nParInference two_inferred))
                      (par scenario_ssm);
          y := y two_inferred; u := u two_inferred; T := T two_inferred;
          nParInference := nParInference two_inferred;
          dprior1 := dprior1 two_inferred |}.
Proof.
  apply (kf_after_storeParameters two_inferred two_inferred_stored
           [1 / 5; 1 / 2]%R scenario_ssm).
  - cbn. lia.
  - cbn. lia.
  - cbn. lia.
  - cbn. lia.
  - exact two_inferred_store.
  - reflexivity.
  - reflexivity.
  - reflexivity.
Defined.

Lemma priorUniform_accepts_iff_witness :
  returns (priorUniform scenario) (fun out =>
    (out = 1 /\ Rabs (9 / 10) <= 1 /\ 0 <= 1 / 2 /\ 0 <= 1 / 2)
    \/ (out = 0 /\ ~ (Rabs (9 / 10) <= 1 /\ 0 <= 1 / 2 /\ 0 <= 1 / 2)))%R.
Proof.
  apply (priorUniform_accepts_iff scenario 0 (9 / 10) (1 / 2) (1 / 2))%R.
  reflexivity.
Defined.

Lemma noiseless_ready : kf_ready noiseless 0%R (9 / 10)%R 0%R 0%R.
Proof. split; [reflexivity | cbn; lia ..]. Qed.

Lemma priorUniform_admits_zero_noise_witness :
  returns (priorUniform noiseless) (fun out => out = 1%R)
  /\ returns (kf noiseless) (fun o =>
       (Pp o).[1] = 0%R /\ (S_ o).[1] = 0%R
       /\ (K o).[1] = ((Pp o).[1] / (S_ o).[1])%R).
Proof.
  apply (priorUniform_admits_zero_noise noiseless 0 (9 / 10))%R.
  - exact noiseless_ready.
  - cbn. lia.
  - unfold Rabs. destruct (Rcase_abs (9 / 10)); lra.
Defined.

Lemma Dparm_rows_witness :
  returns (Dparm scenario [1 / 10; 1 / 5]%R [0; 1 / 10]%R 0) (fun g =>
    length g = length [1 / 10; 1 / 5]%R
    /\ forall j, (j < length [1 / 10; 1 / 5]%R)%nat ->
         Z.of_nat (length (g !!! j)) = nParInference scenario
         /\ forall i, 0 <= i < nParInference scenario ->
              (g !!! j).[i]
              = Dparm_entry 0%R (9 / 10)%R (1 / 2)%R (1 / 2)%R
                  ((u scenario).[(0 - 1) mod Z.of_nat (length (u scenario))])
                  ((y scenario).[0 mod Z.of_nat (length (y scenario))])
                  ([1 / 10; 1 / 5]%R !!! j) ([0; 1 / 10]%R !!! j) i).
Proof.
  apply (Dparm_rows scenario 0 (9 / 10) (1 / 2) (1 / 2))%R.
  - reflexivity.
  - cbn. lia.
  - reflexivity.
  - cbn. lia.
  - cbn. lia.
Defined.

Lemma scenario_no_input (t : Z) :
  0 <= t < T scenario -> (u scenario).[t] = 0%R.
Proof.
  intros Ht. cbn in Ht.
  assert (Hcases : t = 0 \/ t = 1 \/ t = 2 \/ t = 3 \/ t = 4) by lia.
  destruct Hcases as [-> | [-> | [-> | [-> | ->]]]]; reflexivity.
Qed.

Lemma rts_score_is_Dparm_plus_moments_witness :
  returns (rts scenario) (fun o =>
    forall t, 1 <= t < T scenario ->
      returns (Dparm scenario [(xhats o).[t]] [(xhats o).[t - 1]] t) (fun g =>
        (gradient_ o !!! 0%nat).[t] = (g !!! 0%nat).[0]
        /\ (gradient_ o !!! 1%nat).[t]
           = ((g !!! 0%nat).[1]
              + powerRZ (1 / 2) (-2) * ((M o).[t] - 9 / 10 * (Ps o).[t - 1]))%R
        /\ (gradient_ o !!! 2%nat).[t]
           = ((g !!! 0%nat).[2]
              + powerRZ (1 / 2) (-3)
                * ((Ps o).[t] - 2 * (9 / 10) * (M o).[t]
                   + 9 / 10 * (9 / 10) * (Ps o).[t - 1]))%R)
      /\ returns (Dparm scenario [(xhats o).[t]] [(xhats o).[t]] t) (fun g =>
           (gradient_ o !!! 3%nat).[t]
           = ((g !!! 0%nat).[3] + powerRZ (1 / 2) (-3) * (Ps o).[t])%R)).
Proof.
  apply (rts_score_is_Dparm_plus_moments scenario 0 (9 / 10) (1 / 2) (1 / 2))%R.
  - exact scenario_rts_ready.
  - reflexivity.
  - exact scenario_no_input.
Defined.
